(** * Streaming response pipeline of the weather chat client

    A shallow embedding of
    - [src/lib/api.ts]: [extractTextFromTokenStream] and the read loop of
      [sendMessageToWeatherAgent];
    - [src/hooks/useWeatherStream.ts]: the [send]/[cancel] controller;
    - [src/components/chat/ChatUI.tsx]: [formatAgentMessage];
    together with the parts of the JavaScript platform these functions call
    (string primitives, backtracking regular expressions, [JSON.parse],
    the streaming UTF-8 [TextDecoder]). *)

From Stdlib Require Import Ascii String.
From Stdlib Require Import List NArith ZArith Bool Lia.
Import ListNotations.

Local Open Scope N_scope.

(* ================================================================== *)
(** * JavaScript strings *)
(* ================================================================== *)

(** A JavaScript string is a sequence of UTF-16 code units. *)
Definition code_unit := N.
Definition jsstring := list code_unit.

Module JS.

(** ASCII literals of the source, as code units. *)
Definition ch (a : ascii) : code_unit := N_of_ascii a.
Definition str (s : String.string) : jsstring :=
  map N_of_ascii (String.list_ascii_of_string s).

Definition LF : code_unit := 10.
Definition CR : code_unit := 13.
Definition BACKSLASH : code_unit := 92.
Definition QUOTE : code_unit := 34.
Definition EM_DASH : code_unit := 8212.

Fixpoint str_eqb (a b : jsstring) : bool :=
  match a, b with
  | [], [] => true
  | x :: a', y :: b' => (x =? y) && str_eqb a' b'
  | _, _ => false
  end.

(** ECMAScript WhiteSpace and LineTerminator code units: what
    [String.prototype.trim] strips and what [\s] matches. *)
Definition is_white_space (c : code_unit) : bool :=
  ((9 <=? c) && (c <=? 13)) || (c =? 32) || (c =? 160) || (c =? 5760)
  || ((8192 <=? c) && (c <=? 8202)) || (c =? 8232) || (c =? 8233)
  || (c =? 8239) || (c =? 8287) || (c =? 12288) || (c =? 65279).

Fixpoint trimStart (s : jsstring) : jsstring :=
  match s with
  | c :: s' => if is_white_space c then trimStart s' else s
  | [] => []
  end.

Definition trimEnd (s : jsstring) : jsstring := rev (trimStart (rev s)).

Definition trim (s : jsstring) : jsstring := trimEnd (trimStart s).

Fixpoint startsWith (p s : jsstring) : bool :=
  match p, s with
  | [], _ => true
  | x :: p', y :: s' => (x =? y) && startsWith p' s'
  | _ :: _, [] => false
  end.

Definition endsWith (p s : jsstring) : bool := startsWith (rev p) (rev s).

(** [s.slice(n)] for [0 <= n]. *)
Definition slice_from (n : nat) (s : jsstring) : jsstring := skipn n s.

(** [s.slice(n, -k)]: from index [n] up to [k] units before the end
    (empty when the two bounds cross). *)
Definition slice_between (n k : nat) (s : jsstring) : jsstring :=
  firstn (length s - k - n) (skipn n s).

(** [s.indexOf(c)] for a one-unit needle; [None] stands for [-1]. *)
Fixpoint indexOf (c : code_unit) (s : jsstring) : option nat :=
  match s with
  | [] => None
  | x :: s' => if x =? c then Some O else option_map S (indexOf c s')
  end.

(** [s.lastIndexOf(c)] for a one-unit needle. *)
Fixpoint lastIndexOf (c : code_unit) (s : jsstring) : option nat :=
  match s with
  | [] => None
  | x :: s' =>
      match lastIndexOf c s' with
      | Some i => Some (S i)
      | None => if x =? c then Some O else None
      end
  end.

(** [s.split(sep)] for a one-unit separator: always at least one piece. *)
Fixpoint split_acc (sep : code_unit) (acc s : jsstring) : list jsstring :=
  match s with
  | [] => [acc]
  | c :: s' =>
      if c =? sep then acc :: split_acc sep [] s'
      else split_acc sep (acc ++ [c]) s'
  end.

Definition split (sep : code_unit) (s : jsstring) : list jsstring :=
  split_acc sep [] s.

(** Truthiness of a string: non-empty. *)
Definition nonempty (s : jsstring) : bool :=
  match s with [] => false | _ :: _ => true end.

End JS.

(* ================================================================== *)
(** * Regular expressions *)
(* ================================================================== *)

(** The fragment of ECMAScript patterns the sources use, with the
    standard's backtracking priorities: a greedy quantifier tries the
    longer match first, a lazy one the shorter, an alternation its left
    branch first.  Every quantified atom of the sources is a one-unit
    character class, so each iteration consumes input. *)
Module Regex.

Inductive regex : Type :=
| Eps
| Cls (p : code_unit -> bool)
| Cat (a b : regex)
| Alt (a b : regex)
| Star (p : code_unit -> bool)
| LazyStar (p : code_unit -> bool)
| Group (i : nat) (r : regex)
| EndOfInput.

(** Capture groups: most recent binding first. *)
Definition captures := list (nat * jsstring).

Fixpoint capture (i : nat) (c : captures) : option jsstring :=
  match c with
  | [] => None
  | (j, v) :: c' => if Nat.eqb i j then Some v else capture i c'
  end.

(** A continuation receives the unread input and the captures so far. *)
Definition cont := jsstring -> captures -> option (captures * jsstring).

Fixpoint greedy_star (p : code_unit -> bool) (k : cont) (s : jsstring) (c : captures)
  : option (captures * jsstring) :=
  match s with
  | x :: s' =>
      if p x then
        match greedy_star p k s' c with
        | Some r => Some r
        | None => k s c
        end
      else k s c
  | [] => k s c
  end.

Fixpoint lazy_star (p : code_unit -> bool) (k : cont) (s : jsstring) (c : captures)
  : option (captures * jsstring) :=
  match k s c with
  | Some r => Some r
  | None =>
      match s with
      | x :: s' => if p x then lazy_star p k s' c else None
      | [] => None
      end
  end.

Fixpoint run (r : regex) (k : cont) : cont :=
  match r with
  | Eps => k
  | Cls p => fun s c =>
      match s with
      | x :: s' => if p x then k s' c else None
      | [] => None
      end
  | Cat a b => run a (run b k)
  | Alt a b => fun s c =>
      match run a k s c with
      | Some res => Some res
      | None => run b k s c
      end
  | Star p => greedy_star p k
  | LazyStar p => lazy_star p k
  | Group i a => fun s c =>
      run a (fun s' c' => k s' ((i, firstn (length s - length s') s) :: c')) s c
  | EndOfInput => fun s c =>
      match s with
      | [] => k s c
      | _ :: _ => None
      end
  end.

(** One match attempt at the current position: the captures and the
    input left after the match. *)
Definition match_here (r : regex) (s : jsstring) : option (captures * jsstring) :=
  run r (fun s' c => Some (c, s')) s [].

(** [/^r/.test(s)]. *)
Definition test_start (r : regex) (s : jsstring) : bool :=
  match match_here r s with Some _ => true | None => false end.

(** [s.replace(/^r/, '')]. *)
Definition strip_start (r : regex) (s : jsstring) : jsstring :=
  match match_here r s with Some (_, rest) => rest | None => s end.

(** [s.replace(/r/g, by)] for a pattern that cannot match the empty
    string: scan left to right, replacing every match. *)
Fixpoint replace_all_fuel (fuel : nat) (r : regex) (by_ : jsstring) (s : jsstring)
  : jsstring :=
  match fuel with
  | O => s
  | S fuel' =>
      match s with
      | [] => []
      | x :: s' =>
          match match_here r s with
          | Some (_, rest) => by_ ++ replace_all_fuel fuel' r by_ rest
          | None => x :: replace_all_fuel fuel' r by_ s'
          end
      end
  end.

Definition replace_all (r : regex) (by_ : jsstring) (s : jsstring) : jsstring :=
  replace_all_fuel (S (length s)) r by_ s.

(** The loop [while ((m = re.exec(s)) !== null) out.push(m[1])] for a
    global pattern whose group 1 always takes part and that cannot match
    the empty string: [lastIndex] moves to the end of each match. *)
Fixpoint exec_all_fuel (fuel : nat) (r : regex) (s : jsstring) : list jsstring :=
  match fuel with
  | O => []
  | S fuel' =>
      match s with
      | [] => []
      | _ :: s' =>
          match match_here r s with
          | Some (c, rest) =>
              match capture 1 c with
              | Some v => v :: exec_all_fuel fuel' r rest
              | None => exec_all_fuel fuel' r rest
              end
          | None => exec_all_fuel fuel' r s'
          end
      end
  end.

Definition exec_all (r : regex) (s : jsstring) : list jsstring :=
  exec_all_fuel (S (length s)) r s.

(** Character classes of the sources. *)
Definition any (_ : code_unit) : bool := true.
Definition one (a : code_unit) (c : code_unit) : bool := c =? a.
Definition digit (c : code_unit) : bool := (48 <=? c) && (c <=? 57).
Definition upper (c : code_unit) : bool := (65 <=? c) && (c <=? 90).
Definition lower (c : code_unit) : bool := (97 <=? c) && (c <=? 122).
Definition letter (c : code_unit) : bool := upper c || lower c.
(** [.]: anything but a line terminator. *)
Definition dot (c : code_unit) : bool :=
  negb ((c =? 10) || (c =? 13) || (c =? 8232) || (c =? 8233)).

Definition Plus (p : code_unit -> bool) : regex := Cat (Cls p) (Star p).
Definition LazyPlus (p : code_unit -> bool) : regex := Cat (Cls p) (LazyStar p).
Definition Opt (p : code_unit -> bool) : regex := Alt (Cls p) Eps.

Fixpoint Lit (s : jsstring) : regex :=
  match s with
  | [] => Eps
  | x :: s' => Cat (Cls (one x)) (Lit s')
  end.

End Regex.

(* ================================================================== *)
(** * [JSON.parse] *)
(* ================================================================== *)

(** The platform's JSON grammar (ECMA-404), as far as the extractor
    observes it: whether the text parses, and the value of a top-level
    property.  A number is kept as sign, decimal mantissa and decimal
    exponent. *)
Module Json.

#[local] Unset Elimination Schemes.
Inductive value : Type :=
| JNull
| JBool (b : bool)
| JNumber (negative : bool) (mantissa : N) (exponent : Z)
| JString (s : jsstring)
| JArray (items : list value)
| JObject (fields : list (jsstring * value)).
#[local] Set Elimination Schemes.

Definition is_json_space (c : code_unit) : bool :=
  (c =? 9) || (c =? 10) || (c =? 13) || (c =? 32).

Fixpoint skip_ws (s : jsstring) : jsstring :=
  match s with
  | c :: s' => if is_json_space c then skip_ws s' else s
  | [] => []
  end.

Definition hex_digit (c : code_unit) : option N :=
  if (48 <=? c) && (c <=? 57) then Some (c - 48)
  else if (65 <=? c) && (c <=? 70) then Some (c - 55)
  else if (97 <=? c) && (c <=? 102) then Some (c - 87)
  else None.

Definition hex4 (a b c d : code_unit) : option code_unit :=
  match hex_digit a, hex_digit b, hex_digit c, hex_digit d with
  | Some x, Some y, Some z, Some w => Some (((x * 16 + y) * 16 + z) * 16 + w)
  | _, _, _, _ => None
  end.

(** The unit an escape [\e] stands for. *)
Definition simple_escape (e : code_unit) : option code_unit :=
  if e =? 34 then Some 34          (* quote *)
  else if e =? 92 then Some 92     (* backslash *)
  else if e =? 47 then Some 47     (* slash *)
  else if e =? 98 then Some 8      (* b: backspace *)
  else if e =? 102 then Some 12    (* f: form feed *)
  else if e =? 110 then Some 10    (* n: line feed *)
  else if e =? 114 then Some 13    (* r: carriage return *)
  else if e =? 116 then Some 9     (* t: tab *)
  else None.

Definition cons_fst (u : code_unit) (r : option (jsstring * jsstring))
  : option (jsstring * jsstring) :=
  match r with
  | Some (v, rest) => Some (u :: v, rest)
  | None => None
  end.

(** The characters of a string literal after its opening quote, up to
    and including the closing quote. *)
Fixpoint string_body (s : jsstring) : option (jsstring * jsstring) :=
  match s with
  | [] => None
  | c :: r =>
      if c =? 34 then Some ([], r)
      else if c =? 92 then
        match r with
        | [] => None
        | e :: r1 =>
            if e =? 117 then               (* u and four hex digits *)
              match r1 with
              | h1 :: h2 :: h3 :: h4 :: r2 =>
                  match hex4 h1 h2 h3 h4 with
                  | Some u => cons_fst u (string_body r2)
                  | None => None
                  end
              | _ => None
              end
            else
              match simple_escape e with
              | Some u => cons_fst u (string_body r1)
              | None => None
              end
        end
      else if c <? 32 then None
      else cons_fst c (string_body r)
  end.

Definition digit (c : code_unit) : bool := (48 <=? c) && (c <=? 57).

(** A run of decimal digits: its value on top of [acc], its length, and
    the input after it. *)
Fixpoint take_digits (acc : N) (n : nat) (s : jsstring) : N * nat * jsstring :=
  match s with
  | c :: r => if digit c then take_digits (acc * 10 + (c - 48)) (S n) r else (acc, n, s)
  | [] => (acc, n, [])
  end.

(** [int frac? exp?] after an optional minus sign. *)
Definition number (s : jsstring) : option (value * jsstring) :=
  let '(neg, s1) :=
    match s with
    | c :: r => if c =? 45 then (true, r) else (false, s)
    | [] => (false, s)
    end in
  let int_part :=
    match s1 with
    | c :: r =>
        if c =? 48 then Some (0, r)
        else if digit c then
          let '(v, _, rest) := take_digits 0 O s1 in Some (v, rest)
        else None
    | [] => None
    end in
  match int_part with
  | None => None
  | Some (iv, s2) =>
      let frac :=
        match s2 with
        | c :: r =>
            if c =? 46 then
              match take_digits iv O r with
              | (_, O, _) => None
              | (v, n, rest) => Some (v, n, rest)
              end
            else Some (iv, O, s2)
        | [] => Some (iv, O, s2)
        end in
      match frac with
      | None => None
      | Some (m, nf, s3) =>
          let expo :=
            match s3 with
            | c :: r =>
                if (c =? 101) || (c =? 69) then
                  let '(eneg, r1) :=
                    match r with
                    | sg :: r' =>
                        if sg =? 45 then (true, r')
                        else if sg =? 43 then (false, r')
                        else (false, r)
                    | [] => (false, r)
                    end in
                  match take_digits 0 O r1 with
                  | (_, O, _) => None
                  | (v, _, rest) =>
                      Some ((if eneg then - Z.of_N v else Z.of_N v)%Z, rest)
                  end
                else Some (0%Z, s3)
            | [] => Some (0%Z, s3)
            end in
          match expo with
          | None => None
          | Some (e, s4) => Some (JNumber neg m (e - Z.of_nat nf)%Z, s4)
          end
      end
  end.

Definition literal (word : jsstring) (v : value) (s : jsstring)
  : option (value * jsstring) :=
  if JS.startsWith word s then Some (v, skipn (length word) s) else None.

(** Members of an object after the first one has been found to start:
    [string : value] separated by commas, closed by a brace. *)
Fixpoint members (pv : jsstring -> option (value * jsstring)) (n : nat) (s : jsstring)
  : option (list (jsstring * value) * jsstring) :=
  match n with
  | O => None
  | S n' =>
      match skip_ws s with
      | q :: r =>
          if q =? 34 then
            match string_body r with
            | Some (key, r1) =>
                match skip_ws r1 with
                | col :: r2 =>
                    if col =? 58 then
                      match pv r2 with
                      | Some (v, r3) =>
                          match skip_ws r3 with
                          | d :: r4 =>
                              if d =? 44 then
                                match members pv n' r4 with
                                | Some (fs, r5) => Some ((key, v) :: fs, r5)
                                | None => None
                                end
                              else if d =? 125 then Some ([(key, v)], r4)
                              else None
                          | [] => None
                          end
                      | None => None
                      end
                    else None
                | [] => None
                end
            | None => None
            end
          else None
      | [] => None
      end
  end.

(** Elements of an array after the first one has been found to start. *)
Fixpoint elements (pv : jsstring -> option (value * jsstring)) (n : nat) (s : jsstring)
  : option (list value * jsstring) :=
  match n with
  | O => None
  | S n' =>
      match pv s with
      | Some (v, r) =>
          match skip_ws r with
          | d :: r1 =>
              if d =? 44 then
                match elements pv n' r1 with
                | Some (vs, r2) => Some (v :: vs, r2)
                | None => None
                end
              else if d =? 93 then Some ([v], r1)
              else None
          | [] => None
          end
      | None => None
      end
  end.

(** One value, after optional white space.  Every nested value and every
    member spends one unit of [fuel]; each also consumes at least one
    unit of input. *)
Fixpoint parse_value (fuel : nat) (s : jsstring) : option (value * jsstring) :=
  match fuel with
  | O => None
  | S f =>
      match skip_ws s with
      | [] => None
      | c :: r =>
          if c =? 123 then                       (* { *)
            match skip_ws r with
            | c2 :: r2 =>
                if c2 =? 125 then Some (JObject [], r2)
                else
                  match members (parse_value f) f r with
                  | Some (fs, rest) => Some (JObject fs, rest)
                  | None => None
                  end
            | [] => None
            end
          else if c =? 91 then                   (* [ *)
            match skip_ws r with
            | c2 :: r2 =>
                if c2 =? 93 then Some (JArray [], r2)
                else
                  match elements (parse_value f) f r with
                  | Some (vs, rest) => Some (JArray vs, rest)
                  | None => None
                  end
            | [] => None
            end
          else if c =? 34 then
            match string_body r with
            | Some (v, rest) => Some (JString v, rest)
            | None => None
            end
          else if c =? 116 then literal (JS.str "true") (JBool true) (c :: r)
          else if c =? 102 then literal (JS.str "false") (JBool false) (c :: r)
          else if c =? 110 then literal (JS.str "null") JNull (c :: r)
          else number (c :: r)
      end
  end.

(** [JSON.parse(text)]; [None] when it throws a SyntaxError. *)
Definition parse (text : jsstring) : option value :=
  match parse_value (S (length text)) text with
  | Some (v, rest) =>
      match skip_ws rest with
      | [] => Some v
      | _ :: _ => None
      end
  | None => None
  end.

Fixpoint lookup (key : jsstring) (fields : list (jsstring * value)) : option value :=
  match fields with
  | [] => None
  | (k, v) :: fs =>
      match lookup key fs with
      | Some v' => Some v'             (* a later duplicate wins *)
      | None => if JS.str_eqb k key then Some v else None
      end
  end.

(** [obj?.key] for a parsed value, [None] for [undefined]. *)
Definition get (key : jsstring) (obj : value) : option value :=
  match obj with
  | JObject fields => lookup key fields
  | _ => None
  end.

(** The number [mantissa * 10^exponent] becomes the double zero: it is
    zero, or at most half the least positive double ([2^-1075]). *)
Definition number_is_zero (m : N) (e : Z) : bool :=
  (m =? 0) || ((e <? 0)%Z && (m * 2 ^ 1075 <=? 10 ^ Z.to_N (- e))).

(** ToBoolean. *)
Definition truthy (v : option value) : bool :=
  match v with
  | None => false
  | Some JNull => false
  | Some (JBool b) => b
  | Some (JNumber _ m e) => negb (number_is_zero m e)
  | Some (JString s) => JS.nonempty s
  | Some (JArray _) => true
  | Some (JObject _) => true
  end.

End Json.

(* ================================================================== *)
(** * [TextDecoder] in streaming mode *)
(* ================================================================== *)

(** The platform's UTF-8 decoder (WHATWG Encoding), as
    [decoder.decode(value, { stream: true })] drives it: a state machine
    over bytes that keeps an unfinished multi-byte sequence between calls,
    replaces malformed input by U+FFFD and drops one leading byte order
    mark. *)
Module TextDecoder.

Definition bytes := list Byte.byte.

Record state : Type := mkState {
  code_point : N;
  bytes_seen : nat;
  bytes_needed : nat;
  lower_boundary : N;
  upper_boundary : N;
  bom_seen : bool
}.

Definition initial : state := mkState 0 O O 128 191 false.

Definition REPLACEMENT : N := 65533.

Definition reset (st : state) : state :=
  mkState 0 O O 128 191 (bom_seen st).

(** A byte arriving when no sequence is in progress. *)
Definition lead (st : state) (b : N) : state * list N :=
  if b <=? 127 then (st, [b])
  else if (194 <=? b) && (b <=? 223) then
    (mkState (N.land b 31) O 1 128 191 (bom_seen st), [])
  else if (224 <=? b) && (b <=? 239) then
    (mkState (N.land b 15) O 2
       (if b =? 224 then 160 else 128) (if b =? 237 then 159 else 191)
       (bom_seen st), [])
  else if (240 <=? b) && (b <=? 244) then
    (mkState (N.land b 7) O 3
       (if b =? 240 then 144 else 128) (if b =? 244 then 143 else 191)
       (bom_seen st), [])
  else (st, [REPLACEMENT]).

(** The decoder's handler for one byte: the code points it emits. *)
Definition handler (st : state) (b : N) : state * list N :=
  match bytes_needed st with
  | O => lead st b
  | S _ =>
      if (b <? lower_boundary st) || (upper_boundary st <? b) then
        (* malformed continuation: emit U+FFFD and read the byte again *)
        let '(st', out) := lead (reset st) b in
        (st', REPLACEMENT :: out)
      else
        let cp := N.lor (N.shiftl (code_point st) 6) (N.land b 63) in
        let seen := S (bytes_seen st) in
        if Nat.eqb seen (bytes_needed st) then (reset st, [cp])
        else (mkState cp seen (bytes_needed st) 128 191 (bom_seen st), [])
  end.

(** A code point as UTF-16 code units. *)
Definition utf16 (cp : N) : jsstring :=
  if cp <? 65536 then [cp]
  else
    let v := cp - 65536 in
    [55296 + N.shiftr v 10; 56320 + N.land v 1023].

(** Serializing the emitted code points: the first one is dropped when
    it is the byte order mark. *)
Fixpoint serialize (seen : bool) (cps : list N) : bool * jsstring :=
  match cps with
  | [] => (seen, [])
  | cp :: rest =>
      let '(seen', out) := serialize true rest in
      if negb seen && (cp =? 65279) then (seen', out)
      else (seen', utf16 cp ++ out)
  end.

Definition decode_byte (st : state) (b : Byte.byte) : state * jsstring :=
  let '(st1, cps) := handler st (Byte.to_N b) in
  let '(seen, out) := serialize (bom_seen st1) cps in
  (mkState (code_point st1) (bytes_seen st1) (bytes_needed st1)
     (lower_boundary st1) (upper_boundary st1) seen, out).

(** [decoder.decode(value, { stream: true })]. *)
Fixpoint decode (st : state) (value : bytes) : state * jsstring :=
  match value with
  | [] => (st, [])
  | b :: rest =>
      let '(st1, out1) := decode_byte st b in
      let '(st2, out2) := decode st1 rest in
      (st2, out1 ++ out2)
  end.

End TextDecoder.

(* ================================================================== *)
(** * [src/lib/api.ts] *)
(* ================================================================== *)

Module Api.
Import JS Regex.

(** [/^[faed]:/i], anchored by the caller. *)
Definition faed (c : code_unit) : bool :=
  (c =? ch "f") || (c =? ch "a") || (c =? ch "e") || (c =? ch "d")
  || (c =? ch "F") || (c =? ch "A") || (c =? ch "E") || (c =? ch "D").
Definition control_re : regex := Cat (Cls faed) (Cls (one (ch ":"))).

(** The global pattern of line 40: one or more digits, a colon, a
    quote, group 1 (a lazy run of any units), a quote. *)
Definition token_re : regex :=
  Cat (Plus digit)
    (Cat (Cls (one (ch ":")))
       (Cat (Cls (one QUOTE))
          (Cat (Group 1 (LazyStar any)) (Cls (one QUOTE))))).

(** [/^\d+:/], anchored by the caller. *)
Definition index_re : regex := Cat (Plus digit) (Cls (one (ch ":"))).

Definition metadata (obj : Json.value) : bool :=
  Json.truthy (Json.get (str "toolCallId") obj)
  || Json.truthy (Json.get (str "toolName") obj)
  || Json.truthy (Json.get (str "messageId") obj)
  || Json.truthy (Json.get (str "finishReason") obj).

Definition extractTextFromTokenStream (raw : jsstring) : jsstring :=
  if test_start control_re (trim raw) then []
  else
    let tokens := exec_all token_re raw in
    if (0 <? length tokens)%nat then concat tokens
    else
      let trimmed := trimStart raw in
      if test_start index_re trimmed then
        let afterIndex := strip_start index_re trimmed in
        match indexOf (ch "{") afterIndex, lastIndexOf (ch "}") afterIndex with
        | Some firstBrace, Some lastBrace =>
            if (firstBrace <? lastBrace)%nat
            then trim (slice_from (lastBrace + 1) afterIndex)
            else []
        | _, _ => []
        end
      else if startsWith (str "{") trimmed && endsWith (str "}") trimmed then
        match Json.parse trimmed with
        | Some obj => if metadata obj then [] else raw
        | None => raw
        end
      else raw.

(** What [sendMessageToWeatherAgent] does that can be observed: the
    calls of its three callbacks, in order, and, for reference, its
    calls of [reader.read()] and of the extractor. *)
Inductive event : Type :=
| Read
| Extract (arg : jsstring)
| OnChunk (chunk : jsstring)
| OnError (error : jsstring)
| OnComplete.

(** [/\\n/g]: a backslash followed by the letter n. *)
Definition escaped_newline_re : regex := Lit [BACKSLASH; ch "n"].

(** Lines 107-110 and 112-114: extract, normalize, emit when truthy. *)
Definition emit (arg : jsstring) : list event :=
  let cleaned := extractTextFromTokenStream arg in
  let cleaned := replace_all escaped_newline_re [LF] cleaned in
  Extract arg :: (if nonempty cleaned then [OnChunk cleaned] else []).

Inductive line_result : Type :=
| Continue (evs : list event)
| Return (evs : list event).

(** The body of [for (const line of lines)]. *)
Definition process_line (line : jsstring) : line_result :=
  if negb (nonempty (trim line)) then Continue []
  else if startsWith (str "data: ") line then
    let data := slice_from 6 line in
    if str_eqb data (str "[DONE]") then Return [OnComplete]
    else Continue (emit data)
  else Continue (emit line).

(** The [for] loop; [true] when it left the function by [return]. *)
Fixpoint process_lines (lines : list jsstring) : list event * bool :=
  match lines with
  | [] => ([], false)
  | line :: rest =>
      match process_line line with
      | Return evs => (evs, true)
      | Continue evs =>
          let '(evs', returned) := process_lines rest in
          (evs ++ evs', returned)
      end
  end.

(** A value thrown or a rejection reason. *)
Inductive thrown : Type :=
| ErrorObject (name message : jsstring)     (* [instanceof Error] *)
| NotAnError.

Definition AbortError : thrown :=
  ErrorObject (str "AbortError") (str "The user aborted a request.").

(** How the byte stream of a response ends. *)
Inductive stream_end : Type :=
| EndOfStream                               (* [done] is true *)
| ReadRejects (reason : thrown).

Record body_stream : Type := mkBody {
  chunks : list TextDecoder.bytes;
  ending : stream_end
}.

Inductive loop_exit : Type :=
| Break
| Returned
| Throws (reason : thrown).

(** The [while (true)] loop of lines 96-117. *)
Fixpoint read_loop (decoder : TextDecoder.state) (buffer : jsstring)
    (pending : list TextDecoder.bytes) (fin : stream_end)
  : list event * loop_exit :=
  match pending with
  | [] =>
      match fin with
      | EndOfStream => ([Read], Break)
      | ReadRejects e => ([Read], Throws e)
      end
  | value :: more =>
      let '(decoder, text) := TextDecoder.decode decoder value in
      let buffer := buffer ++ text in
      let lines := split LF buffer in
      let buffer := last lines [] in
      let lines := removelast lines in
      let '(evs, returned) := process_lines lines in
      if returned then (Read :: evs, Returned)
      else
        let '(evs', exit) := read_loop decoder buffer more fin in
        (Read :: evs ++ evs', exit)
  end.

Record response : Type := mkResponse {
  ok : bool;
  status : N;
  statusText : jsstring;
  text : option jsstring;          (* [None]: [response.text()] rejects *)
  body : option body_stream        (* [None]: no readable body *)
}.

Inductive fetch_result : Type :=
| FetchRejects (reason : thrown)
| FetchResolves (r : response).

Fixpoint uint_units (d : Decimal.uint) : jsstring :=
  match d with
  | Decimal.Nil => []
  | Decimal.D0 d' => 48 :: uint_units d'
  | Decimal.D1 d' => 49 :: uint_units d'
  | Decimal.D2 d' => 50 :: uint_units d'
  | Decimal.D3 d' => 51 :: uint_units d'
  | Decimal.D4 d' => 52 :: uint_units d'
  | Decimal.D5 d' => 53 :: uint_units d'
  | Decimal.D6 d' => 54 :: uint_units d'
  | Decimal.D7 d' => 55 :: uint_units d'
  | Decimal.D8 d' => 56 :: uint_units d'
  | Decimal.D9 d' => 57 :: uint_units d'
  end.

Definition decimal (n : N) : jsstring := uint_units (N.to_uint n).

(** The [catch] clause of lines 119-124. *)
Definition catch (error : thrown) : list event :=
  match error with
  | ErrorObject name message =>
      if str_eqb name (str "AbortError") then [OnError (str "Request cancelled")]
      else [OnError message]
  | NotAnError => [OnError (str "An unknown error occurred")]
  end.

(** [sendMessageToWeatherAgent], given what [fetch] and the response
    stream deliver.  The callbacks are taken not to throw. *)
Definition sendMessageToWeatherAgent (net : fetch_result) : list event :=
  match net with
  | FetchRejects e => catch e
  | FetchResolves r =>
      if negb (ok r) then
        let body_text := match text r with Some b => b | None => [] end in
        catch (ErrorObject (str "Error")
                 (str "HTTP " ++ decimal (status r) ++ str " " ++ statusText r
                  ++ (if nonempty body_text then str " - " ++ body_text else [])))
      else
        match body r with
        | None =>
            catch (ErrorObject (str "Error") (str "No response body reader available"))
        | Some b =>
            let '(evs, exit) := read_loop TextDecoder.initial [] (chunks b) (ending b) in
            match exit with
            | Returned => evs
            | Break => evs ++ [OnComplete]
            | Throws e => evs ++ catch e
            end
        end
  end.

(** Projections of a run. *)
Definition fragments (evs : list event) : list jsstring :=
  flat_map (fun e => match e with OnChunk c => [c] | _ => [] end) evs.

Definition extractor_calls (evs : list event) : list jsstring :=
  flat_map (fun e => match e with Extract a => [a] | _ => [] end) evs.

Definition errors (evs : list event) : list jsstring :=
  flat_map (fun e => match e with OnError m => [m] | _ => [] end) evs.

Definition completions (evs : list event) : nat :=
  length (filter (fun e => match e with OnComplete => true | _ => false end) evs).

Definition reads (evs : list event) : nat :=
  length (filter (fun e => match e with Read => true | _ => false end) evs).

(** The callbacks alone. *)
Definition callbacks (evs : list event) : list event :=
  filter (fun e => match e with Read | Extract _ => false | _ => true end) evs.

(** A response with status 200 that streams [chunks] and then ends
    with [fin]. *)
Definition streaming (cs : list TextDecoder.bytes) (fin : stream_end) : fetch_result :=
  FetchResolves (mkResponse true 200 (str "OK") None (Some (mkBody cs fin))).

End Api.

(* ================================================================== *)
(** * [src/hooks/useWeatherStream.ts] *)
(* ================================================================== *)

Module Hook.
Import JS Api.

(** The hook's observables, its [abortRef], and the controllers whose
    [abort()] has been called.  Controllers are named by numbers. *)
Record state : Type := mkHook {
  isLoading : bool;
  error : option jsstring;
  abortRef : option nat;
  aborted : list nat
}.

Definition initial : state := mkHook false None None [].

(** [if (abortRef.current) abortRef.current.abort()]. *)
Definition abort_current (h : state) : list nat :=
  match abortRef h with
  | Some c => c :: aborted h
  | None => aborted h
  end.

(** [send], lines 23-27: everything before the call of
    [sendMessageToWeatherAgent]. *)
Definition send_begin (controller : nat) (h : state) : state :=
  mkHook true None (Some controller) (abort_current h).

(** [cancel]. *)
Definition cancel (h : state) : state :=
  mkHook (isLoading h) (error h) (abortRef h) (abort_current h).

(** Lines 33-37; [offline] is
    [typeof window !== 'undefined' && !navigator.onLine]. *)
Definition friendly (offline : bool) (err : jsstring) : jsstring :=
  if offline then str "You are offline. Check your connection and try again."
  else if str_eqb err (str "Failed to fetch") then str "Network error. Please try again."
  else err.

(** The [onError] callback the hook passes down, lines 32-40. *)
Definition onError (offline : bool) (err : jsstring) (h : state) : state :=
  mkHook false (Some (friendly offline err)) (abortRef h) (aborted h).

(** The [onComplete] callback the hook passes down, lines 41-44. *)
Definition onComplete (h : state) : state :=
  mkHook false (error h) (abortRef h) (aborted h).

(** The effect on the hook of one event of an operation it started. *)
Definition deliver (offline : bool) (h : state) (ev : event) : state :=
  match ev with
  | OnError err => onError offline err h
  | OnComplete => onComplete h
  | Read | Extract _ | OnChunk _ => h
  end.

Definition deliver_all (offline : bool) (h : state) (evs : list event) : state :=
  fold_left (deliver offline) evs h.

(** What the network delivers to an operation whose controller is
    aborted: while [fetch] is pending, [fetch] rejects with an
    [AbortError]; once [k] chunks have been read, the pending
    [reader.read()] rejects with it. *)
Definition aborted_during_fetch : fetch_result := FetchRejects AbortError.

Definition aborted_after (k : nat) (cs : list TextDecoder.bytes) : fetch_result :=
  streaming (firstn k cs) (ReadRejects AbortError).

(** A second [send] while a first is reading: the first has read [k]
    chunks when the second [send] aborts its controller, resets the
    observables and starts its own request; the first operation's
    rejected read is handled afterwards. *)
Definition superseded (offline : bool) (k : nat) (cs : list TextDecoder.bytes) : state :=
  let h1 := send_begin 1 initial in
  let first := sendMessageToWeatherAgent (aborted_after k cs) in
  let h2 := send_begin 2 h1 in
  deliver_all offline h2 first.

(** An explicit [cancel()] of an operation that has read [k] chunks. *)
Definition cancelled (offline : bool) (k : nat) (cs : list TextDecoder.bytes) : state :=
  let h1 := send_begin 1 initial in
  let h2 := cancel h1 in
  deliver_all offline h2 (sendMessageToWeatherAgent (aborted_after k cs)).

End Hook.

(* ================================================================== *)
(** * [src/components/chat/ChatUI.tsx]: [formatAgentMessage] *)
(* ================================================================== *)

(** The structure of the rendered message: which elements, with which
    text.  Class names and React keys are presentation and left out. *)
Module ChatUI.
Import JS Regex.

Record Section : Type := mkSection { title : jsstring; rows : list jsstring }.

(** [[A-Za-z .()]]. *)
Definition title_char (c : code_unit) : bool :=
  letter c || (c =? ch " ") || (c =? ch ".") || (c =? ch "(") || (c =? ch ")").

(** The em dash or the hyphen. *)
Definition dash (c : code_unit) : bool := (c =? EM_DASH) || (c =? ch "-").

(** [titleRe], line 69: an optional dash and spaces; group 1, a lazy
    run of one or more letters, spaces, dots and parentheses; a
    separator, either a dash (em dash or hyphen) or a colon, each
    within optional spaces, the dash tried first; group 2, the rest of
    the line up to the end of the input. *)
Definition titleRe : regex :=
  Cat (Opt (one (ch "-")))
    (Cat (Star is_white_space)
       (Cat (Group 1 (LazyPlus title_char))
          (Cat (Alt (Cat (Star is_white_space) (Cat (Cls dash) (Star is_white_space)))
                    (Cat (Star is_white_space)
                       (Cat (Cls (one (ch ":"))) (Star is_white_space))))
             (Cat (Group 2 (Star dot)) EndOfInput)))).

(** [/\s+/g]. *)
Definition spaces_re : regex := Plus is_white_space.

(** [/^-\s+/]. *)
Definition bullet_re : regex := Cat (Cls (one (ch "-"))) (Plus is_white_space).

Definition group (i : nat) (m : captures) : jsstring :=
  match capture i m with Some v => v | None => [] end.

(** The body of the loop of lines 71-87, on the sections closed so far
    and the open one. *)
Definition section_step (st : list Section * option Section) (raw : jsstring)
  : list Section * option Section :=
  let '(sections, current) := st in
  let line := trim raw in
  if negb (nonempty line) then st
  else
    match match_here titleRe line with
    | Some (m, _) =>
        let sections :=
          match current with
          | Some c => sections ++ [c]
          | None => sections
          end in
        let initialRow := if nonempty (group 2 m) then [group 2 m] else [] in
        (sections,
         Some (mkSection (trim (replace_all spaces_re (str " ") (group 1 m))) initialRow))
    | None =>
        match current with
        | Some c =>
            let isBullet := test_start bullet_re line in
            (sections,
             Some (mkSection (title c)
                     (rows c ++ [if isBullet then strip_start bullet_re line else line])))
        | None => st
        end
    end.

(** Line 88. *)
Definition close (st : list Section * option Section) : list Section :=
  match snd st with
  | Some c => fst st ++ [c]
  | None => fst st
  end.

Definition detect_sections (lines : list jsstring) : list Section :=
  close (fold_left section_step lines ([], None)).

Inductive span : Type :=
| Strong (text : jsstring)
| Span (text : jsstring).

(** The pattern of line 90, one group: two asterisks, one or more
    units other than an asterisk, two asterisks. *)
Definition not_star (c : code_unit) : bool := negb (c =? ch "*").
Definition bold_re : regex :=
  Group 1 (Cat (Lit (str "**")) (Cat (Plus not_star) (Lit (str "**")))).

(** [text.split(re)] for a pattern with one group that cannot match the
    empty string: the pieces between matches, with the matched group
    after each piece. *)
Fixpoint split_re_fuel (fuel : nat) (r : regex) (piece s : jsstring) : list jsstring :=
  match fuel with
  | O => [piece ++ s]
  | S fuel' =>
      match s with
      | [] => [piece]
      | x :: s' =>
          match match_here r s with
          | Some (m, rest) => piece :: group 1 m :: split_re_fuel fuel' r [] rest
          | None => split_re_fuel fuel' r (piece ++ [x]) s'
          end
      end
  end.

Definition split_re (r : regex) (s : jsstring) : list jsstring :=
  split_re_fuel (S (length s)) r [] s.

Definition renderInlineBold (text : jsstring) : list span :=
  map (fun part =>
         if startsWith (str "**") part && endsWith (str "**") part
         then Strong (slice_between 2 2 part)
         else Span part)
      (split_re bold_re text).

(** The pattern of line 93: optional spaces; group 1, a lazy run of
    one or more letters, spaces and parentheses; a colon; optional
    spaces; group 2, the rest of the row. *)
Definition label_char (c : code_unit) : bool :=
  letter c || (c =? ch " ") || (c =? ch "(") || (c =? ch ")").
Definition labelRe : regex :=
  Cat (Star is_white_space)
    (Cat (Group 1 (LazyPlus label_char))
       (Cat (Cls (one (ch ":")))
          (Cat (Star is_white_space) (Cat (Group 2 (Star dot)) EndOfInput)))).

(** A row as displayed: a bold label with the rest of the row, or the
    row with inline emphasis (line 115). *)
Inductive row : Type :=
| Labeled (label rest : jsstring)
| Plain (spans : list span).

(** [emphasizeLabel]: the label and the rest of a row of the shape
    [label: text]; [None] when the row itself is returned. *)
Definition emphasizeLabel (r : jsstring) : option (jsstring * jsstring) :=
  match match_here labelRe r with
  | Some (m, _) => Some (group 1 m, group 2 m)
  | None => None
  end.

Definition render_row (r : jsstring) : row :=
  match emphasizeLabel r with
  | None => Plain (renderInlineBold r)
  | Some (label, rest) => Labeled label rest
  end.

Record card : Type := mkCard { heading : jsstring; items : list row }.

(** Lines 107-119 for one section. *)
Definition render_section (sec : Section) : card :=
  mkCard (title sec)
    (map render_row
       (filter nonempty
          (map (fun r => trim (replace_all Api.escaped_newline_re (str " ") r))
             (rows sec)))).

Inductive element : Type :=
| UL (items : list (list span))
| H2 (text : jsstring)
| LetterItem (letter : jsstring) (rest : list span)
| Paragraph (spans : list span).

(** [flushList], on [elements] and [listBuffer]. *)
Definition flushList (st : list element * list (list span))
  : list element * list (list span) :=
  match snd st with
  | [] => st
  | _ :: _ => (fst st ++ [UL (snd st)], [])
  end.

(** [/^[a-z]\./i]. *)
Definition letter_re : regex := Cat (Cls letter) (Cls (one (ch "."))).

(** The callback of [lines.forEach], lines 129-136. *)
Definition fallback_step (st : list element * list (list span)) (line : jsstring)
  : list element * list (list span) :=
  let trimmed := trim line in
  if negb (nonempty trimmed) then flushList st
  else if startsWith (str "**") trimmed && endsWith (str "**") trimmed then
    let '(elements, listBuffer) := flushList st in
    (elements ++ [H2 (slice_between 2 2 trimmed)], listBuffer)
  else if test_start letter_re trimmed then
    let '(elements, listBuffer) := flushList st in
    (elements ++ [LetterItem (firstn 2 trimmed)
                    (renderInlineBold (trim (slice_from 2 trimmed)))], listBuffer)
  else if startsWith (str "- ") trimmed then
    (fst st, snd st ++ [renderInlineBold (slice_from 2 trimmed)])
  else
    let '(elements, listBuffer) := flushList st in
    (elements ++ [Paragraph (renderInlineBold line)], listBuffer).

Definition fallback (lines : list jsstring) : list element :=
  fst (flushList (fold_left fallback_step lines ([], []))).

(** [/\r/g] and [/\n{3,}/g]. *)
Definition cr_re : regex := Cls (one CR).
Definition blank_run_re : regex := Cat (Lit [LF; LF; LF]) (Star (one LF)).

Definition normalize (content : jsstring) : jsstring :=
  replace_all blank_run_re [LF; LF] (replace_all cr_re [] content).

Inductive document : Type :=
| Cards (sections : list card)
| Flat (elements : list element).

Definition formatAgentMessage (content : jsstring) : document :=
  let lines := split LF (normalize content) in
  let sections := detect_sections lines in
  if (0 <? length sections)%nat then Cards (map render_section sections)
  else Flat (fallback lines).

(** The rendering units of a document, in display order. *)
Inductive unit_ : Type :=
| CardUnit (c : card)
| FlatUnit (e : element).

Definition units (d : document) : list unit_ :=
  match d with
  | Cards cs => map CardUnit cs
  | Flat es => map FlatUnit es
  end.

End ChatUI.

(* ================================================================== *)
(** * The conversation: ChatUI.tsx, lines 11-52 *)
(* ================================================================== *)

Module Conversation.
Import JS Regex Api.

(** A message as the component builds it: an id, a type, user or
    agent, and a content. *)
Inductive sender : Type := user | agent.
Record Message : Type := mkMessage { id : jsstring; type : sender; content : jsstring }.

(** The component's state: the messages, the input field and the state
    of the hook. *)
Record state : Type := mkChat {
  messages : list Message;
  inputValue : jsstring;
  stream : Hook.state
}.

(** The class of lines 30, 31 and 34 under the flag i: a letter, a unit
    from U+00C0 to U+00FF, U+0178, the upper case of U+00FF, an
    apostrophe, a parenthesis, a dot or a hyphen. *)
Definition location_char (c : code_unit) : bool :=
  letter c || ((192 <=? c) && (c <=? 255)) || (c =? 376)
  || (c =? ch "'") || (c =? ch "(") || (c =? ch ")") || (c =? ch ".") || (c =? ch "-").

(** A lower case letter of a pattern under the flag i: the letter in
    either case. *)
Definition either_case (a : ascii) (c : code_unit) : bool :=
  (c =? ch a) || (c =? ch a - 32).

Definition word_i (w : String.string) : regex :=
  fold_right (fun a r => Cat (Cls (either_case a)) r) Eps
    (String.list_ascii_of_string w).

(** Two or more units of the class. *)
Definition location_word : regex := Cat (Cls location_char) (Plus location_char).

(** The pattern of lines 30 and 34 after its word boundary: group 1
    holds group 2, one of the words in, at, for and city, then white
    space and two or more units of the class. *)
Definition hint_re : regex :=
  Group 1
    (Cat (Group 2 (Alt (word_i "in") (Alt (word_i "at") (Alt (word_i "for") (word_i "city")))))
       (Cat (Plus is_white_space) location_word)).

(** The pattern of lines 31 and 34: from the start of the input, a
    word of the class, then at most two more, each after white space,
    up to the end of the input. *)
Definition next_word : regex := Cat (Plus is_white_space) location_word.
Definition single_re : regex :=
  Cat location_word
    (Cat (Alt (Cat next_word (Alt next_word Eps)) Eps) EndOfInput).

(** A word unit, as the word boundary sees it. *)
Definition word_char (c : code_unit) : bool :=
  letter c || digit c || (c =? ch "_").

(** [re.test(s)] for a pattern that opens with a word boundary before a
    letter: the pattern is tried at each position with no word unit
    just before it; [prev] is the unit before [s], if any. *)
Fixpoint test_at_boundary (r : regex) (prev : option code_unit) (s : jsstring) : bool :=
  (match prev with
   | Some p => negb (word_char p)
   | None => true
   end && test_start r s)
  || match s with
     | [] => false
     | x :: s' => test_at_boundary r (Some x) s'
     end.

Definition hasLocationHint (text : jsstring) : bool := test_at_boundary hint_re None text.
Definition looksLikeSingleLocation (text : jsstring) : bool := test_start single_re text.

(** Lines 33-34. *)
Definition segmentHasLocation (text : jsstring) : bool :=
  let segments := map trim (split (ch ",") text) in
  existsb (fun seg => hasLocationHint seg || looksLikeSingleLocation seg) segments.

(** The message of line 36, with its curly quotes. *)
Definition NO_LOCATION : jsstring :=
  str "Please ask a weather question with a location (e.g., " ++ 8220 :: str "Weather in London?"
  ++ 8221 :: str " or just " ++ 8220 :: str "Mumbai" ++ 8221 :: str ").".

(** [setError] of the hook. *)
Definition setError (e : option jsstring) (h : Hook.state) : Hook.state :=
  Hook.mkHook (Hook.isLoading h) e (Hook.abortRef h) (Hook.aborted h).

(** The chunk callback of lines 48-51, on [assistantBuffer] and the
    messages. *)
Definition onChunk (assistantId : jsstring) (st : jsstring * list Message)
    (chunk : jsstring) : jsstring * list Message :=
  let assistantBuffer := fst st ++ chunk in
  (assistantBuffer,
   map (fun m => if str_eqb (id m) assistantId
                 then mkMessage (id m) (type m) assistantBuffer
                 else m)
     (snd st)).

(** [handleSendMessage]: [now] and [now'] are the two readings of
    [Date.now()], [controller] names the controller the hook creates
    and [net] is what the network does with the request. *)
Definition handleSendMessage (offline : bool) (now now' : N) (controller : nat)
    (net : fetch_result) (st : state) : state :=
  let text := trim (inputValue st) in
  if negb (nonempty text) || Hook.isLoading (stream st) then st
  else if negb (hasLocationHint text || looksLikeSingleLocation text
                || segmentHasLocation text) then
    mkChat (messages st) (inputValue st) (setError (Some NO_LOCATION) (stream st))
  else
    let userMsg := mkMessage (decimal now) user text in
    let assistantId := decimal now' ++ str "-a" in
    let prev := (messages st ++ [userMsg]) ++ [mkMessage assistantId agent []] in
    let run := sendMessageToWeatherAgent net in
    mkChat (snd (fold_left (onChunk assistantId) (fragments run) ([], prev)))
      []
      (Hook.deliver_all offline (Hook.send_begin controller (stream st)) run).

End Conversation.

(* ================================================================== *)
(** * Vocabulary of the statements *)
(* ================================================================== *)

Import JS Regex.

Definition COLON : code_unit := ch ":".

(** ** Numbered, quoted tokens *)

(** A non-empty run of decimal digits. *)
Definition Digits (d : jsstring) : Prop := d <> [] /\ forallb digit d = true.

(** [s] holds an occurrence of the token pattern: a digit, a colon, an
    opening quote and, somewhere after it, a closing quote. *)
Definition occurs_token (s : jsstring) : Prop :=
  exists a d b c, digit d = true /\ s = a ++ d :: COLON :: QUOTE :: b ++ QUOTE :: c.

(** [g] opens no token: no digit in it is followed by a colon and a quote. *)
Definition opens_no_token (g : jsstring) : Prop :=
  forall a d b, g = a ++ d :: COLON :: QUOTE :: b -> digit d = false.

(** [Tokens s cs]: read from left to right, [s] consists of the tokens
    with quoted contents [cs], each after a gap that opens no token and
    followed by a tail without any occurrence. *)
Inductive Tokens : jsstring -> list jsstring -> Prop :=
| Tokens_tail (s : jsstring) :
    ~ occurs_token s -> Tokens s []
| Tokens_next (g d c rest : jsstring) (cs : list jsstring) :
    opens_no_token g -> Digits d -> ~ In QUOTE c -> Tokens rest cs ->
    Tokens (g ++ d ++ COLON :: QUOTE :: c ++ QUOTE :: rest) (c :: cs).

(** A control frame: what line 38 tests. *)
Definition control_frame (raw : jsstring) : bool :=
  test_start Api.control_re (trim raw).

(** [s] has an opening brace somewhere before a closing brace. *)
Definition brace_pair (s : jsstring) : Prop :=
  exists a b c, s = a ++ ch "{" :: b ++ ch "}" :: c.

(** ** Direct readings of the patterns, used in the proofs *)

Fixpoint drop_while (p : code_unit -> bool) (s : jsstring) : jsstring :=
  match s with
  | x :: s' => if p x then drop_while p s' else s
  | [] => []
  end.

Fixpoint until_quote (s : jsstring) : option (jsstring * jsstring) :=
  match s with
  | [] => None
  | x :: s' =>
      if x =? QUOTE then Some ([], s')
      else
        match until_quote s' with
        | Some (body, rest) => Some (x :: body, rest)
        | None => None
        end
  end.

(** The token starting exactly here, if any: its content and what follows. *)
Definition token_at (s : jsstring) : option (jsstring * jsstring) :=
  match s with
  | x :: s' =>
      if digit x then
        match drop_while digit s' with
        | a :: b :: body =>
            if (a =? COLON) && (b =? QUOTE) then until_quote body else None
        | _ => None
        end
      else None
  | [] => None
  end.

(** ** Metadata objects *)

Definition metadata_keys : list jsstring :=
  [str "toolCallId"; str "toolName"; str "messageId"; str "finishReason"].

(** [raw], trimmed, is a JSON object text that parses to [obj]. *)
Definition bare_object (raw : jsstring) (obj : Json.value) : Prop :=
  startsWith (str "{") (trim raw) = true /\
  endsWith (str "}") (trim raw) = true /\
  Json.parse (trim raw) = Some obj.

(** [obj] has one of the four fields. *)
Definition has_metadata_field (obj : Json.value) : Prop :=
  exists key, In key metadata_keys /\ Json.get key obj <> None.

(** ** Streams *)

(** The text of a whole response: what the decoder makes of its bytes. *)
Definition decoded (cs : list TextDecoder.bytes) : jsstring :=
  snd (TextDecoder.decode TextDecoder.initial (concat cs)).

(** The complete lines of a text: the pieces ended by a line feed. *)
Definition complete_lines (t : jsstring) : list jsstring :=
  removelast (split LF t).

(** [pre] ends where a line starts. *)
Definition line_start (pre : jsstring) : Prop :=
  pre = [] \/ exists p, pre = p ++ [LF].

Definition DONE_LINE : jsstring := str "data: [DONE]".

(** What the end of the stream adds when the loop was not left by
    [return]. *)
Definition at_end (fin : Api.stream_end) : list Api.event :=
  match fin with
  | Api.EndOfStream => [Api.OnComplete]
  | Api.ReadRejects e => Api.catch e
  end.

(** The run over the complete lines of a text [t], closed by [fin]. *)
Definition stream_events (t : jsstring) (fin : Api.stream_end) : list Api.event :=
  let '(evs, returned) := Api.process_lines (complete_lines t) in
  if returned then evs else evs ++ at_end fin.

(** Everything but the calls of [reader.read()]. *)
Definition visible (evs : list Api.event) : list Api.event :=
  filter (fun e => match e with Api.Read => false | _ => true end) evs.

Definition exit_of (fin : Api.stream_end) : Api.loop_exit :=
  match fin with
  | Api.EndOfStream => Api.Break
  | Api.ReadRejects e => Api.Throws e
  end.

Definition bytes_of (s : string) : TextDecoder.bytes := list_byte_of_string s.

(** The events of one pass through the body of the [for] loop. *)
Definition result_events (r : Api.line_result) : list Api.event :=
  match r with
  | Api.Continue evs => evs
  | Api.Return evs => evs
  end.


(** ** What a pattern can match *)

(** [Matches r s s']: the pattern [r] matches a prefix of [s] and leaves
    [s'], under some choice at every quantifier and alternation. *)
Inductive Matches : regex -> jsstring -> jsstring -> Prop :=
| M_eps (s : jsstring) : Matches Eps s s
| M_cls (p : code_unit -> bool) (x : code_unit) (s : jsstring) :
    p x = true -> Matches (Cls p) (x :: s) s
| M_cat (a b : regex) (s s1 s2 : jsstring) :
    Matches a s s1 -> Matches b s1 s2 -> Matches (Cat a b) s s2
| M_alt_left (a b : regex) (s s' : jsstring) :
    Matches a s s' -> Matches (Alt a b) s s'
| M_alt_right (a b : regex) (s s' : jsstring) :
    Matches b s s' -> Matches (Alt a b) s s'
| M_star_stop (p : code_unit -> bool) (s : jsstring) : Matches (Star p) s s
| M_star_more (p : code_unit -> bool) (x : code_unit) (s s' : jsstring) :
    p x = true -> Matches (Star p) s s' -> Matches (Star p) (x :: s) s'
| M_lazy_stop (p : code_unit -> bool) (s : jsstring) : Matches (LazyStar p) s s
| M_lazy_more (p : code_unit -> bool) (x : code_unit) (s s' : jsstring) :
    p x = true -> Matches (LazyStar p) s s' -> Matches (LazyStar p) (x :: s) s'
| M_group (i : nat) (r : regex) (s s' : jsstring) :
    Matches r s s' -> Matches (Group i r) s s'
| M_end : Matches EndOfInput [] [].

(** ** Renderings *)

Definition MESSAGE : jsstring :=
  str "Mumbai " ++ [EM_DASH] ++ str " Now:" ++ [LF]
  ++ str "- Temperature: 28C" ++ [LF]
  ++ str "- Humidity: 60%" ++ [LF]
  ++ str "Delhi " ++ [EM_DASH] ++ str " Tomorrow:" ++ [LF]
  ++ str "- Temperature: 32C".

(** A separator of a title line. *)
Definition separator (c : code_unit) : bool := ChatUI.dash c || (c =? COLON).

Definition same_form (d d' : ChatUI.document) : bool :=
  match d, d' with
  | ChatUI.Cards _, ChatUI.Cards _ => true
  | ChatUI.Flat _, ChatUI.Flat _ => true
  | _, _ => false
  end.

(** [/\r/g] replaced by nothing. *)
Definition strip_cr (s : jsstring) : jsstring :=
  filter (fun c => negb (c =? CR)) s.

(** All but the last [n] elements. *)
Definition but_last {A : Type} (n : nat) (l : list A) : list A :=
  firstn (length l - n) l.

(** The lines of a message once carriage returns are gone, before runs
    of blank lines are collapsed. *)
Definition plain_lines (s : jsstring) : list jsstring := split LF (strip_cr s).

(** [consumes r]: by its shape, [r] matches at least one unit. *)
Fixpoint consumes (r : regex) : bool :=
  match r with
  | Cls _ => true
  | Cat a b => consumes a || consumes b
  | Alt a b => consumes a && consumes b
  | Group _ a => consumes a
  | Eps | Star _ | LazyStar _ | EndOfInput => false
  end.

(* ================================================================== *)
(** * Vocabulary of the further properties *)
(* ================================================================== *)

(** [trimmed] is a run of digits and a colon, then anything. *)
Definition index_prefixed (trimmed : jsstring) : Prop :=
  exists d rest, Digits d /\ trimmed = d ++ COLON :: rest.

(** [raw] is a metadata object for line 54-57: braces at both ends of
    the start-trimmed input, a JSON value, a truthy field among the four. *)
Definition metadata_object (raw : jsstring) : Prop :=
  exists obj,
    startsWith (str "{") (trimStart raw) = true /\
    endsWith (str "}") (trimStart raw) = true /\
    Json.parse (trimStart raw) = Some obj /\ Api.metadata obj = true.

(** The last thing an operation does: [onComplete] or [onError]. *)
Definition terminal (e : Api.event) : bool :=
  match e with
  | Api.OnComplete | Api.OnError _ => true
  | _ => false
  end.

(** The fragment, if any, that one line gives. *)
Definition line_fragment (line : jsstring) : list jsstring :=
  Api.fragments (result_events (Api.process_line line)).

(** A backslash directly before the letter n somewhere in [s]. *)
Fixpoint escaped_newline_in (s : jsstring) : bool :=
  match s with
  | [] => false
  | a :: t =>
      match t with
      | b :: _ => (a =? BACKSLASH) && (b =? ch "n")
      | [] => false
      end || escaped_newline_in t
  end.

(** What happens to the hook: a [send] with a new controller, a
    [cancel], or a callback of some operation it started. *)
Inductive action : Type :=
| Send (controller : nat)
| Cancel
| Callback (ev : Api.event).

Definition act (offline : bool) (h : Hook.state) (a : action) : Hook.state :=
  match a with
  | Send c => Hook.send_begin c h
  | Cancel => Hook.cancel h
  | Callback ev => Hook.deliver offline h ev
  end.

Definition acts (offline : bool) (h : Hook.state) (l : list action) : Hook.state :=
  fold_left (act offline) l h.

(** The controller [c] is the current one or has been aborted. *)
Definition settled (h : Hook.state) (c : nat) : Prop :=
  Hook.abortRef h = Some c \/ In c (Hook.aborted h).

(** A line that opens a section: what line 74-76 ask of it. *)
Definition is_title_line (raw : jsstring) : bool :=
  nonempty (trim raw) &&
  match match_here ChatUI.titleRe (trim raw) with
  | Some _ => true
  | None => false
  end.

(** The items a flat rendering shows: list items count one by one. *)
Definition flat_size (es : list ChatUI.element) : nat :=
  fold_right (fun e n =>
                match e with
                | ChatUI.UL items => (length items + n)%nat
                | _ => S n
                end) O es.

Definition is_blank (raw : jsstring) : bool := negb (nonempty (trim raw)).

Definition STARS : jsstring := str "**".

(** The match relation with the captures threaded through it: a group
    records the text its body consumed, on top of the captures of the
    body. *)
Inductive Binds : regex -> jsstring -> captures -> jsstring -> captures -> Prop :=
| B_eps (s : jsstring) (c : captures) : Binds Eps s c s c
| B_cls (p : code_unit -> bool) (x : code_unit) (s : jsstring) (c : captures) :
    p x = true -> Binds (Cls p) (x :: s) c s c
| B_cat (a b : regex) (s s1 s2 : jsstring) (c c1 c2 : captures) :
    Binds a s c s1 c1 -> Binds b s1 c1 s2 c2 -> Binds (Cat a b) s c s2 c2
| B_alt_left (a b : regex) (s s' : jsstring) (c c' : captures) :
    Binds a s c s' c' -> Binds (Alt a b) s c s' c'
| B_alt_right (a b : regex) (s s' : jsstring) (c c' : captures) :
    Binds b s c s' c' -> Binds (Alt a b) s c s' c'
| B_star (p : code_unit -> bool) (s s' : jsstring) (c : captures) :
    Matches (Star p) s s' -> Binds (Star p) s c s' c
| B_lazy (p : code_unit -> bool) (s s' : jsstring) (c : captures) :
    Matches (LazyStar p) s s' -> Binds (LazyStar p) s c s' c
| B_group (i : nat) (r : regex) (s s' : jsstring) (c c' : captures) :
    Binds r s c s' c' ->
    Binds (Group i r) s c s' ((i, firstn (length s - length s') s) :: c')
| B_end (c : captures) : Binds EndOfInput [] c [] c.

(** A pattern without groups. *)
Fixpoint groupless (r : regex) : bool :=
  match r with
  | Cat a b | Alt a b => groupless a && groupless b
  | Group _ _ => false
  | _ => true
  end.

(** ** The conversation *)

(** The condition of line 35: the input passes the location check. *)
Definition accepted (text : jsstring) : bool :=
  Conversation.hasLocationHint text || Conversation.looksLikeSingleLocation text
  || Conversation.segmentHasLocation text.

(** The text holds two units of the location class side by side. *)
Definition has_location_pair (text : jsstring) : Prop :=
  exists a x y b,
    text = a ++ x :: y :: b /\
    Conversation.location_char x = true /\ Conversation.location_char y = true.

(** ** Callbacks of several operations *)

(** [m] interleaves [l] and [r]: the events of both, each list in its
    own order. *)
Inductive Interleaved {A : Type} : list A -> list A -> list A -> Prop :=
| I_nil : Interleaved [] [] []
| I_left (x : A) (l r m : list A) :
    Interleaved l r m -> Interleaved (x :: l) r (x :: m)
| I_right (x : A) (l r m : list A) :
    Interleaved l r m -> Interleaved l (x :: r) (x :: m).

(** ** The texts of a rendering *)

(** [s] does not start with white space. *)
Definition no_leading_space (s : jsstring) : bool :=
  match s with
  | [] => true
  | y :: _ => negb (is_white_space y)
  end.

Definition span_text (sp : ChatUI.span) : jsstring :=
  match sp with
  | ChatUI.Strong t => t
  | ChatUI.Span t => t
  end.

Definition row_texts (r : ChatUI.row) : list jsstring :=
  match r with
  | ChatUI.Labeled label rest => [label; rest]
  | ChatUI.Plain spans => map span_text spans
  end.

Definition element_texts (e : ChatUI.element) : list jsstring :=
  match e with
  | ChatUI.UL items => map span_text (concat items)
  | ChatUI.H2 text => [text]
  | ChatUI.LetterItem letter rest => letter :: map span_text rest
  | ChatUI.Paragraph spans => map span_text spans
  end.

(** The texts a rendering shows, in display order: headings, labels,
    remainders and the texts of spans. *)
Definition shown (d : ChatUI.document) : list jsstring :=
  match d with
  | ChatUI.Cards cards =>
      flat_map (fun c => ChatUI.heading c :: flat_map row_texts (ChatUI.items c)) cards
  | ChatUI.Flat elements => flat_map element_texts elements
  end.

(* ================================================================== *)
(** * Strings and lists *)
(* ================================================================== *)

Lemma str_eqb_eq (a b : jsstring) : str_eqb a b = true <-> a = b.
Proof.
  revert b; induction a as [|x a IH]; intros [|y b]; simpl; split; intro H;
    try reflexivity; try discriminate.
  - apply andb_true_iff in H as [Hx Hr]. apply N.eqb_eq in Hx.
    apply IH in Hr. now subst.
  - injection H as -> ->. rewrite N.eqb_refl. simpl. now apply IH.
Qed.

Lemma str_eqb_refl (a : jsstring) : str_eqb a a = true.
Proof. now apply str_eqb_eq. Qed.

Lemma nonempty_false (s : jsstring) : nonempty s = false <-> s = [].
Proof. destruct s; simpl; split; intro H; congruence. Qed.

Lemma nonempty_true (s : jsstring) : nonempty s = true <-> s <> [].
Proof. destruct s; simpl; split; intro H; congruence. Qed.

(** ** Trimming *)

Lemma trimStart_keeps_last (l : jsstring) (x : code_unit) :
  is_white_space x = false -> exists u, trimStart (l ++ [x]) = u ++ [x].
Proof.
  intro Hx. induction l as [|y l IH]; simpl.
  - rewrite Hx. now exists [].
  - destruct (is_white_space y).
    + exact IH.
    + now exists (y :: l).
Qed.

Lemma trimEnd_keeps_head (x : code_unit) (t : jsstring) :
  is_white_space x = false -> exists u, trimEnd (x :: t) = x :: u.
Proof.
  intro Hx. unfold trimEnd. simpl.
  destruct (trimStart_keeps_last (rev t) x Hx) as [u Hu].
  rewrite Hu, rev_app_distr. simpl. now exists (rev u).
Qed.

Lemma trimStart_head (s : jsstring) :
  trimStart s = [] \/ exists x t, trimStart s = x :: t /\ is_white_space x = false.
Proof.
  induction s as [|y s IH]; simpl.
  - now left.
  - destruct (is_white_space y) eqn:E.
    + exact IH.
    + right. now exists y, s.
Qed.

(** [trim] and [trimStart] begin with the same unit. *)
Lemma trim_head (raw : jsstring) (x : code_unit) (t : jsstring) :
  trimStart raw = x :: t -> exists u, trim raw = x :: u.
Proof.
  intro H. unfold trim. rewrite H.
  destruct (trimStart_head raw) as [E | (y & t' & E & Hy)]; [congruence|].
  rewrite H in E. injection E as -> ->. now apply trimEnd_keeps_head.
Qed.

(* ================================================================== *)
(** * The patterns of the extractor *)
(* ================================================================== *)

(** A greedy run before a continuation that rejects what the run accepts
    never gives anything back. *)
Lemma greedy_star_skip (p : code_unit -> bool) (k : cont) :
  (forall x s c, p x = true -> k (x :: s) c = None) ->
  forall s c, greedy_star p k s c = k (drop_while p s) c.
Proof.
  intros Hk s c. induction s as [|x s IH]; simpl.
  - reflexivity.
  - destruct (p x) eqn:E.
    + rewrite IH. destruct (k (drop_while p s) c); [reflexivity|].
      now apply Hk.
    + reflexivity.
Qed.

(** A lazy run of anything before a quote stops at the first quote. *)
Lemma lazy_star_first_quote (s0 : jsstring) :
  forall s pre c, s0 = pre ++ s ->
    lazy_star any
      (fun s' c' =>
         match s' with
         | x :: r =>
             if one QUOTE x
             then Some ((1%nat, firstn (length s0 - length s') s0) :: c', r)
             else None
         | [] => None
         end) s c
    = match until_quote s with
      | Some (body, rest) => Some ((1%nat, pre ++ body) :: c, rest)
      | None => None
      end.
Proof.
  induction s as [|x s IH]; intros pre c E.
  - reflexivity.
  - simpl lazy_star. unfold one at 1. simpl until_quote.
    destruct (x =? QUOTE) eqn:Ex.
    + subst s0. rewrite length_app. simpl length.
      replace (length pre + S (length s) - S (length s))%nat with (length pre) by lia.
      rewrite firstn_app, firstn_all, Nat.sub_diag. simpl. now rewrite !app_nil_r.
    + etransitivity; [apply (IH (pre ++ [x]) c)|].
      * subst s0. now rewrite <- app_assoc.
      * destruct (until_quote s) as [[body rest]|]; [|reflexivity].
        now rewrite <- app_assoc.
Qed.

Lemma match_token_re (s : jsstring) :
  match_here Api.token_re s
  = match token_at s with
    | Some (body, rest) => Some ([(1%nat, body)], rest)
    | None => None
    end.
Proof.
  unfold match_here, Api.token_re, Plus, token_at.
  destruct s as [|x s]; [reflexivity|].
  cbn [run]. destruct (digit x) eqn:Ex; [|reflexivity].
  rewrite greedy_star_skip.
  2:{ intros y t c Hy. unfold one. destruct (y =? ch ":") eqn:E; [|reflexivity].
      apply N.eqb_eq in E. subst y. discriminate Hy. }
  destruct (drop_while digit s) as [|a [|b body]]; try reflexivity.
  - unfold one. now destruct (a =? ch ":").
  - unfold one at 1 2. fold COLON. destruct (a =? COLON); [|reflexivity].
    destruct (b =? QUOTE); [|reflexivity]. cbn [andb].
    apply (lazy_star_first_quote body body [] []). reflexivity.
Qed.

(** ** Runs of digits and quoted bodies *)

Lemma drop_while_app_all (p : code_unit -> bool) (d t : jsstring) :
  forallb p d = true -> drop_while p (d ++ t) = drop_while p t.
Proof.
  induction d as [|x d IH]; simpl; intro H; [reflexivity|].
  apply andb_true_iff in H as [Hx Hd]. rewrite Hx. now apply IH.
Qed.

Lemma drop_while_stop (p : code_unit -> bool) (x : code_unit) (t : jsstring) :
  p x = false -> drop_while p (x :: t) = x :: t.
Proof. intro H. simpl. now rewrite H. Qed.

(** A string is a run accepted by [p] followed by what [drop_while]
    leaves, which does not start with a unit accepted by [p]. *)
Lemma drop_while_split (p : code_unit -> bool) (s : jsstring) :
  exists d, forallb p d = true /\ s = d ++ drop_while p s /\
            (drop_while p s = [] \/
             exists y t, drop_while p s = y :: t /\ p y = false).
Proof.
  induction s as [|x s (d & Hd & Hs & Hr)]; simpl.
  - exists []. repeat split. now left.
  - destruct (p x) eqn:E.
    + exists (x :: d). simpl. rewrite E, Hd. repeat split; [now f_equal | exact Hr].
    + exists []. repeat split. right. now exists x, s.
Qed.

Lemma digit_not_colon (x : code_unit) : digit x = true -> x <> COLON.
Proof. intros H ->. discriminate H. Qed.

Lemma digit_not_quote (x : code_unit) : digit x = true -> x <> QUOTE.
Proof. intros H ->. discriminate H. Qed.

Lemma until_quote_app (c rest : jsstring) :
  ~ In QUOTE c -> until_quote (c ++ QUOTE :: rest) = Some (c, rest).
Proof.
  induction c as [|x c IH]; simpl; intro H.
  - reflexivity.
  - destruct (x =? QUOTE) eqn:E.
    + apply N.eqb_eq in E. exfalso. apply H. now left.
    + rewrite IH; [reflexivity|]. intro Hin. apply H. now right.
Qed.

Lemma until_quote_some (s c rest : jsstring) :
  until_quote s = Some (c, rest) -> s = c ++ QUOTE :: rest /\ ~ In QUOTE c.
Proof.
  revert c rest. induction s as [|x s IH]; simpl; intros c rest H; [discriminate|].
  destruct (x =? QUOTE) eqn:E.
  - apply N.eqb_eq in E. injection H as <- <-. subst x. now split.
  - destruct (until_quote s) as [[body r]|]; [|discriminate].
    injection H as <- <-. destruct (IH body r eq_refl) as [-> Hn]. split; [reflexivity|].
    intros [Hx | Hin]; [|now apply Hn].
    subst x. now rewrite N.eqb_refl in E.
Qed.

(** A quote further on closes the body. *)
Lemma until_quote_later (b c : jsstring) :
  exists body rest, until_quote (b ++ QUOTE :: c) = Some (body, rest).
Proof.
  induction b as [|x b (body & rest & IH)]; simpl.
  - now exists [], c.
  - destruct (x =? QUOTE).
    + now exists [], (b ++ QUOTE :: c).
    + rewrite IH. now exists (x :: body), rest.
Qed.

(** ** The token starting at the head *)

Lemma token_at_intro (d c rest : jsstring) :
  Digits d -> ~ In QUOTE c ->
  token_at (d ++ COLON :: QUOTE :: c ++ QUOTE :: rest) = Some (c, rest).
Proof.
  intros [Hne Hd] Hc. destruct d as [|x d]; [contradiction|].
  simpl in Hd. apply andb_true_iff in Hd as [Hx Hd].
  simpl. rewrite Hx, drop_while_app_all by exact Hd.
  rewrite drop_while_stop by reflexivity.
  rewrite !N.eqb_refl. simpl. now apply until_quote_app.
Qed.

Lemma token_at_elim (s c rest : jsstring) :
  token_at s = Some (c, rest) ->
  exists d, Digits d /\ ~ In QUOTE c /\ s = d ++ COLON :: QUOTE :: c ++ QUOTE :: rest.
Proof.
  unfold token_at. destruct s as [|x s]; [discriminate|].
  destruct (digit x) eqn:Ex; [|discriminate].
  destruct (drop_while_split digit s) as (d & Hd & Hs & _).
  destruct (drop_while digit s) as [|a [|b body]]; try discriminate.
  destruct (a =? COLON) eqn:Ea; [|discriminate].
  destruct (b =? QUOTE) eqn:Eb; [|discriminate]. simpl.
  apply N.eqb_eq in Ea, Eb. subst a b. intro H.
  apply until_quote_some in H as [-> Hc].
  exists (x :: d). repeat split.
  - discriminate.
  - simpl. now rewrite Ex, Hd.
  - exact Hc.
  - simpl. now rewrite Hs at 1.
Qed.

Lemma token_at_shorter (s c rest : jsstring) :
  token_at s = Some (c, rest) -> (length rest < length s)%nat.
Proof.
  intro H. apply token_at_elim in H as (d & _ & _ & ->).
  rewrite !length_app. simpl. rewrite length_app. simpl. lia.
Qed.

(** An occurrence that starts at the head is a token there. *)
Lemma token_at_head_occurrence (x : code_unit) (b c : jsstring) :
  digit x = true ->
  exists body rest, token_at (x :: COLON :: QUOTE :: b ++ QUOTE :: c) = Some (body, rest).
Proof.
  intro Hx. unfold token_at. rewrite Hx.
  rewrite drop_while_stop by reflexivity. rewrite !N.eqb_refl. simpl.
  apply until_quote_later.
Qed.

Lemma token_at_occurs (s c rest : jsstring) :
  token_at s = Some (c, rest) -> occurs_token s.
Proof.
  intro H. apply token_at_elim in H as (d & [Hne Hd] & _ & ->).
  destruct (exists_last Hne) as (d' & l & ->).
  rewrite forallb_app in Hd. apply andb_true_iff in Hd as [_ Hl].
  simpl in Hl. rewrite andb_true_r in Hl.
  exists d', l, c, rest. split; [exact Hl|]. now rewrite <- app_assoc.
Qed.

Lemma occurs_token_cons (x : code_unit) (s : jsstring) :
  occurs_token s -> occurs_token (x :: s).
Proof.
  intros (a & d & b & c & Hd & ->). now exists (x :: a), d, b, c.
Qed.

Lemma occurs_token_app (g s : jsstring) :
  occurs_token s -> occurs_token (g ++ s).
Proof. induction g; simpl; auto using occurs_token_cons. Qed.

(** ** The [exec] loop over the token pattern *)

Lemma exec_token_fuel (n m : nat) :
  forall s, (length s < n)%nat -> (length s < m)%nat ->
    exec_all_fuel n Api.token_re s = exec_all_fuel m Api.token_re s.
Proof.
  revert m. induction n as [|n IH]; intros m s Hn Hm; [lia|].
  destruct m as [|m]; [lia|]. cbn [exec_all_fuel].
  destruct s as [|x s]; [reflexivity|].
  rewrite match_token_re.
  destruct (token_at (x :: s)) as [[c rest]|] eqn:E.
  - apply token_at_shorter in E. cbn [length capture Nat.eqb] in *.
    f_equal. apply IH; lia.
  - cbn [length] in *. apply IH; lia.
Qed.

Lemma exec_token_step (x : code_unit) (s : jsstring) :
  exec_all Api.token_re (x :: s)
  = match token_at (x :: s) with
    | Some (c, rest) => c :: exec_all Api.token_re rest
    | None => exec_all Api.token_re s
    end.
Proof.
  unfold exec_all at 1. remember (length (x :: s)) as n eqn:En.
  cbn [exec_all_fuel]. rewrite match_token_re. cbn [length] in En.
  destruct (token_at (x :: s)) as [[c rest]|] eqn:E.
  - apply token_at_shorter in E. cbn [length capture Nat.eqb] in *. f_equal.
    unfold exec_all. apply exec_token_fuel; lia.
  - unfold exec_all. apply exec_token_fuel; lia.
Qed.

Lemma exec_token_none (s : jsstring) :
  ~ occurs_token s -> exec_all Api.token_re s = [].
Proof.
  induction s as [|x s IH]; intro H; [reflexivity|].
  rewrite exec_token_step.
  destruct (token_at (x :: s)) as [[c rest]|] eqn:E.
  - exfalso. apply H. eapply token_at_occurs; eauto.
  - apply IH. intro Ho. apply H. now apply occurs_token_cons.
Qed.

Lemma drop_while_first_reject (p : code_unit -> bool) (g : jsstring) :
  forallb p g = false ->
  exists dg y r, forallb p dg = true /\ p y = false /\ g = dg ++ y :: r /\
                 forall u, drop_while p (g ++ u) = y :: r ++ u.
Proof.
  induction g as [|x g IH]; simpl; intro H; [discriminate|].
  destruct (p x) eqn:E.
  - simpl in H. destruct (IH H) as (dg & y & r & Hdg & Hy & -> & Hu).
    exists (x :: dg), y, r. simpl. rewrite E, Hdg. repeat split; auto.
  - exists [], x, g. repeat split; auto.
Qed.

Lemma opens_no_token_tail (x : code_unit) (g : jsstring) :
  opens_no_token (x :: g) -> opens_no_token g.
Proof. intros H a d b ->. now apply (H (x :: a) d b). Qed.

(** Inside a gap that is not a run of digits no token starts, whatever
    token follows the gap. *)
Lemma gap_head_none (x : code_unit) (g d t : jsstring) :
  opens_no_token (x :: g) -> Digits d -> forallb digit (x :: g) = false ->
  token_at (x :: g ++ d ++ COLON :: t) = None.
Proof.
  intros Hg [Hne Hd] Hx. unfold token_at.
  destruct (digit x) eqn:Ex; [|reflexivity].
  simpl in Hx. rewrite Ex in Hx. simpl in Hx.
  destruct (drop_while_first_reject digit g Hx) as (dg & y & r & Hdg & Hy & -> & Hu).
  rewrite Hu. destruct r as [|b r].
  - destruct d as [|z d]; [contradiction|]. simpl.
    simpl in Hd. apply andb_true_iff in Hd as [Hz _].
    destruct (z =? QUOTE) eqn:Ez.
    + apply N.eqb_eq in Ez. now apply digit_not_quote in Hz.
    + now rewrite andb_false_r.
  - simpl. destruct (y =? COLON) eqn:Ey; [|reflexivity].
    destruct (b =? QUOTE) eqn:Eb; [|reflexivity].
    apply N.eqb_eq in Ey, Eb. subst y b. exfalso.
    assert (Hne' : x :: dg <> []) by discriminate.
    destruct (exists_last Hne') as (pre & l & Hl).
    assert (Hall : forallb digit (x :: dg) = true) by (simpl; now rewrite Ex, Hdg).
    rewrite Hl, forallb_app in Hall. apply andb_true_iff in Hall as [_ Hlast].
    simpl in Hlast. rewrite andb_true_r in Hlast.
    specialize (Hg pre l r).
    rewrite Hg in Hlast; [discriminate|].
    change (x :: dg ++ COLON :: QUOTE :: r) with ((x :: dg) ++ COLON :: QUOTE :: r).
    rewrite Hl, <- app_assoc. reflexivity.
Qed.

(** The scan crosses a gap and collects the token behind it. *)
Lemma exec_token_gap (g d c rest : jsstring) :
  opens_no_token g -> Digits d -> ~ In QUOTE c ->
  exec_all Api.token_re (g ++ d ++ COLON :: QUOTE :: c ++ QUOTE :: rest)
  = c :: exec_all Api.token_re rest.
Proof.
  intros Hg Hd Hc. induction g as [|x g IH].
  - simpl. destruct d as [|z d]; [now destruct Hd|].
    change ((z :: d) ++ COLON :: QUOTE :: c ++ QUOTE :: rest)
      with (z :: (d ++ COLON :: QUOTE :: c ++ QUOTE :: rest)).
    rewrite exec_token_step.
    change (z :: (d ++ COLON :: QUOTE :: c ++ QUOTE :: rest))
      with ((z :: d) ++ COLON :: QUOTE :: c ++ QUOTE :: rest).
    now rewrite token_at_intro.
  - change ((x :: g) ++ d ++ COLON :: QUOTE :: c ++ QUOTE :: rest)
      with (x :: (g ++ d ++ COLON :: QUOTE :: c ++ QUOTE :: rest)).
    rewrite exec_token_step.
    destruct (forallb digit (x :: g)) eqn:E.
    + change (x :: (g ++ d ++ COLON :: QUOTE :: c ++ QUOTE :: rest))
        with ((x :: g) ++ d ++ COLON :: QUOTE :: c ++ QUOTE :: rest).
      rewrite app_assoc, token_at_intro; [reflexivity| |exact Hc].
      destruct Hd as [Hne Hd]. split; [discriminate|].
      now rewrite forallb_app, E, Hd.
    + rewrite gap_head_none by assumption.
      apply IH. eapply opens_no_token_tail; eauto.
Qed.

(** The loop finds exactly the tokens of the decomposition. *)
Lemma exec_Tokens (s : jsstring) (cs : list jsstring) :
  Tokens s cs -> exec_all Api.token_re s = cs.
Proof.
  induction 1 as [s H | g d c rest cs Hg Hd Hc _ IH].
  - now apply exec_token_none.
  - rewrite exec_token_gap by assumption. now f_equal.
Qed.

Lemma Tokens_skip (x : code_unit) (s : jsstring) (cs : list jsstring) :
  token_at (x :: s) = None -> Tokens s cs -> Tokens (x :: s) cs.
Proof.
  intros Hx H. destruct H as [s H | g d c rest cs Hg Hd Hc Hr].
  - apply Tokens_tail. intros (a & z & b & c & Hz & E).
    destruct a as [|y a]; simpl in E; injection E as -> E.
    + subst s. destruct (token_at_head_occurrence z b c Hz) as (body & r & Ht).
      congruence.
    + apply H. now exists a, z, b, c.
  - change (x :: g ++ d ++ COLON :: QUOTE :: c ++ QUOTE :: rest)
      with ((x :: g) ++ d ++ COLON :: QUOTE :: c ++ QUOTE :: rest).
    apply Tokens_next; try assumption.
    intros a z b E. destruct a as [|y a]; simpl in E; injection E as -> E.
    + destruct (digit z) eqn:Hz; [|reflexivity]. exfalso. subst g.
      cbn [app] in Hx.
      assert (Ho : exists body r,
                 token_at (z :: COLON :: QUOTE
                             :: (b ++ d ++ [COLON; QUOTE] ++ c) ++ QUOTE :: rest)
                 = Some (body, r))
        by now apply token_at_head_occurrence.
      destruct Ho as (body & r & Ho).
      rewrite <- !app_assoc in Ho. cbn [app] in Ho. congruence.
    + now apply (Hg a z b).
Qed.

(** Every string has a decomposition: the one the loop finds. *)
Lemma Tokens_exec_all (s : jsstring) : Tokens s (exec_all Api.token_re s).
Proof.
  assert (H : forall n s, (length s < n)%nat -> Tokens s (exec_all Api.token_re s)).
  { clear s. induction n as [|n IH]; intros s Hn; [lia|].
    destruct s as [|x s].
    - apply Tokens_tail. intros (a & d & b & c & _ & E). now destruct a.
    - rewrite exec_token_step.
      destruct (token_at (x :: s)) as [[c rest]|] eqn:E.
      + pose proof (token_at_shorter _ _ _ E) as Hlen.
        apply token_at_elim in E as (d & Hd & Hc & ->).
        apply (Tokens_next [] d c rest); try assumption.
        * intros a z b Ea. now destruct a.
        * apply IH. simpl in *. lia.
      + apply Tokens_skip; [exact E|]. apply IH. simpl in Hn. lia. }
  apply (H (S (length s))). lia.
Qed.

Lemma occurs_token_exec (s : jsstring) :
  occurs_token s -> exec_all Api.token_re s <> [].
Proof.
  intros Ho E. pose proof (Tokens_exec_all s) as H. rewrite E in H.
  inversion H; subst. contradiction.
Qed.

(** The contents are determined by the string. *)
Lemma Tokens_functional (s : jsstring) (cs cs' : list jsstring) :
  Tokens s cs -> Tokens s cs' -> cs = cs'.
Proof.
  intros H H'. apply exec_Tokens in H, H'. congruence.
Qed.

(** ** The guards of the extractor *)

Lemma digit_not_control (x : code_unit) : digit x = true -> Api.faed x = false.
Proof.
  intro H. unfold Api.faed.
  repeat match goal with
         | |- context [x =? ?k] =>
             let E := fresh "E" in
             destruct (x =? k) eqn:E;
             [apply N.eqb_eq in E; subst x; discriminate H|]
         end.
  reflexivity.
Qed.

Lemma control_frame_head (raw : jsstring) (x : code_unit) (t : jsstring) :
  trimStart raw = x :: t -> Api.faed x = false -> control_frame raw = false.
Proof.
  intros H Hx. destruct (trim_head raw x t H) as [u Hu].
  unfold control_frame, test_start, match_here, Api.control_re.
  rewrite Hu. cbn [run]. now rewrite Hx.
Qed.

Lemma match_index_re (d rest : jsstring) :
  Digits d -> match_here Api.index_re (d ++ COLON :: rest) = Some ([], rest).
Proof.
  intros [Hne Hd]. destruct d as [|x d]; [contradiction|].
  simpl in Hd. apply andb_true_iff in Hd as [Hx Hd].
  unfold match_here, Api.index_re, Plus. cbn [run app]. rewrite Hx.
  rewrite greedy_star_skip.
  - rewrite drop_while_app_all by exact Hd. reflexivity.
  - intros y t c Hy. unfold one. destruct (y =? ch ":") eqn:E; [|reflexivity].
    apply N.eqb_eq in E. subst y. discriminate Hy.
Qed.

Lemma match_index_re_none (x : code_unit) (t : jsstring) :
  digit x = false -> match_here Api.index_re (x :: t) = None.
Proof.
  intro H. unfold match_here, Api.index_re, Plus. cbn [run]. now rewrite H.
Qed.

Lemma indexOf_some (c : code_unit) (s : jsstring) (i : nat) :
  indexOf c s = Some i -> exists a b, s = a ++ c :: b /\ length a = i.
Proof.
  revert i. induction s as [|x s IH]; simpl; intros i H; [discriminate|].
  destruct (x =? c) eqn:E.
  - apply N.eqb_eq in E. injection H as <-. subst x. now exists [], s.
  - destruct (indexOf c s) as [j|]; [|discriminate]. injection H as <-.
    destruct (IH j eq_refl) as (a & b & -> & Ha).
    exists (x :: a), b. simpl. now rewrite Ha.
Qed.

Lemma lastIndexOf_some (c : code_unit) (s : jsstring) (i : nat) :
  lastIndexOf c s = Some i -> exists a b, s = a ++ c :: b /\ length a = i.
Proof.
  revert i. induction s as [|x s IH]; simpl; intros i H; [discriminate|].
  destruct (lastIndexOf c s) as [j|].
  - injection H as <-. destruct (IH j eq_refl) as (a & b & -> & Ha).
    exists (x :: a), b. simpl. now rewrite Ha.
  - destruct (x =? c) eqn:E; [|discriminate].
    apply N.eqb_eq in E. injection H as <-. subst x. now exists [], s.
Qed.

Lemma app_cons_later {A : Type} (a1 a2 b1 b2 : list A) (x y : A) :
  a1 ++ x :: b1 = a2 ++ y :: b2 -> (length a1 < length a2)%nat ->
  exists m, b1 = m ++ y :: b2.
Proof.
  revert a2. induction a1 as [|z a1 IH]; intros [|w a2] E Hlen; simpl in *; try lia.
  - injection E as _ ->. now exists a2.
  - injection E as _ E. apply (IH a2 E). lia.
Qed.

Lemma startsWith_one (c : code_unit) (s : jsstring) :
  startsWith [c] s = true -> exists t, s = c :: t.
Proof.
  destruct s as [|x s]; simpl; [discriminate|].
  rewrite andb_true_r. intro H. apply N.eqb_eq in H. subst x. now exists s.
Qed.

(* ================================================================== *)
(** * The Token-Stream Extractor *)
(* ================================================================== *)

(** X24.  What the extractor does with numbered, quoted tokens: every
    input that holds one or more of them and is not a control frame has
    a decomposition, from left to right, into gaps and tokens
    [digits : quote text quote], where the text of a token is what stands
    between its opening quote and the next quote unit, also when a
    backslash stands before that quote; for each such decomposition the
    extractor returns the concatenation of the texts in their order.  The
    digit runs of the tokens do not occur in the result, so it does not
    depend on them. *)
Theorem extract_concatenates_tokens (raw : jsstring) :
  occurs_token raw -> control_frame raw = false ->
  (exists cs, Tokens raw cs) /\
  (forall cs, Tokens raw cs ->
     cs <> [] /\ Api.extractTextFromTokenStream raw = concat cs).
Proof.
  intros Ho Hc. split.
  - exists (exec_all Api.token_re raw). apply Tokens_exec_all.
  - intros cs Hcs. pose proof (exec_Tokens _ _ Hcs) as E.
    pose proof (occurs_token_exec _ Ho) as Hne. rewrite E in Hne.
    split; [exact Hne|].
    unfold Api.extractTextFromTokenStream. fold (control_frame raw).
    rewrite Hc, E. destruct cs; [contradiction|reflexivity].
Qed.

Lemma extract_concatenates_tokens_witness :
  let raw := str "0:" ++ [QUOTE] ++ str "Mumbai" ++ [QUOTE]
             ++ str " 12:" ++ [QUOTE] ++ str " Now" ++ [QUOTE] in
  occurs_token raw /\ control_frame raw = false /\
  Api.extractTextFromTokenStream raw = str "Mumbai Now".
Proof.
  intro raw.
  assert (Ho : occurs_token raw).
  { exists [], (ch "0"), (str "Mumbai"),
      (str " 12:" ++ [QUOTE] ++ str " Now" ++ [QUOTE]).
    split; reflexivity. }
  assert (Hc : control_frame raw = false) by reflexivity.
  split; [exact Ho|]. split; [exact Hc|].
  destruct (extract_concatenates_tokens raw Ho Hc) as [_ H].
  destruct (H [str "Mumbai"; str " Now"]) as [_ E].
  - apply (Tokens_next [] (str "0") (str "Mumbai")
             (str " 12:" ++ [QUOTE] ++ str " Now" ++ [QUOTE]) [str " Now"]).
    + intros a d b Ea. now destruct a.
    + split; [discriminate|reflexivity].
    + simpl. intuition discriminate.
    + apply (Tokens_next (str " ") (str "12") (str " Now") [] []).
      * intros a d b Ea. destruct a as [|? [|? ?]]; discriminate.
      * split; [discriminate|reflexivity].
      * simpl. intuition discriminate.
      * apply Tokens_tail. intros (a & d & b & c & _ & Ea). now destruct a.
  - exact E.
Defined.

(** C2, a defect of the code.  The input is the token [0:] followed by
    a quoted string in which the word hi stands between two escaped
    quotes, each a backslash and a quote: He said, escaped quote, hi,
    escaped quote, to me.  The extractor returns He said and the first
    backslash: the token ends at the quote of the first escaped pair and
    the rest of the string is dropped.  The result is neither the
    content of the quoted string as it is written nor that content with
    its escapes decoded. *)
Theorem extract_cuts_at_escaped_quote :
  let content := str "He said " ++ [BACKSLASH; QUOTE] ++ str "hi"
                 ++ [BACKSLASH; QUOTE] ++ str " to me" in
  let decoded_content := str "He said " ++ [QUOTE] ++ str "hi" ++ [QUOTE] ++ str " to me" in
  let raw := str "0:" ++ [QUOTE] ++ content ++ [QUOTE] in
  occurs_token raw /\ control_frame raw = false /\
  Api.extractTextFromTokenStream raw = str "He said " ++ [BACKSLASH] /\
  Api.extractTextFromTokenStream raw <> content /\
  Api.extractTextFromTokenStream raw <> decoded_content.
Proof.
  intros content decoded_content raw.
  assert (E : Api.extractTextFromTokenStream raw = str "He said " ++ [BACKSLASH])
    by (vm_compute; reflexivity).
  split.
  { exists [], (ch "0"), (str "He said " ++ [BACKSLASH]),
      (str "hi" ++ [BACKSLASH; QUOTE] ++ str " to me" ++ [QUOTE]).
    split; reflexivity. }
  split; [reflexivity|]. split; [exact E|].
  rewrite E. split; discriminate.
Qed.

(** The content of a token ends at the first quote after the opening
    one, also when a backslash stands before that quote. *)
Example extract_stops_at_escaped_quote :
  Api.extractTextFromTokenStream
    (str "0:" ++ [QUOTE] ++ str "say " ++ [BACKSLASH; QUOTE] ++ str "hi"
     ++ [BACKSLASH; QUOTE; QUOTE])
  = str "say " ++ [BACKSLASH].
Proof. vm_compute. reflexivity. Qed.

(** C9.  An input that starts, after leading white space, with digits
    and a colon, and that holds no numbered quoted token and, after that
    prefix, no opening brace followed by a closing brace, is swallowed:
    the extractor returns the empty string. *)
Theorem extract_swallows_indexed_text (raw d rest : jsstring) :
  trimStart raw = d ++ COLON :: rest -> Digits d ->
  ~ occurs_token raw -> ~ brace_pair rest ->
  Api.extractTextFromTokenStream raw = [].
Proof.
  intros Ht Hd Ho Hb.
  unfold Api.extractTextFromTokenStream. fold (control_frame raw).
  assert (Hc : control_frame raw = false).
  { destruct Hd as [Hne Hall]. destruct d as [|x d']; [contradiction|].
    simpl in Hall. apply andb_true_iff in Hall as [Hx _].
    apply (control_frame_head raw x (d' ++ COLON :: rest) Ht).
    now apply digit_not_control. }
  rewrite Hc, exec_token_none by exact Ho.
  cbn [length]. change (0 <? 0)%nat with false. cbv iota.
  unfold test_start, strip_start. rewrite Ht, match_index_re by exact Hd.
  destruct (indexOf (ch "{") rest) as [i|] eqn:Ei; [|reflexivity].
  destruct (lastIndexOf (ch "}") rest) as [j|] eqn:Ej; [|reflexivity].
  destruct (i <? j)%nat eqn:Eij; [|reflexivity].
  exfalso. apply Hb. apply Nat.ltb_lt in Eij.
  apply indexOf_some in Ei as (a1 & b1 & E1 & L1).
  apply lastIndexOf_some in Ej as (a2 & b2 & E2 & L2).
  assert (E : a1 ++ ch "{" :: b1 = a2 ++ ch "}" :: b2) by congruence.
  destruct (app_cons_later _ _ _ _ _ _ E) as [m Hm]; [lia|].
  exists a1, m, b2. now rewrite E1, Hm.
Qed.

Lemma extract_swallows_indexed_text_witness :
  let raw := str "  3:2 odds" in
  trimStart raw = str "3" ++ COLON :: str "2 odds" /\
  Api.extractTextFromTokenStream raw = [].
Proof.
  intro raw. split; [reflexivity|].
  apply (extract_swallows_indexed_text raw (str "3") (str "2 odds")).
  - reflexivity.
  - split; [discriminate|reflexivity].
  - intros (a & d & b & c & _ & E).
    assert (H : In QUOTE raw) by (rewrite E; apply in_or_app; right; simpl; auto).
    simpl in H. intuition discriminate.
  - intros (a & b & c & E).
    assert (H : In (ch "{") (str "2 odds"))
      by (rewrite E; apply in_or_app; right; simpl; auto).
    simpl in H. intuition discriminate.
Defined.

(** C8, as stated, fails, in three ways.  A field whose value is falsy
    does not make the object metadata: the object with the one field
    [finishReason] set to [null] is returned unchanged.  White space
    after the closing brace (here a carriage return) keeps the object
    from being looked at.  And a numbered quoted token inside the object
    is extracted before the object is looked at. *)
Lemma extract_metadata_counterexample :
  let falsy := str "{" ++ [QUOTE] ++ str "finishReason" ++ [QUOTE] ++ str ":null}" in
  let spaced := str "{" ++ [QUOTE] ++ str "toolName" ++ [QUOTE] ++ str ":"
                ++ [QUOTE] ++ str "weather" ++ [QUOTE] ++ str "}" ++ [CR] in
  let inner := str "{" ++ [QUOTE] ++ str "messageId" ++ [QUOTE] ++ str ":"
               ++ [QUOTE] ++ str "m1:" ++ [QUOTE] ++ str ","
               ++ [QUOTE] ++ str "role" ++ [QUOTE] ++ str ":"
               ++ [QUOTE] ++ str "assistant" ++ [QUOTE] ++ str "}" in
  (bare_object falsy (Json.JObject [(str "finishReason", Json.JNull)]) /\
   has_metadata_field (Json.JObject [(str "finishReason", Json.JNull)]) /\
   Api.extractTextFromTokenStream falsy = falsy /\ falsy <> []) /\
  (bare_object spaced (Json.JObject [(str "toolName", Json.JString (str "weather"))]) /\
   has_metadata_field (Json.JObject [(str "toolName", Json.JString (str "weather"))]) /\
   Api.extractTextFromTokenStream spaced = spaced /\ spaced <> []) /\
  (bare_object inner (Json.JObject [(str "messageId", Json.JString (str "m1:"));
                                    (str "role", Json.JString (str "assistant"))]) /\
   has_metadata_field (Json.JObject [(str "messageId", Json.JString (str "m1:"));
                                     (str "role", Json.JString (str "assistant"))]) /\
   Api.extractTextFromTokenStream inner = str "," /\ str "," <> []).
Proof.
  intros falsy spaced inner.
  assert (Hf : has_metadata_field (Json.JObject [(str "finishReason", Json.JNull)])).
  { exists (str "finishReason"). split; [simpl; tauto|]. vm_compute. discriminate. }
  assert (Hs : has_metadata_field
                 (Json.JObject [(str "toolName", Json.JString (str "weather"))])).
  { exists (str "toolName"). split; [simpl; tauto|]. vm_compute. discriminate. }
  assert (Hi : has_metadata_field
                 (Json.JObject [(str "messageId", Json.JString (str "m1:"));
                                (str "role", Json.JString (str "assistant"))])).
  { exists (str "messageId"). split; [simpl; tauto|]. vm_compute. discriminate. }
  split; [|split].
  - split; [repeat split; vm_compute; reflexivity|]. split; [exact Hf|].
    split; [vm_compute; reflexivity | discriminate].
  - split; [repeat split; vm_compute; reflexivity|]. split; [exact Hs|].
    split; [vm_compute; reflexivity | discriminate].
  - split; [repeat split; vm_compute; reflexivity|]. split; [exact Hi|].
    split; [vm_compute; reflexivity | discriminate].
Qed.

(** C8, amended.  When the input starts, after leading white space, with
    an opening brace and ends with a closing brace, holds no numbered
    quoted token, and parses as JSON to an object one of whose properties
    [toolCallId], [toolName], [messageId], [finishReason] is truthy, the
    extractor returns the empty string. *)
Theorem extract_drops_metadata (raw : jsstring) (obj : Json.value) :
  startsWith (str "{") (trimStart raw) = true ->
  endsWith (str "}") (trimStart raw) = true ->
  ~ occurs_token raw ->
  Json.parse (trimStart raw) = Some obj ->
  (exists key, In key metadata_keys /\ Json.truthy (Json.get key obj) = true) ->
  Api.extractTextFromTokenStream raw = [].
Proof.
  intros Hs He Ho Hp (key & Hk & Ht).
  destruct (startsWith_one _ _ Hs) as [t Et].
  unfold Api.extractTextFromTokenStream. fold (control_frame raw).
  rewrite (control_frame_head raw _ t Et) by reflexivity.
  rewrite exec_token_none by exact Ho.
  cbn [length]. change (0 <? 0)%nat with false. cbv iota.
  unfold test_start at 1. rewrite Et, match_index_re_none by reflexivity.
  rewrite <- Et, Hs, He, Hp. cbn [andb].
  assert (Hm : Api.metadata obj = true).
  { unfold Api.metadata. simpl in Hk.
    destruct Hk as [<- | [<- | [<- | [<- | []]]]]; rewrite Ht;
      rewrite ?orb_true_r; reflexivity. }
  now rewrite Hm.
Qed.

Lemma extract_drops_metadata_witness :
  let raw := str " {" ++ [QUOTE] ++ str "toolName" ++ [QUOTE] ++ str ": "
             ++ [QUOTE] ++ str "weatherTool" ++ [QUOTE] ++ str ", "
             ++ [QUOTE] ++ str "n" ++ [QUOTE] ++ str ": 0.0}" in
  Json.parse (trimStart raw)
  = Some (Json.JObject [(str "toolName", Json.JString (str "weatherTool"));
                        (str "n", Json.JNumber false 0 (-1))]) /\
  Api.extractTextFromTokenStream raw = [].
Proof.
  intro raw. split; [vm_compute; reflexivity|].
  apply (extract_drops_metadata raw
           (Json.JObject [(str "toolName", Json.JString (str "weatherTool"));
                          (str "n", Json.JNumber false 0 (-1))])).
  - reflexivity.
  - reflexivity.
  - intros (a & d & b & c & Hd & E).
    assert (H : exists a b, raw = a ++ d :: COLON :: QUOTE :: b)
      by (exists a, (b ++ QUOTE :: c); exact E).
    clear E. destruct H as (a' & b' & E). revert E. unfold raw. clear raw.
    simpl. intro E.
    repeat (destruct a' as [|? a']; [simpl in E; injection E; intros; subst;
                                    discriminate|]; simpl in E;
            injection E as _ E; try discriminate E).
    destruct a'; discriminate.
  - vm_compute. reflexivity.
  - exists (str "toolName"). split; [simpl; tauto|]. reflexivity.
Defined.

(* ================================================================== *)
(** * The decoder and the line buffer *)
(* ================================================================== *)

(** Decoding is a left-to-right pass over the bytes: cutting the input
    anywhere, also inside a multi-byte sequence, changes nothing. *)
Lemma decode_app (st : TextDecoder.state) (a b : TextDecoder.bytes) :
  TextDecoder.decode st (a ++ b)
  = let '(st1, out1) := TextDecoder.decode st a in
    let '(st2, out2) := TextDecoder.decode st1 b in
    (st2, out1 ++ out2).
Proof.
  revert st. induction a as [|x a IH]; intro st; simpl.
  - now destruct (TextDecoder.decode st b).
  - destruct (TextDecoder.decode_byte st x) as [st1 o1].
    rewrite IH. destruct (TextDecoder.decode st1 a) as [st2 o2].
    destruct (TextDecoder.decode st2 b) as [st3 o3].
    now rewrite app_assoc.
Qed.

Lemma decode_app_text (st : TextDecoder.state) (a b : TextDecoder.bytes) :
  snd (TextDecoder.decode st (a ++ b))
  = snd (TextDecoder.decode st a)
    ++ snd (TextDecoder.decode (fst (TextDecoder.decode st a)) b).
Proof.
  rewrite decode_app. destruct (TextDecoder.decode st a) as [st1 o1]. simpl.
  now destruct (TextDecoder.decode st1 b).
Qed.

Section Split.
Variable sep : code_unit.

Lemma split_acc_nonempty (acc s : jsstring) : split_acc sep acc s <> [].
Proof.
  revert acc. induction s as [|x s IH]; intro acc; simpl; [discriminate|].
  destruct (x =? sep); [discriminate | apply IH].
Qed.

Lemma removelast_cons_nonempty {A : Type} (x : A) (l : list A) :
  l <> [] -> removelast (x :: l) = x :: removelast l.
Proof. destruct l; [contradiction | reflexivity]. Qed.

Lemma last_cons_nonempty {A : Type} (x d : A) (l : list A) :
  l <> [] -> last (x :: l) d = last l d.
Proof. destruct l; [contradiction | reflexivity]. Qed.

(** Splitting a longer text: the complete pieces stay, the last piece
    goes on. *)
Lemma split_acc_app (x y acc : jsstring) :
  split_acc sep acc (x ++ y)
  = removelast (split_acc sep acc x)
    ++ split_acc sep (last (split_acc sep acc x) []) y.
Proof.
  revert acc. induction x as [|c x IH]; intro acc; simpl.
  - reflexivity.
  - destruct (c =? sep).
    + rewrite removelast_cons_nonempty, last_cons_nonempty
        by apply split_acc_nonempty.
      simpl. now rewrite IH.
    + apply IH.
Qed.

Lemma split_acc_last_free (s acc : jsstring) :
  ~ In sep acc -> ~ In sep (last (split_acc sep acc s) []).
Proof.
  revert acc. induction s as [|c s IH]; intros acc H; simpl.
  - exact H.
  - destruct (c =? sep) eqn:E.
    + rewrite last_cons_nonempty by apply split_acc_nonempty.
      apply IH. simpl. tauto.
    + apply IH. intro Hin. apply in_app_or in Hin as [Hin | [-> | []]].
      * now apply H.
      * now rewrite N.eqb_refl in E.
Qed.

Lemma split_acc_free_prefix (b s acc : jsstring) :
  ~ In sep b -> split_acc sep acc (b ++ s) = split_acc sep (acc ++ b) s.
Proof.
  revert acc. induction b as [|c b IH]; intros acc H; simpl.
  - now rewrite app_nil_r.
  - destruct (c =? sep) eqn:E.
    + apply N.eqb_eq in E. exfalso. apply H. now left.
    + rewrite IH by (intro Hin; apply H; now right).
      now rewrite <- app_assoc.
Qed.

Lemma split_free (b : jsstring) : ~ In sep b -> split sep b = [b].
Proof.
  intro H. unfold split.
  pose proof (split_acc_free_prefix b [] [] H) as E.
  rewrite app_nil_r in E. rewrite E. reflexivity.
Qed.

Lemma split_acc_ends_sep (p acc : jsstring) :
  last (split_acc sep acc (p ++ [sep])) [] = [].
Proof.
  revert acc. induction p as [|c p IH]; intro acc; simpl.
  - now rewrite N.eqb_refl.
  - destruct (c =? sep); [|apply IH].
    rewrite last_cons_nonempty by apply split_acc_nonempty. apply IH.
Qed.

(** A text that ends where a line starts, followed by more text. *)
Lemma split_after_sep (p rest : jsstring) :
  split sep ((p ++ [sep]) ++ rest) = removelast (split sep (p ++ [sep])) ++ split sep rest.
Proof.
  unfold split. rewrite split_acc_app. now rewrite split_acc_ends_sep.
Qed.

End Split.

Lemma removelast_app_nonempty {A : Type} (x y : list A) :
  y <> [] -> removelast (x ++ y) = x ++ removelast y.
Proof. intro H. now apply removelast_app. Qed.

(** ** The [for] loop over lines *)

Lemma process_lines_app (x y : list jsstring) :
  Api.process_lines (x ++ y)
  = let '(e1, r1) := Api.process_lines x in
    if r1 then (e1, true)
    else let '(e2, r2) := Api.process_lines y in (e1 ++ e2, r2).
Proof.
  induction x as [|l x IH]; simpl.
  - now destruct (Api.process_lines y).
  - destruct (Api.process_line l) as [evs | evs]; [|reflexivity].
    rewrite IH. destruct (Api.process_lines x) as [e1 [|]]; [reflexivity|].
    destruct (Api.process_lines y) as [e2 r2]. now rewrite app_assoc.
Qed.

Lemma visible_app (a b : list Api.event) : visible (a ++ b) = visible a ++ visible b.
Proof. apply filter_app. Qed.

Lemma emit_visible (arg : jsstring) : visible (Api.emit arg) = Api.emit arg.
Proof. unfold Api.emit. simpl. now destruct (nonempty _). Qed.

Lemma process_line_visible (line : jsstring) :
  visible (result_events (Api.process_line line)) = result_events (Api.process_line line).
Proof.
  unfold Api.process_line.
  destruct (negb (nonempty (trim line))); [reflexivity|].
  destruct (startsWith (str "data: ") line).
  - destruct (str_eqb _ _); [reflexivity|]. apply emit_visible.
  - apply emit_visible.
Qed.

Lemma process_lines_visible (lines : list jsstring) :
  visible (fst (Api.process_lines lines)) = fst (Api.process_lines lines).
Proof.
  induction lines as [|l lines IH]; [reflexivity|].
  cbn [Api.process_lines]. pose proof (process_line_visible l) as Hl.
  destruct (Api.process_line l) as [evs | evs]; cbn [result_events] in Hl.
  - destruct (Api.process_lines lines) as [e r]. cbn [fst] in *.
    now rewrite visible_app, Hl, IH.
  - exact Hl.
Qed.

(** ** The read loop, by the text it has decoded *)

Lemma read_loop_by_text (pending : list TextDecoder.bytes) (fin : Api.stream_end) :
  forall (st : TextDecoder.state) (buffer : jsstring),
    ~ In LF buffer ->
    let t := snd (TextDecoder.decode st (concat pending)) in
    let r := Api.process_lines (removelast (split_acc LF buffer t)) in
    visible (fst (Api.read_loop st buffer pending fin)) = fst r /\
    snd (Api.read_loop st buffer pending fin)
    = (if snd r then Api.Returned else exit_of fin).
Proof.
  induction pending as [|value more IH]; intros st buffer Hb.
  - simpl. destruct fin; simpl; auto.
  - cbn [Api.read_loop concat]. cbv zeta.
    rewrite decode_app_text.
    destruct (TextDecoder.decode st value) as [st1 text] eqn:Ed. cbn [fst snd].
    unfold split. rewrite (split_acc_free_prefix LF buffer text []) by exact Hb.
    cbn [app]. rewrite split_acc_app.
    set (lines := split_acc LF buffer text).
    assert (Hfree : ~ In LF (last lines [])) by now apply split_acc_last_free.
    rewrite removelast_app_nonempty by apply split_acc_nonempty.
    rewrite process_lines_app.
    destruct (IH st1 (last lines []) Hfree) as [IHv IHx].
    cbv zeta in IHv, IHx.
    pose proof (process_lines_visible (removelast lines)) as Hv.
    destruct (Api.process_lines (removelast lines)) as [evs [|]]; cbn [fst snd] in *.
    + split; [|reflexivity]. cbn [visible filter]. exact Hv.
    + destruct (Api.read_loop st1 (last lines []) more fin) as [evs' ex].
      destruct (Api.process_lines
                  (removelast
                     (split_acc LF (last lines [])
                        (snd (TextDecoder.decode st1 (concat more))))))
        as [e2 r2].
      cbn [fst snd] in *. split; [|exact IHx].
      cbn [visible filter]. fold (visible (evs ++ evs')).
      now rewrite visible_app, Hv, IHv.
Qed.

Lemma visible_at_end (fin : Api.stream_end) : visible (at_end fin) = at_end fin.
Proof.
  destruct fin as [|[name message|]]; simpl; try reflexivity.
  unfold Api.catch. now destruct (str_eqb _ _).
Qed.

(** What a response that streams does, apart from reading, is what the
    complete lines of its whole text prescribe. *)
Lemma reader_by_text (cs : list TextDecoder.bytes) (fin : Api.stream_end) :
  visible (Api.sendMessageToWeatherAgent (Api.streaming cs fin))
  = stream_events (decoded cs) fin.
Proof.
  unfold Api.sendMessageToWeatherAgent, Api.streaming. cbn [Api.ok negb Api.body].
  cbn [Api.chunks Api.ending].
  destruct (read_loop_by_text cs fin TextDecoder.initial []) as [Hv Hx]; [easy|].
  cbv zeta in Hv, Hx. unfold stream_events, complete_lines, decoded, split.
  destruct (Api.read_loop TextDecoder.initial [] cs fin) as [evs ex].
  destruct (Api.process_lines _) as [e r]. cbn [fst snd] in *. subst ex.
  destruct r.
  - exact Hv.
  - destruct fin as [|reason]; cbn [exit_of at_end];
      rewrite visible_app, Hv; f_equal.
    apply (visible_at_end (Api.ReadRejects reason)).
Qed.

Lemma fragments_visible (evs : list Api.event) :
  Api.fragments (visible evs) = Api.fragments evs.
Proof.
  induction evs as [|e evs IH]; [reflexivity|].
  destruct e; simpl; try exact IH. now rewrite IH.
Qed.

Lemma callbacks_visible (evs : list Api.event) :
  Api.callbacks (visible evs) = Api.callbacks evs.
Proof.
  induction evs as [|e evs IH]; [reflexivity|].
  destruct e; simpl; try exact IH; now rewrite IH.
Qed.

Lemma extractor_calls_visible (evs : list Api.event) :
  Api.extractor_calls (visible evs) = Api.extractor_calls evs.
Proof.
  induction evs as [|e evs IH]; [reflexivity|].
  destruct e; simpl; try exact IH. now rewrite IH.
Qed.

Lemma decoded_single (cs : list TextDecoder.bytes) : decoded [concat cs] = decoded cs.
Proof. unfold decoded. simpl. now rewrite app_nil_r. Qed.

(* ================================================================== *)
(** * The Transport Reader *)
(* ================================================================== *)

(** C1.  Feeding the reader a byte stream in chunks cut at arbitrary
    places, also inside a multi-byte character or inside a line, delivers
    the same fragments to [onChunk], in the same order, as feeding the
    same bytes as one chunk; so do all callbacks and all extractor calls,
    however the stream ends. *)
Theorem reader_chunking_invariant (cs : list TextDecoder.bytes) (fin : Api.stream_end) :
  let split_run := Api.sendMessageToWeatherAgent (Api.streaming cs fin) in
  let whole_run := Api.sendMessageToWeatherAgent (Api.streaming [concat cs] fin) in
  Api.fragments split_run = Api.fragments whole_run /\
  Api.callbacks split_run = Api.callbacks whole_run /\
  Api.extractor_calls split_run = Api.extractor_calls whole_run.
Proof.
  intros split_run whole_run.
  assert (E : visible split_run = visible whole_run).
  { unfold split_run, whole_run. now rewrite !reader_by_text, decoded_single. }
  rewrite <- (fragments_visible split_run), <- (fragments_visible whole_run).
  rewrite <- (callbacks_visible split_run), <- (callbacks_visible whole_run).
  rewrite <- (extractor_calls_visible split_run), <- (extractor_calls_visible whole_run).
  now rewrite E.
Qed.

(** The euro sign (three bytes) cut after its second byte, in the middle
    of a line: one fragment, the same as for the uncut stream. *)
Example reader_cuts_euro_sign :
  let first := bytes_of "data: 0:" ++ [Byte.x22] ++ bytes_of "5 " ++ [Byte.xe2; Byte.x82] in
  let second := [Byte.xac; Byte.x22; Byte.x0a] in
  Api.fragments (Api.sendMessageToWeatherAgent
                   (Api.streaming [first; second] Api.EndOfStream))
  = [str "5 " ++ [8364]] /\
  Api.fragments (Api.sendMessageToWeatherAgent
                   (Api.streaming [first ++ second] Api.EndOfStream))
  = [str "5 " ++ [8364]].
Proof. split; vm_compute; reflexivity. Qed.

(** Three lines, the last one the sentinel: two fragments, then
    [onComplete]. *)
Example reader_three_lines :
  Api.callbacks
    (Api.sendMessageToWeatherAgent
       (Api.streaming
          [bytes_of "data: 0:" ++ [Byte.x22] ++ bytes_of "Mumbai" ++ [Byte.x22; Byte.x0a]
           ++ bytes_of "data: 0:" ++ [Byte.x22] ++ bytes_of " Now: 28C" ++ [Byte.x22; Byte.x0a]
           ++ bytes_of "data: [DONE]" ++ [Byte.x0a]]
          Api.EndOfStream))
  = [Api.OnChunk (str "Mumbai"); Api.OnChunk (str " Now: 28C"); Api.OnComplete].
Proof. vm_compute. reflexivity. Qed.

(** ** Complete lines *)

Lemma complete_lines_after (pre rest : jsstring) :
  line_start pre -> complete_lines (pre ++ rest) = complete_lines pre ++ complete_lines rest.
Proof.
  intros [-> | [p ->]]; [reflexivity|].
  unfold complete_lines. rewrite split_after_sep.
  apply removelast_app_nonempty. apply split_acc_nonempty.
Qed.

Lemma complete_lines_line (l post : jsstring) :
  ~ In LF l -> complete_lines (l ++ LF :: post) = l :: complete_lines post.
Proof.
  intro H. unfold complete_lines, split.
  rewrite split_acc_free_prefix by exact H. simpl.
  apply removelast_cons_nonempty. apply split_acc_nonempty.
Qed.

Lemma complete_lines_tail (tail : jsstring) : ~ In LF tail -> complete_lines tail = [].
Proof. intro H. unfold complete_lines. now rewrite split_free. Qed.

Lemma complete_lines_drop_tail (pre tail : jsstring) :
  line_start pre -> ~ In LF tail -> complete_lines (pre ++ tail) = complete_lines pre.
Proof.
  intros Hp Ht.
  now rewrite complete_lines_after, (complete_lines_tail tail), app_nil_r.
Qed.

(** ** The shape of a run *)

Lemma completions_app (a b : list Api.event) :
  Api.completions (a ++ b) = (Api.completions a + Api.completions b)%nat.
Proof. unfold Api.completions. now rewrite filter_app, length_app. Qed.

Lemma errors_app (a b : list Api.event) :
  Api.errors (a ++ b) = Api.errors a ++ Api.errors b.
Proof. apply flat_map_app. Qed.

Lemma fragments_app (a b : list Api.event) :
  Api.fragments (a ++ b) = Api.fragments a ++ Api.fragments b.
Proof. apply flat_map_app. Qed.

Lemma extractor_calls_app (a b : list Api.event) :
  Api.extractor_calls (a ++ b) = Api.extractor_calls a ++ Api.extractor_calls b.
Proof. apply flat_map_app. Qed.

Lemma emit_quiet (arg : jsstring) :
  Api.errors (Api.emit arg) = [] /\ Api.completions (Api.emit arg) = 0%nat.
Proof. unfold Api.emit. now destruct (nonempty _). Qed.

(** One line either goes on quietly or completes and returns. *)
Lemma process_line_shape (line : jsstring) :
  match Api.process_line line with
  | Api.Continue evs => Api.errors evs = [] /\ Api.completions evs = 0%nat
  | Api.Return evs => evs = [Api.OnComplete]
  end.
Proof.
  unfold Api.process_line.
  destruct (negb (nonempty (trim line))); [now split|].
  destruct (startsWith (str "data: ") line).
  - destruct (str_eqb _ _); [reflexivity | apply emit_quiet].
  - apply emit_quiet.
Qed.

Lemma process_lines_shape (lines : list jsstring) :
  let '(evs, returned) := Api.process_lines lines in
  Api.errors evs = [] /\
  if returned
  then exists e, evs = e ++ [Api.OnComplete] /\ Api.completions e = 0%nat
  else Api.completions evs = 0%nat.
Proof.
  induction lines as [|l lines IH]; [now split|].
  cbn [Api.process_lines]. pose proof (process_line_shape l) as Hl.
  destruct (Api.process_line l) as [evs | evs].
  - destruct Hl as [He Hc].
    destruct (Api.process_lines lines) as [e' r]. destruct IH as [He' Hr].
    split; [now rewrite errors_app, He, He'|].
    destruct r.
    + destruct Hr as (e & -> & Hce). exists (evs ++ e).
      split; [now rewrite app_assoc|]. rewrite completions_app. lia.
    + rewrite completions_app. lia.
  - subst evs. split; [reflexivity|]. now exists [].
Qed.

Lemma read_loop_shape (pending : list TextDecoder.bytes) (fin : Api.stream_end) :
  forall st buffer,
    let '(evs, ex) := Api.read_loop st buffer pending fin in
    Api.errors evs = [] /\
    match ex with
    | Api.Returned => exists e, evs = e ++ [Api.OnComplete] /\ Api.completions e = 0%nat
    | Api.Break => fin = Api.EndOfStream /\ Api.completions evs = 0%nat
    | Api.Throws r => fin = Api.ReadRejects r /\ Api.completions evs = 0%nat
    end.
Proof.
  induction pending as [|value more IH]; intros st buffer.
  - simpl. destruct fin; simpl; auto.
  - cbn [Api.read_loop]. cbv zeta.
    destruct (TextDecoder.decode st value) as [st1 text].
    set (lines := split LF (buffer ++ text)).
    pose proof (process_lines_shape (removelast lines)) as Hs.
    destruct (Api.process_lines (removelast lines)) as [evs [|]].
    + destruct Hs as [He (e & -> & Hc)]. split; [exact He|].
      exists (Api.Read :: e). split; [reflexivity | exact Hc].
    + destruct Hs as [He Hc]. specialize (IH st1 (last lines [])).
      destruct (Api.read_loop st1 (last lines []) more fin) as [evs' ex].
      destruct IH as [He' Hx]. split.
      * change (Api.errors (Api.Read :: evs ++ evs')) with (Api.errors (evs ++ evs')).
        now rewrite errors_app, He, He'.
      * assert (Hcc : forall l, Api.completions (Api.Read :: l) = Api.completions l)
          by reflexivity.
        destruct ex as [| |r].
        -- destruct Hx as [-> Hx]. split; [reflexivity|].
           rewrite Hcc, completions_app. lia.
        -- destruct Hx as (e & -> & Hce). exists (Api.Read :: evs ++ e).
           split; [simpl; now rewrite <- app_assoc|].
           rewrite Hcc, completions_app. lia.
        -- destruct Hx as [-> Hx]. split; [reflexivity|].
           rewrite Hcc, completions_app. lia.
Qed.

(** A stream that ends normally: [onComplete] is the last thing that
    happens, it happens once, and [onError] is not called. *)
Lemma normal_end_completes (cs : list TextDecoder.bytes) :
  let run := Api.sendMessageToWeatherAgent (Api.streaming cs Api.EndOfStream) in
  (exists evs, run = evs ++ [Api.OnComplete] /\ Api.completions evs = 0%nat) /\
  Api.errors run = [].
Proof.
  unfold Api.sendMessageToWeatherAgent, Api.streaming.
  cbn [Api.ok negb Api.body Api.chunks Api.ending].
  pose proof (read_loop_shape cs Api.EndOfStream TextDecoder.initial []) as H.
  destruct (Api.read_loop TextDecoder.initial [] cs Api.EndOfStream) as [evs ex].
  destruct H as [He Hx]. destruct ex as [| |r].
  - destruct Hx as [_ Hc]. split.
    + now exists evs.
    + now rewrite errors_app, He.
  - destruct Hx as (e & -> & Hc). split; [now exists e | exact He].
  - now destruct Hx.
Qed.

(** Once the loop has returned, nothing that follows in the stream
    matters: it is not read. *)
Lemma read_loop_returned (pending more : list TextDecoder.bytes)
    (fin fin' : Api.stream_end) :
  forall st buffer,
    snd (Api.read_loop st buffer pending fin) = Api.Returned ->
    Api.read_loop st buffer (pending ++ more) fin' = Api.read_loop st buffer pending fin.
Proof.
  induction pending as [|value rest IH]; intros st buffer H.
  - simpl in H. now destruct fin.
  - cbn [Api.read_loop app] in *. cbv zeta in *.
    destruct (TextDecoder.decode st value) as [st1 text].
    destruct (Api.process_lines _) as [evs [|]]; [reflexivity|].
    specialize (IH st1 (last (split LF (buffer ++ text)) [])).
    destruct (Api.read_loop st1 _ rest fin) as [evs' ex]. cbn [snd] in *.
    now rewrite IH.
Qed.

Lemma done_line_returns : Api.process_line DONE_LINE = Api.Return [Api.OnComplete].
Proof. reflexivity. Qed.

Lemma done_line_free : ~ In LF DONE_LINE.
Proof. simpl. intuition discriminate. Qed.

(** The lines up to a sentinel line decide the run. *)
Lemma process_lines_done (before after : list jsstring) :
  Api.process_lines (before ++ DONE_LINE :: after)
  = (let '(evs, returned) := Api.process_lines before in
     if returned then evs else evs ++ [Api.OnComplete], true).
Proof.
  rewrite process_lines_app.
  destruct (Api.process_lines before) as [evs [|]]; [reflexivity|].
  cbn [Api.process_lines]. now rewrite done_line_returns.
Qed.

(** C3.  When the decoded stream holds a complete line [data: [DONE]],
    the run is the one of the lines before it followed by [onComplete]:
    [onComplete] is called once and is the last thing that happens, no
    error is reported, and neither the rest of the text nor any further
    chunk nor the way the stream ends changes anything, since none of it
    is read.  When the stream is exhausted, with or without a sentinel,
    [onComplete] is called as well. *)
Theorem done_sentinel_ends_stream :
  (forall (cs : list TextDecoder.bytes) (fin : Api.stream_end) (pre post : jsstring),
      decoded cs = pre ++ DONE_LINE ++ LF :: post -> line_start pre ->
      let run := Api.sendMessageToWeatherAgent (Api.streaming cs fin) in
      visible run = stream_events pre Api.EndOfStream /\
      (exists evs, run = evs ++ [Api.OnComplete] /\ Api.completions evs = 0%nat) /\
      Api.errors run = [] /\
      forall more fin',
        Api.sendMessageToWeatherAgent (Api.streaming (cs ++ more) fin') = run) /\
  (forall cs : list TextDecoder.bytes,
      let run := Api.sendMessageToWeatherAgent (Api.streaming cs Api.EndOfStream) in
      (exists evs, run = evs ++ [Api.OnComplete] /\ Api.completions evs = 0%nat) /\
      Api.errors run = []).
Proof.
  split; [|apply normal_end_completes].
  intros cs fin pre post Ht Hp run.
  assert (Hl : complete_lines (decoded cs)
               = complete_lines pre ++ DONE_LINE :: complete_lines post).
  { rewrite Ht, complete_lines_after by exact Hp.
    now rewrite complete_lines_line by apply done_line_free. }
  assert (Hv : visible run = stream_events pre Api.EndOfStream).
  { unfold run. rewrite reader_by_text. unfold stream_events.
    rewrite Hl, process_lines_done. cbn [at_end].
    now destruct (Api.process_lines (complete_lines pre)) as [evs [|]]. }
  assert (Hx : snd (Api.read_loop TextDecoder.initial [] cs fin) = Api.Returned).
  { destruct (read_loop_by_text cs fin TextDecoder.initial []) as [_ Hx]; [easy|].
    cbv zeta in Hx. rewrite Hx.
    fold (split LF (snd (TextDecoder.decode TextDecoder.initial (concat cs)))).
    fold (decoded cs). fold (complete_lines (decoded cs)).
    now rewrite Hl, process_lines_done. }
  split; [exact Hv|].
  unfold run, Api.sendMessageToWeatherAgent, Api.streaming.
  cbn [Api.ok negb Api.body Api.chunks Api.ending].
  pose proof (read_loop_shape cs fin TextDecoder.initial []) as Hs.
  split; [|split].
  - destruct (Api.read_loop TextDecoder.initial [] cs fin) as [evs ex].
    cbn [snd] in Hx. subst ex. now destruct Hs as [_ Hs].
  - destruct (Api.read_loop TextDecoder.initial [] cs fin) as [evs ex].
    cbn [snd] in Hx. subst ex. now destruct Hs as [Hs _].
  - intros more fin'.
    now rewrite (read_loop_returned cs more fin fin' _ _ Hx).
Qed.

Lemma done_sentinel_ends_stream_witness :
  let cs := [bytes_of "data: 0:" ++ [Byte.x22] ++ bytes_of "Hi" ++ [Byte.x22; Byte.x0a]
             ++ bytes_of "data: [DO";
             bytes_of "NE]" ++ [Byte.x0a] ++ bytes_of "data: 0:" ++ [Byte.x22]
             ++ bytes_of "late" ++ [Byte.x22; Byte.x0a]] in
  let pre := str "data: 0:" ++ [QUOTE] ++ str "Hi" ++ [QUOTE; LF] in
  let post := str "data: 0:" ++ [QUOTE] ++ str "late" ++ [QUOTE; LF] in
  decoded cs = pre ++ DONE_LINE ++ LF :: post /\ line_start pre /\
  Api.callbacks (Api.sendMessageToWeatherAgent (Api.streaming cs Api.EndOfStream))
  = [Api.OnChunk (str "Hi"); Api.OnComplete].
Proof.
  intros cs pre post.
  assert (E : decoded cs = pre ++ DONE_LINE ++ LF :: post) by (vm_compute; reflexivity).
  assert (L : line_start pre).
  { right. exists (str "data: 0:" ++ [QUOTE] ++ str "Hi" ++ [QUOTE]). reflexivity. }
  split; [exact E|]. split; [exact L|].
  destruct done_sentinel_ends_stream as [H _].
  destruct (H cs Api.EndOfStream pre post E L) as [Hv _].
  rewrite <- callbacks_visible, Hv. vm_compute. reflexivity.
Defined.

(** ** What reaches the extractor and [onChunk] *)

Lemma emit_fragments (arg : jsstring) :
  Forall (fun f => f <> []) (Api.fragments (Api.emit arg)).
Proof.
  unfold Api.emit.
  destruct (nonempty _) eqn:E; simpl; constructor; [|constructor].
  now apply nonempty_true.
Qed.

Lemma process_line_fragments (line : jsstring) :
  Forall (fun f => f <> []) (Api.fragments (result_events (Api.process_line line))).
Proof.
  unfold Api.process_line.
  destruct (negb (nonempty (trim line))); [constructor|].
  destruct (startsWith (str "data: ") line).
  - destruct (str_eqb _ _); [constructor | apply emit_fragments].
  - apply emit_fragments.
Qed.

Lemma process_lines_fragments (lines : list jsstring) :
  Forall (fun f => f <> []) (Api.fragments (fst (Api.process_lines lines))).
Proof.
  induction lines as [|l lines IH]; [constructor|].
  cbn [Api.process_lines]. pose proof (process_line_fragments l) as Hl.
  destruct (Api.process_line l) as [evs | evs]; cbn [result_events] in Hl.
  - destruct (Api.process_lines lines) as [e r]. cbn [fst] in *.
    rewrite fragments_app. now apply Forall_app.
  - exact Hl.
Qed.

Lemma read_loop_fragments (pending : list TextDecoder.bytes) (fin : Api.stream_end) :
  forall st buffer,
    Forall (fun f => f <> []) (Api.fragments (fst (Api.read_loop st buffer pending fin))).
Proof.
  induction pending as [|value more IH]; intros st buffer.
  - simpl. destruct fin; constructor.
  - cbn [Api.read_loop]. cbv zeta.
    destruct (TextDecoder.decode st value) as [st1 text].
    set (lines := split LF (buffer ++ text)).
    pose proof (process_lines_fragments (removelast lines)) as Hs.
    destruct (Api.process_lines (removelast lines)) as [evs [|]]; cbn [fst] in *.
    + exact Hs.
    + specialize (IH st1 (last lines [])).
      destruct (Api.read_loop st1 (last lines []) more fin) as [evs' ex].
      cbn [fst] in *.
      change (Api.fragments (Api.Read :: evs ++ evs')) with (Api.fragments (evs ++ evs')).
      rewrite fragments_app. now apply Forall_app.
Qed.

Lemma catch_fragments (e : Api.thrown) : Api.fragments (Api.catch e) = [].
Proof. destruct e; simpl; [now destruct (str_eqb _ _) | reflexivity]. Qed.

Lemma catch_calls (e : Api.thrown) : Api.extractor_calls (Api.catch e) = [].
Proof. destruct e; simpl; [now destruct (str_eqb _ _) | reflexivity]. Qed.

Lemma startsWith_prefix (p s : jsstring) :
  startsWith p s = true -> s = p ++ skipn (length p) s.
Proof.
  revert s. induction p as [|x p IH]; intros [|y s]; simpl; intro H;
    try reflexivity; try discriminate.
  apply andb_true_iff in H as [Hx Hp]. apply N.eqb_eq in Hx. subst y.
  f_equal. now apply IH.
Qed.

Lemma emit_calls (arg a : jsstring) :
  In a (Api.extractor_calls (Api.emit arg)) -> a = arg.
Proof.
  unfold Api.emit. destruct (nonempty _); simpl; intros [H | []]; now symmetry.
Qed.

Lemma process_line_calls (line arg : jsstring) :
  In arg (Api.extractor_calls (result_events (Api.process_line line))) ->
  trim line <> [] /\ (arg = line \/ line = str "data: " ++ arg).
Proof.
  unfold Api.process_line.
  destruct (nonempty (trim line)) eqn:Et; cbn [negb]; [|intros []].
  apply nonempty_true in Et.
  destruct (startsWith (str "data: ") line) eqn:Es.
  - destruct (str_eqb _ _); [intros []|].
    intro H. apply emit_calls in H. subst arg. split; [exact Et|]. right.
    now apply (startsWith_prefix (str "data: ")).
  - intro H. apply emit_calls in H. subst arg. now split; [|left].
Qed.

Lemma process_lines_calls (lines : list jsstring) (arg : jsstring) :
  In arg (Api.extractor_calls (fst (Api.process_lines lines))) ->
  exists line, In line lines /\ trim line <> [] /\
               (arg = line \/ line = str "data: " ++ arg).
Proof.
  induction lines as [|l lines IH]; [intros []|].
  cbn [Api.process_lines]. pose proof (process_line_calls l arg) as Hl.
  destruct (Api.process_line l) as [evs | evs]; cbn [result_events] in Hl.
  - destruct (Api.process_lines lines) as [e r]. cbn [fst] in *.
    rewrite extractor_calls_app. intro H. apply in_app_or in H as [H | H].
    + exists l. split; [now left | now apply Hl].
    + destruct (IH H) as (line & Hin & Hline). exists line. split; [now right | exact Hline].
  - cbn [fst]. intro H. exists l. split; [now left | now apply Hl].
Qed.

(** C4.  Every fragment delivered to [onChunk] is a non-empty string,
    whatever the network does.  A line of white space only is skipped
    without a call of the extractor: all the extractor ever receives is a
    non-blank complete line, or what follows the prefix [data: ] of one.
    An extraction that is empty after the escaped newlines are normalized
    is not emitted. *)
Theorem fragments_are_nonempty :
  (forall net : Api.fetch_result,
      Forall (fun f => f <> []) (Api.fragments (Api.sendMessageToWeatherAgent net))) /\
  (forall line : jsstring,
      trim line = [] -> Api.process_line line = Api.Continue []) /\
  (forall (cs : list TextDecoder.bytes) (fin : Api.stream_end) (arg : jsstring),
      In arg (Api.extractor_calls (Api.sendMessageToWeatherAgent (Api.streaming cs fin))) ->
      exists line, In line (complete_lines (decoded cs)) /\ trim line <> [] /\
                   (arg = line \/ line = str "data: " ++ arg)) /\
  (forall arg : jsstring,
      replace_all Api.escaped_newline_re [LF] (Api.extractTextFromTokenStream arg) = [] ->
      Api.emit arg = [Api.Extract arg]).
Proof.
  split; [|split; [|split]].
  - intros [e | r]; unfold Api.sendMessageToWeatherAgent.
    + rewrite catch_fragments. constructor.
    + destruct (negb (Api.ok r)); [rewrite catch_fragments; constructor|].
      destruct (Api.body r) as [b|]; [|rewrite catch_fragments; constructor].
      pose proof (read_loop_fragments (Api.chunks b) (Api.ending b)
                    TextDecoder.initial []) as H.
      destruct (Api.read_loop _ _ _ _) as [evs ex]. cbn [fst] in H.
      destruct ex as [| |e]; try exact H.
      * rewrite fragments_app. apply Forall_app. split; [exact H | constructor].
      * rewrite fragments_app, catch_fragments. apply Forall_app. split; [exact H | constructor].
  - intros line H. unfold Api.process_line. now rewrite H.
  - intros cs fin arg H.
    rewrite <- extractor_calls_visible, reader_by_text in H.
    unfold stream_events in H.
    pose proof (process_lines_calls (complete_lines (decoded cs)) arg) as Hc.
    destruct (Api.process_lines (complete_lines (decoded cs))) as [evs [|]];
      cbn [fst] in Hc.
    + now apply Hc.
    + rewrite extractor_calls_app in H. apply in_app_or in H as [H | H].
      * now apply Hc.
      * exfalso. destruct fin as [|e]; [destruct H|].
        cbn [at_end] in H. now rewrite catch_calls in H.
  - intros arg H. unfold Api.emit. now rewrite H.
Qed.

Lemma fragments_are_nonempty_witness :
  let cs := [bytes_of "   " ++ [Byte.x0a] ++ bytes_of "data: e:{}" ++ [Byte.x0a]
             ++ bytes_of "data: 0:" ++ [Byte.x22] ++ bytes_of "Hi" ++ [Byte.x22; Byte.x0a]] in
  Api.process_line (str "   ") = Api.Continue [] /\
  Api.emit (str "e:{}") = [Api.Extract (str "e:{}")] /\
  Api.extractor_calls (Api.sendMessageToWeatherAgent (Api.streaming cs Api.EndOfStream))
  = [str "e:{}"; str "0:" ++ [QUOTE] ++ str "Hi" ++ [QUOTE]] /\
  (exists line, In line (complete_lines (decoded cs)) /\ trim line <> [] /\
                (str "e:{}" = line \/ line = str "data: " ++ str "e:{}")).
Proof.
  intro cs.
  destruct fragments_are_nonempty as (_ & Hblank & Hcalls & Hempty).
  split; [apply Hblank; reflexivity|].
  split; [apply Hempty; reflexivity|].
  assert (E : Api.extractor_calls
                (Api.sendMessageToWeatherAgent (Api.streaming cs Api.EndOfStream))
              = [str "e:{}"; str "0:" ++ [QUOTE] ++ str "Hi" ++ [QUOTE]])
    by (vm_compute; reflexivity).
  split; [exact E|].
  apply (Hcalls cs Api.EndOfStream). rewrite E. now left.
Defined.

(** C10.  When the stream is exhausted, the text after the last line
    feed of the decoded stream is dropped: the run is the one that the
    text up to that line feed prescribes, so the held-back piece reaches
    neither the extractor nor [onChunk]; and the run ends with
    [onComplete], without an error. *)
Theorem unterminated_tail_is_dropped
    (cs : list TextDecoder.bytes) (pre tail : jsstring) :
  decoded cs = pre ++ tail -> line_start pre -> ~ In LF tail ->
  let run := Api.sendMessageToWeatherAgent (Api.streaming cs Api.EndOfStream) in
  visible run = stream_events pre Api.EndOfStream /\
  (exists evs, run = evs ++ [Api.OnComplete] /\ Api.completions evs = 0%nat) /\
  Api.errors run = [].
Proof.
  intros Ht Hp Hn run. split; [|apply normal_end_completes].
  unfold run. rewrite reader_by_text. unfold stream_events.
  now rewrite Ht, complete_lines_drop_tail.
Qed.

Lemma unterminated_tail_is_dropped_witness :
  let cs := [bytes_of "data: 0:" ++ [Byte.x22] ++ bytes_of "Hi" ++ [Byte.x22; Byte.x0a]
             ++ bytes_of "data: 0:" ++ [Byte.x22] ++ bytes_of " there" ++ [Byte.x22]] in
  let pre := str "data: 0:" ++ [QUOTE] ++ str "Hi" ++ [QUOTE; LF] in
  let tail := str "data: 0:" ++ [QUOTE] ++ str " there" ++ [QUOTE] in
  decoded cs = pre ++ tail /\ line_start pre /\ ~ In LF tail /\
  visible (Api.sendMessageToWeatherAgent (Api.streaming cs Api.EndOfStream))
  = [Api.Extract (str "0:" ++ [QUOTE] ++ str "Hi" ++ [QUOTE]);
     Api.OnChunk (str "Hi"); Api.OnComplete].
Proof.
  intros cs pre tail.
  assert (E : decoded cs = pre ++ tail) by (vm_compute; reflexivity).
  assert (L : line_start pre).
  { right. exists (str "data: 0:" ++ [QUOTE] ++ str "Hi" ++ [QUOTE]). reflexivity. }
  assert (F : ~ In LF tail) by (simpl; intuition discriminate).
  split; [exact E|]. split; [exact L|]. split; [exact F|].
  destruct (unterminated_tail_is_dropped cs pre tail E L F) as [Hv _].
  rewrite Hv. vm_compute. reflexivity.
Defined.

(* ================================================================== *)
(** * Cancellation *)
(* ================================================================== *)

Lemma process_line_return (line : jsstring) (evs : list Api.event) :
  Api.process_line line = Api.Return evs -> line = DONE_LINE.
Proof.
  unfold Api.process_line.
  destruct (negb (nonempty (trim line))); [discriminate|].
  destruct (startsWith (str "data: ") line) eqn:Es; [|discriminate].
  destruct (str_eqb _ _) eqn:Ed; [|discriminate]. intros _.
  apply str_eqb_eq in Ed. apply (startsWith_prefix (str "data: ")) in Es.
  unfold slice_from in Ed. change (length (str "data: ")) with 6%nat in Es.
  rewrite Es, Ed. reflexivity.
Qed.

(** Without a sentinel line the [for] loop does not return. *)
Lemma process_lines_no_done (lines : list jsstring) :
  ~ In DONE_LINE lines -> snd (Api.process_lines lines) = false.
Proof.
  induction lines as [|l lines IH]; intro H; [reflexivity|].
  cbn [Api.process_lines].
  destruct (Api.process_line l) as [evs | evs] eqn:El.
  - destruct (Api.process_lines lines) as [e r]. cbn [snd] in *.
    apply IH. intro Hin. apply H. now right.
  - apply process_line_return in El. exfalso. apply H. now left.
Qed.

Lemma deliver_all_app (offline : bool) (h : Hook.state) (a b : list Api.event) :
  Hook.deliver_all offline h (a ++ b)
  = Hook.deliver_all offline (Hook.deliver_all offline h a) b.
Proof. apply fold_left_app. Qed.

(** Events other than [onError] and [onComplete] leave the hook alone. *)
Lemma deliver_all_quiet (offline : bool) (evs : list Api.event) :
  forall h, Api.errors evs = [] -> Api.completions evs = 0%nat ->
            Hook.deliver_all offline h evs = h.
Proof.
  induction evs as [|e evs IH]; intros h He Hc; [reflexivity|].
  destruct e; try discriminate; simpl; now apply IH.
Qed.

(** An operation that is aborted while it reads ends by reporting
    [Request cancelled]. *)
Lemma aborted_run (k : nat) (cs : list TextDecoder.bytes) :
  ~ In DONE_LINE (complete_lines (decoded (firstn k cs))) ->
  exists evs,
    Api.sendMessageToWeatherAgent (Hook.aborted_after k cs)
    = evs ++ [Api.OnError (str "Request cancelled")] /\
    Api.errors evs = [] /\ Api.completions evs = 0%nat.
Proof.
  intro Hd. unfold Hook.aborted_after, Api.sendMessageToWeatherAgent, Api.streaming.
  cbn [Api.ok negb Api.body Api.chunks Api.ending].
  set (fin := Api.ReadRejects Api.AbortError).
  pose proof (read_loop_shape (firstn k cs) fin TextDecoder.initial []) as Hs.
  destruct (read_loop_by_text (firstn k cs) fin TextDecoder.initial []) as [_ Hx];
    [easy|].
  cbv zeta in Hx.
  change (removelast (split_acc LF []
            (snd (TextDecoder.decode TextDecoder.initial (concat (firstn k cs))))))
    with (complete_lines (decoded (firstn k cs))) in Hx.
  rewrite (process_lines_no_done _ Hd) in Hx.
  destruct (Api.read_loop TextDecoder.initial [] (firstn k cs) fin) as [evs ex].
  cbn [snd] in Hx. subst ex. cbn [exit_of fin] in *.
  destruct Hs as [He [_ Hc]]. exists evs. now repeat split.
Qed.

(** C5, as stated, fails: a cancelled operation does report an error, and
    the hook shows it.  An operation aborted after its first chunk calls
    [onError] with [Request cancelled]; after an explicit [cancel()], and
    equally after a superseding second [send], the error observable holds
    that message. *)
Lemma cancellation_counterexample :
  let cs := [bytes_of "data: 0:" ++ [Byte.x22] ++ bytes_of "Hi" ++ [Byte.x22; Byte.x0a];
             bytes_of "data: 0:" ++ [Byte.x22] ++ bytes_of " there" ++ [Byte.x22; Byte.x0a]] in
  Api.callbacks (Api.sendMessageToWeatherAgent (Hook.aborted_after 1 cs))
  = [Api.OnChunk (str "Hi"); Api.OnError (str "Request cancelled")] /\
  Hook.error (Hook.cancelled false 1 cs) = Some (str "Request cancelled") /\
  Hook.error (Hook.superseded false 1 cs) = Some (str "Request cancelled").
Proof. repeat split; vm_compute; reflexivity. Qed.

(** C5, amended.  An operation whose controller is aborted while it
    reads, before a sentinel line has ended it, delivers the fragments of
    the chunks it has read and then, as the last thing it does, calls
    [onError] with [Request cancelled]; it does not call [onComplete].
    The hook takes that message (the offline message when the device is
    offline) as its error and stops loading, after an explicit
    [cancel()] as well as when a second [send] has superseded the
    operation.  An operation aborted while [fetch] is pending reports the
    same message. *)
Theorem cancellation_is_reported (offline : bool) (k : nat) (cs : list TextDecoder.bytes) :
  ~ In DONE_LINE (complete_lines (decoded (firstn k cs))) ->
  let run := Api.sendMessageToWeatherAgent (Hook.aborted_after k cs) in
  (exists evs, run = evs ++ [Api.OnError (str "Request cancelled")] /\
               Api.errors evs = [] /\ Api.completions evs = 0%nat) /\
  Api.fragments run
  = Api.fragments (fst (Api.process_lines (complete_lines (decoded (firstn k cs))))) /\
  Hook.cancelled offline k cs
  = Hook.mkHook false (Some (Hook.friendly offline (str "Request cancelled")))
      (Some 1%nat) [1%nat] /\
  Hook.superseded offline k cs
  = Hook.mkHook false (Some (Hook.friendly offline (str "Request cancelled")))
      (Some 2%nat) [1%nat] /\
  Api.sendMessageToWeatherAgent Hook.aborted_during_fetch
  = [Api.OnError (str "Request cancelled")].
Proof.
  intros Hd run. pose proof (aborted_run k cs Hd) as Hr. fold run in Hr.
  split; [exact Hr|]. split; [|split; [|split]].
  - rewrite <- (fragments_visible run). unfold run, Hook.aborted_after.
    rewrite reader_by_text. unfold stream_events.
    pose proof (process_lines_no_done _ Hd) as Hn.
    destruct (Api.process_lines (complete_lines (decoded (firstn k cs)))) as [evs r].
    cbn [fst snd] in *. subst r.
    rewrite fragments_app. cbn [at_end].
    now rewrite catch_fragments, app_nil_r.
  - unfold Hook.cancelled. fold run. destruct Hr as (evs & E & He & Hc).
    rewrite E, deliver_all_app, (deliver_all_quiet offline evs _ He Hc). reflexivity.
  - unfold Hook.superseded. fold run. destruct Hr as (evs & E & He & Hc).
    rewrite E, deliver_all_app, (deliver_all_quiet offline evs _ He Hc). reflexivity.
  - reflexivity.
Qed.

Lemma cancellation_is_reported_witness :
  let cs := [bytes_of "data: 0:" ++ [Byte.x22] ++ bytes_of "Hi" ++ [Byte.x22; Byte.x0a];
             bytes_of "data: 0:" ++ [Byte.x22] ++ bytes_of " there" ++ [Byte.x22; Byte.x0a]] in
  ~ In DONE_LINE (complete_lines (decoded (firstn 1 cs))) /\
  Api.fragments (Api.sendMessageToWeatherAgent (Hook.aborted_after 1 cs)) = [str "Hi"] /\
  Hook.error (Hook.superseded false 1 cs) = Some (str "Request cancelled").
Proof.
  intro cs.
  assert (Hd : ~ In DONE_LINE (complete_lines (decoded (firstn 1 cs)))).
  { vm_compute. intros [H | []]. discriminate H. }
  split; [exact Hd|].
  destruct (cancellation_is_reported false 1 cs Hd) as (_ & Hf & _ & Hs & _).
  split.
  - rewrite Hf. vm_compute. reflexivity.
  - rewrite Hs. reflexivity.
Defined.

(* ================================================================== *)
(** * Patterns in general *)
(* ================================================================== *)

Lemma greedy_star_sound (p : code_unit -> bool) (k : cont) :
  forall s c res, greedy_star p k s c = Some res ->
    exists s' c', Matches (Star p) s s' /\ k s' c' = Some res.
Proof.
  induction s as [|x s IH]; intros c res H; simpl in H.
  - exists [], c. split; [constructor | exact H].
  - destruct (p x) eqn:E.
    + destruct (greedy_star p k s c) as [r|] eqn:G.
      * injection H as <-. destruct (IH c r G) as (s' & c' & Hm & Hk).
        exists s', c'. split; [now constructor | exact Hk].
      * exists (x :: s), c. split; [constructor | exact H].
    + exists (x :: s), c. split; [constructor | exact H].
Qed.

Lemma lazy_star_sound (p : code_unit -> bool) (k : cont) :
  forall s c res, lazy_star p k s c = Some res ->
    exists s' c', Matches (LazyStar p) s s' /\ k s' c' = Some res.
Proof.
  induction s as [|x s IH]; intros c res H; simpl in H.
  - destruct (k [] c) as [r|] eqn:K; [|discriminate].
    exists [], c. split; [constructor | congruence].
  - destruct (k (x :: s) c) as [r|] eqn:K.
    + exists (x :: s), c. split; [constructor | congruence].
    + destruct (p x) eqn:E; [|discriminate].
      destruct (IH c res H) as (s' & c' & Hm & Hk).
      exists s', c'. split; [now constructor | exact Hk].
Qed.

(** Whatever the matcher finds is a match. *)
Lemma run_sound (r : regex) :
  forall (k : cont) s c res, run r k s c = Some res ->
    exists s' c', Matches r s s' /\ k s' c' = Some res.
Proof.
  induction r as [|p|a IHa b IHb|a IHa b IHb|p|p|i r IH|]; intros k s c res H;
    cbn [run] in H.
  - exists s, c. split; [constructor | exact H].
  - destruct s as [|x s]; [discriminate|]. destruct (p x) eqn:E; [|discriminate].
    exists s, c. split; [now constructor | exact H].
  - destruct (IHa _ _ _ _ H) as (s1 & c1 & Ha & H1).
    destruct (IHb _ _ _ _ H1) as (s2 & c2 & Hb & H2).
    exists s2, c2. split; [econstructor; eauto | exact H2].
  - destruct (run a k s c) as [r|] eqn:E.
    + injection H as <-. destruct (IHa _ _ _ _ E) as (s' & c' & Hm & Hk).
      exists s', c'. split; [now apply M_alt_left | exact Hk].
    + destruct (IHb _ _ _ _ H) as (s' & c' & Hm & Hk).
      exists s', c'. split; [now apply M_alt_right | exact Hk].
  - exact (greedy_star_sound p k s c res H).
  - exact (lazy_star_sound p k s c res H).
  - destruct (IH _ _ _ _ H) as (s' & c' & Hm & Hk).
    exists s', ((i, firstn (length s - length s') s) :: c').
    split; [now constructor | exact Hk].
  - destruct s; [|discriminate]. exists [], c. split; [constructor | exact H].
Qed.

Lemma match_here_sound (r : regex) (s : jsstring) (res : captures * jsstring) :
  match_here r s = Some res -> Matches r s (snd res).
Proof.
  intro H. unfold match_here in H.
  destruct (run_sound r _ _ _ _ H) as (s' & c' & Hm & Hk).
  injection Hk as <-. exact Hm.
Qed.

(** A match consumes a prefix. *)
Lemma Matches_suffix (r : regex) (s s' : jsstring) :
  Matches r s s' -> exists pre, s = pre ++ s'.
Proof.
  induction 1 as [s|p x s Hp|a b s s1 s2 _ [p1 ->] _ [p2 ->]|a b s s' _ IH
                 |a b s s' _ IH|p s|p x s s' Hp _ [pre ->]|p s
                 |p x s s' Hp _ [pre ->]|i r s s' _ IH|].
  - now exists [].
  - now exists [x].
  - exists (p1 ++ p2). now rewrite app_assoc.
  - exact IH.
  - exact IH.
  - now exists [].
  - now exists (x :: pre).
  - now exists [].
  - now exists (x :: pre).
  - exact IH.
  - now exists [].
Qed.

(** A greedy run before the end of the pattern takes all it can. *)
Lemma greedy_star_final (p : code_unit -> bool) (s : jsstring) (c : captures) :
  greedy_star p (fun s' c' => Some (c', s')) s c = Some (c, drop_while p s).
Proof.
  induction s as [|x s IH]; simpl; [reflexivity|].
  destruct (p x); [now rewrite IH | reflexivity].
Qed.

(** ** The scanning loops never run out of fuel *)

Lemma Matches_length (r : regex) (s s' : jsstring) :
  Matches r s s' -> (length s' <= length s)%nat.
Proof.
  intro H. apply Matches_suffix in H as [pre ->]. rewrite length_app. lia.
Qed.

Lemma consumes_sound (r : regex) (s s' : jsstring) :
  Matches r s s' -> consumes r = true -> (length s' < length s)%nat.
Proof.
  induction 1 as [s|p x s Hp|a b s s1 s2 Ha IHa Hb IHb|a b s s' _ IH
                 |a b s s' _ IH|p s|p x s s' Hp _ _|p s
                 |p x s s' Hp _ _|i r s s' _ IH|];
    cbn [consumes]; intro Hc; try discriminate.
  - simpl. lia.
  - apply Matches_length in Ha as La. apply Matches_length in Hb as Lb.
    apply orb_true_iff in Hc as [Hc | Hc]; [specialize (IHa Hc) | specialize (IHb Hc)]; lia.
  - apply andb_true_iff in Hc as [Hc _]. auto.
  - apply andb_true_iff in Hc as [_ Hc]. auto.
  - auto.
Qed.

Lemma match_here_consumes (r : regex) (s : jsstring) (res : captures * jsstring) :
  consumes r = true -> match_here r s = Some res -> (length (snd res) < length s)%nat.
Proof.
  intros Hc H. apply match_here_sound in H. eapply consumes_sound; eauto.
Qed.

Section Fuel.
Variable r : regex.
Hypothesis r_consumes : consumes r = true.

Lemma replace_all_fuel_enough (by_ : jsstring) (n m : nat) :
  forall s, (length s < n)%nat -> (length s < m)%nat ->
    replace_all_fuel n r by_ s = replace_all_fuel m r by_ s.
Proof.
  revert m. induction n as [|n IH]; intros m s Hn Hm; [lia|].
  destruct m as [|m]; [lia|]. cbn [replace_all_fuel].
  destruct s as [|x s]; [reflexivity|].
  destruct (match_here r (x :: s)) as [[c rest]|] eqn:E.
  - apply (match_here_consumes _ _ _ r_consumes) in E. cbn [snd length] in *.
    f_equal. apply IH; lia.
  - cbn [length] in *. f_equal. apply IH; lia.
Qed.

(** [replace_all] by its equation. *)
Lemma replace_all_step (by_ : jsstring) (x : code_unit) (s : jsstring) :
  replace_all r by_ (x :: s)
  = match match_here r (x :: s) with
    | Some (_, rest) => by_ ++ replace_all r by_ rest
    | None => x :: replace_all r by_ s
    end.
Proof.
  unfold replace_all at 1. remember (length (x :: s)) as n eqn:En.
  cbn [replace_all_fuel]. cbn [length] in En.
  destruct (match_here r (x :: s)) as [[c rest]|] eqn:E.
  - apply (match_here_consumes _ _ _ r_consumes) in E. cbn [snd length] in E.
    f_equal. unfold replace_all. apply replace_all_fuel_enough; lia.
  - f_equal. unfold replace_all. apply replace_all_fuel_enough; lia.
Qed.

Lemma exec_all_fuel_enough (n m : nat) :
  forall s, (length s < n)%nat -> (length s < m)%nat ->
    exec_all_fuel n r s = exec_all_fuel m r s.
Proof.
  revert m. induction n as [|n IH]; intros m s Hn Hm; [lia|].
  destruct m as [|m]; [lia|]. cbn [exec_all_fuel].
  destruct s as [|x s]; [reflexivity|].
  destruct (match_here r (x :: s)) as [[c rest]|] eqn:E.
  - apply (match_here_consumes _ _ _ r_consumes) in E. cbn [snd length] in *.
    rewrite (IH m rest) by lia. reflexivity.
  - cbn [length] in *. apply IH; lia.
Qed.

(** The [exec] loop by its equation. *)
Lemma exec_all_step (x : code_unit) (s : jsstring) :
  exec_all r (x :: s)
  = match match_here r (x :: s) with
    | Some (c, rest) =>
        match capture 1 c with
        | Some v => v :: exec_all r rest
        | None => exec_all r rest
        end
    | None => exec_all r s
    end.
Proof.
  unfold exec_all at 1. remember (length (x :: s)) as n eqn:En.
  cbn [exec_all_fuel]. cbn [length] in En.
  destruct (match_here r (x :: s)) as [[c rest]|] eqn:E.
  - apply (match_here_consumes _ _ _ r_consumes) in E. cbn [snd length] in E.
    unfold exec_all. rewrite (exec_all_fuel_enough n (S (length rest))) by lia.
    reflexivity.
  - unfold exec_all. apply exec_all_fuel_enough; lia.
Qed.

Lemma split_re_fuel_enough (n m : nat) :
  forall s piece, (length s < n)%nat -> (length s < m)%nat ->
    ChatUI.split_re_fuel n r piece s = ChatUI.split_re_fuel m r piece s.
Proof.
  revert m. induction n as [|n IH]; intros m s piece Hn Hm; [lia|].
  destruct m as [|m]; [lia|]. cbn [ChatUI.split_re_fuel].
  destruct s as [|x s]; [reflexivity|].
  destruct (match_here r (x :: s)) as [[c rest]|] eqn:E.
  - apply (match_here_consumes _ _ _ r_consumes) in E. cbn [snd length] in *.
    do 2 f_equal. apply IH; lia.
  - cbn [length] in *. apply IH; lia.
Qed.

End Fuel.

(** Every pattern the sources scan with consumes input. *)
Lemma scanned_patterns_consume :
  consumes Api.token_re = true /\ consumes Api.escaped_newline_re = true /\
  consumes ChatUI.spaces_re = true /\ consumes ChatUI.cr_re = true /\
  consumes ChatUI.blank_run_re = true /\ consumes ChatUI.bold_re = true.
Proof. repeat split; reflexivity. Qed.

(* ================================================================== *)
(** * The Structured Renderer: sections *)
(* ================================================================== *)

Lemma Matches_cat_inv (a b : regex) (s s2 : jsstring) :
  Matches (Cat a b) s s2 -> exists s1, Matches a s s1 /\ Matches b s1 s2.
Proof. intro H. inversion H; subst. eauto. Qed.

Lemma Matches_alt_inv (a b : regex) (s s' : jsstring) :
  Matches (Alt a b) s s' -> Matches a s s' \/ Matches b s s'.
Proof. intro H. inversion H; subst; auto. Qed.

Lemma Matches_cls_inv (p : code_unit -> bool) (s s' : jsstring) :
  Matches (Cls p) s s' -> exists x, s = x :: s' /\ p x = true.
Proof. intro H. inversion H; subst. eauto. Qed.

Lemma Matches_group_inv (i : nat) (r : regex) (s s' : jsstring) :
  Matches (Group i r) s s' -> Matches r s s'.
Proof. intro H. now inversion H; subst. Qed.

(** White space, one unit accepted by [p], white space. *)
Lemma spaced_unit_match (p : code_unit -> bool) (s s' : jsstring) :
  Matches (Cat (Star is_white_space) (Cat (Cls p) (Star is_white_space))) s s' ->
  exists w x r, s = w ++ x :: r /\ p x = true.
Proof.
  intro H. apply Matches_cat_inv in H as (s1 & H1 & H).
  apply Matches_cat_inv in H as (s2 & H2 & _).
  apply Matches_suffix in H1 as [w ->].
  apply Matches_cls_inv in H2 as (x & -> & Hx).
  now exists w, x, s2.
Qed.

(** The separator part of the title pattern consumes a dash or a colon. *)
Lemma separator_match (s s' : jsstring) :
  Matches
    (Alt (Cat (Star is_white_space) (Cat (Cls ChatUI.dash) (Star is_white_space)))
         (Cat (Star is_white_space) (Cat (Cls (one (ch ":"))) (Star is_white_space))))
    s s' ->
  exists w x r, s = w ++ x :: r /\ separator x = true.
Proof.
  intro H. apply Matches_alt_inv in H as [H | H];
    apply spaced_unit_match in H as (w & x & r & -> & Hx);
    exists w, x, r; (split; [reflexivity|]); unfold separator.
  - now rewrite Hx.
  - unfold one in Hx. fold COLON in Hx. rewrite Hx. apply orb_true_r.
Qed.

(** A line that matches the title pattern has a separator after its
    first unit. *)
Lemma title_needs_separator (h : code_unit) (t : jsstring) (res : captures * jsstring) :
  match_here ChatUI.titleRe (h :: t) = Some res ->
  exists c, In c t /\ separator c = true.
Proof.
  intro H. apply match_here_sound in H.
  unfold ChatUI.titleRe, Opt, LazyPlus in H.
  apply Matches_cat_inv in H as (s1 & H1 & H).
  apply Matches_cat_inv in H as (s2 & H2 & H).
  apply Matches_cat_inv in H as (s3 & H3 & H).
  apply Matches_cat_inv in H as (s4 & H4 & _).
  apply Matches_suffix in H1 as [p1 E1].
  apply Matches_suffix in H2 as [p2 ->].
  apply Matches_group_inv, Matches_cat_inv in H3 as (s2' & Hy & H3).
  apply Matches_cls_inv in Hy as (y & -> & _).
  apply Matches_suffix in H3 as [p3 ->].
  apply separator_match in H4 as (w & c & r & -> & Hc).
  exists c. split; [|exact Hc].
  assert (E : h :: t = (p1 ++ p2 ++ y :: p3 ++ w) ++ c :: r).
  { rewrite E1. repeat rewrite <- app_assoc. simpl. now repeat rewrite <- app_assoc. }
  destruct (p1 ++ p2 ++ y :: p3 ++ w) as [|z pre] eqn:Ep.
  - destruct p1; [destruct p2|]; discriminate.
  - simpl in E. injection E as _ ->. apply in_or_app. right. now left.
Qed.

Lemma separator_not_space (c : code_unit) :
  separator c = true -> is_white_space c = false.
Proof.
  unfold separator, ChatUI.dash. intro H.
  apply orb_true_iff in H as [H | H]; [apply orb_true_iff in H as [H | H]|];
    apply N.eqb_eq in H; subst c; reflexivity.
Qed.

(** A bullet line whose text has no separator is not a title line. *)
Lemma bullet_is_no_title (sp text : jsstring) :
  forallb is_white_space sp = true ->
  forallb (fun c => negb (separator c)) text = true ->
  match_here ChatUI.titleRe (ch "-" :: sp ++ text) = None.
Proof.
  intros Hsp Htext.
  destruct (match_here ChatUI.titleRe (ch "-" :: sp ++ text)) as [res|] eqn:E;
    [|reflexivity].
  exfalso. apply title_needs_separator in E as (c & Hin & Hc).
  apply in_app_or in Hin as [Hin | Hin].
  - rewrite forallb_forall in Hsp. specialize (Hsp c Hin).
    apply separator_not_space in Hc. congruence.
  - rewrite forallb_forall in Htext. specialize (Htext c Hin).
    now rewrite Hc in Htext.
Qed.

(** The bullet pattern takes the dash and all the white space after it. *)
Lemma match_bullet_re (w x : code_unit) (sp text : jsstring) :
  forallb is_white_space (w :: sp) = true -> is_white_space x = false ->
  match_here ChatUI.bullet_re (ch "-" :: (w :: sp) ++ x :: text) = Some ([], x :: text).
Proof.
  intros Hsp Hx. simpl in Hsp. apply andb_true_iff in Hsp as [Hw Hsp].
  unfold match_here, ChatUI.bullet_re, Plus. cbn [run app]. unfold one at 1.
  rewrite N.eqb_refl, Hw, greedy_star_final.
  rewrite drop_while_app_all by exact Hsp. now rewrite drop_while_stop.
Qed.

(** C6, as stated, fails: the rendering has five sections, not two; each
    bullet line opens a section of its own. *)
Lemma two_city_counterexample :
  ChatUI.formatAgentMessage MESSAGE
  = ChatUI.Cards
      [ChatUI.mkCard (str "Mumbai") [ChatUI.Labeled (str "Now") []];
       ChatUI.mkCard (str "Temperature") [ChatUI.Plain [ChatUI.Span (str "28C")]];
       ChatUI.mkCard (str "Humidity") [ChatUI.Plain [ChatUI.Span (str "60%")]];
       ChatUI.mkCard (str "Delhi") [ChatUI.Labeled (str "Tomorrow") []];
       ChatUI.mkCard (str "Temperature") [ChatUI.Plain [ChatUI.Span (str "32C")]]] /\
  ~ (exists c1 c2,
        ChatUI.formatAgentMessage MESSAGE = ChatUI.Cards [c1; c2] /\
        ChatUI.heading c1 = str "Mumbai" /\ ChatUI.heading c2 = str "Delhi" /\
        length (ChatUI.items c1) = 2%nat /\ length (ChatUI.items c2) = 2%nat).
Proof.
  assert (E : ChatUI.formatAgentMessage MESSAGE
              = ChatUI.Cards
                  [ChatUI.mkCard (str "Mumbai") [ChatUI.Labeled (str "Now") []];
                   ChatUI.mkCard (str "Temperature") [ChatUI.Plain [ChatUI.Span (str "28C")]];
                   ChatUI.mkCard (str "Humidity") [ChatUI.Plain [ChatUI.Span (str "60%")]];
                   ChatUI.mkCard (str "Delhi") [ChatUI.Labeled (str "Tomorrow") []];
                   ChatUI.mkCard (str "Temperature") [ChatUI.Plain [ChatUI.Span (str "32C")]]])
    by (vm_compute; reflexivity).
  split; [exact E|].
  intros (c1 & c2 & H & _). rewrite E in H. discriminate H.
Qed.

Lemma firstn_consumed (p c : jsstring) :
  firstn (length (p ++ c) - length c) (p ++ c) = p.
Proof.
  rewrite length_app, Nat.add_sub. rewrite firstn_app, Nat.sub_diag, firstn_all.
  cbn [firstn]. apply app_nil_r.
Qed.

(** A lazy run passes over the units at which what follows cannot
    start. *)
Lemma lazy_star_skip (p : code_unit -> bool) (k : cont) :
  (forall y s c, p y = true -> k (y :: s) c = None) ->
  forall d t c, forallb p d = true -> lazy_star p k (d ++ t) c = lazy_star p k t c.
Proof.
  intros Hk d t c. induction d as [|x d IH]; intro H; [reflexivity|].
  cbn [forallb] in H. apply andb_true_iff in H as [Hx Hd].
  cbn [app lazy_star]. rewrite (Hk x _ _ Hx), Hx. now apply IH.
Qed.

Lemma lazy_star_now (p : code_unit -> bool) (k : cont) (t : jsstring) (c : captures)
    (res : captures * jsstring) :
  k t c = Some res -> lazy_star p k t c = Some res.
Proof. intro H. destruct t; cbn [lazy_star]; now rewrite H. Qed.

(** A greedy run keeps all of a run of its class when what follows
    matches after it. *)
Lemma greedy_star_take (p : code_unit -> bool) (k : cont) (t : jsstring)
    (c : captures) (res : captures * jsstring) :
  greedy_star p k t c = Some res ->
  forall d, forallb p d = true -> greedy_star p k (d ++ t) c = Some res.
Proof.
  intros H d. induction d as [|x d IH]; intro Hd; [exact H|].
  cbn [forallb] in Hd. apply andb_true_iff in Hd as [Hx Hd].
  cbn [app greedy_star]. now rewrite Hx, (IH Hd).
Qed.

Lemma greedy_star_stop (k : cont) (t : jsstring) (c : captures) :
  no_leading_space t = true -> greedy_star is_white_space k t c = k t c.
Proof.
  destruct t as [|y t]; [reflexivity|]. cbn [no_leading_space greedy_star].
  intro H. apply negb_true_iff in H. now rewrite H.
Qed.

Lemma drop_while_all (p : code_unit -> bool) (s : jsstring) :
  forallb p s = true -> drop_while p s = [].
Proof.
  induction s as [|x s IH]; [reflexivity|]. cbn [forallb drop_while]. intro H.
  apply andb_true_iff in H as [Hx Hs]. rewrite Hx. now apply IH.
Qed.

Lemma label_char_not_colon (y : code_unit) :
  ChatUI.label_char y = true -> (y =? ch ":") = false.
Proof.
  intro H. destruct (y =? ch ":") eqn:E; [|reflexivity].
  apply N.eqb_eq in E. subst y. discriminate H.
Qed.

(** The label pattern on a row [label: text]. *)
Lemma match_label_re (x : code_unit) (l w rest : jsstring) :
  ChatUI.label_char x = true -> is_white_space x = false ->
  forallb ChatUI.label_char l = true -> forallb is_white_space w = true ->
  no_leading_space rest = true -> forallb dot rest = true ->
  match_here ChatUI.labelRe (x :: l ++ COLON :: w ++ rest)
  = Some ([(2%nat, rest); (1%nat, x :: l)], []).
Proof.
  intros Hx Hxs Hl Hw Hr Hd.
  unfold match_here, ChatUI.labelRe, LazyPlus.
  cbn [run]. cbn [greedy_star]. rewrite Hxs, Hx.
  rewrite lazy_star_skip;
    [ | intros y s' c' Hy; unfold one; now rewrite (label_char_not_colon y Hy) | exact Hl].
  apply lazy_star_now. unfold COLON at 1. unfold one. rewrite N.eqb_refl.
  apply greedy_star_take; [|exact Hw].
  rewrite greedy_star_stop by exact Hr.
  rewrite greedy_star_skip by (intros; reflexivity).
  rewrite (drop_while_all dot rest Hd). cbn [length]. rewrite Nat.sub_0_r, firstn_all.
  do 5 f_equal. exact (firstn_consumed (x :: l) (COLON :: w ++ rest)).
Qed.

(** C6, amended.  In the rendering of the message the title lines
    [Mumbai -- Now:] and [Delhi -- Tomorrow:] open sections titled
    [Mumbai] and [Delhi], the first one first, and the text after the
    separator is the first row of each, shown as the bold label [Now],
    [Tomorrow] with an empty remainder.  The texts the rendering shows,
    headings, labels, remainders and row texts in display order, are
    Mumbai, Now, the empty remainder, Temperature, 28C, Humidity, 60%,
    Delhi, Tomorrow, the empty remainder, Temperature, 32C: the label
    and the value of every bullet line are shown, after the heading of
    their city.  In general, a row of the shape [label: text], whose
    label is made of letters, spaces and parentheses and starts with no
    white space, and whose text holds no line terminator and starts with
    no white space, is shown as the bold label and the text.  Under an
    open section, a bullet line, a dash and white space before a text
    without colon, hyphen or em dash, becomes a row of that section with
    the dash and the white space stripped. *)
Theorem title_lines_open_sections :
  (exists rows1 between rows2 after,
      ChatUI.formatAgentMessage MESSAGE
      = ChatUI.Cards
          (ChatUI.mkCard (str "Mumbai") (ChatUI.Labeled (str "Now") [] :: rows1)
           :: between
           ++ ChatUI.mkCard (str "Delhi") (ChatUI.Labeled (str "Tomorrow") [] :: rows2)
           :: after)) /\
  shown (ChatUI.formatAgentMessage MESSAGE)
  = [str "Mumbai"; str "Now"; []; str "Temperature"; str "28C";
     str "Humidity"; str "60%";
     str "Delhi"; str "Tomorrow"; []; str "Temperature"; str "32C"] /\
  (forall (x : code_unit) (l w rest : jsstring),
      ChatUI.label_char x = true -> is_white_space x = false ->
      forallb ChatUI.label_char l = true -> forallb is_white_space w = true ->
      no_leading_space rest = true -> forallb dot rest = true ->
      ChatUI.render_row (x :: l ++ COLON :: w ++ rest) = ChatUI.Labeled (x :: l) rest) /\
  (forall (closed : list ChatUI.Section) (cur : ChatUI.Section)
          (raw : jsstring) (w x : code_unit) (sp text : jsstring),
      trim raw = ch "-" :: (w :: sp) ++ x :: text ->
      forallb is_white_space (w :: sp) = true ->
      is_white_space x = false ->
      forallb (fun c => negb (separator c)) (x :: text) = true ->
      ChatUI.section_step (closed, Some cur) raw
      = (closed,
         Some (ChatUI.mkSection (ChatUI.title cur) (ChatUI.rows cur ++ [x :: text])))).
Proof.
  split; [|split; [|split]].
  - exists [], [ChatUI.mkCard (str "Temperature") [ChatUI.Plain [ChatUI.Span (str "28C")]];
               ChatUI.mkCard (str "Humidity") [ChatUI.Plain [ChatUI.Span (str "60%")]]],
      [], [ChatUI.mkCard (str "Temperature") [ChatUI.Plain [ChatUI.Span (str "32C")]]].
    vm_compute. reflexivity.
  - vm_compute. reflexivity.
  - intros x l w rest Hx Hxs Hl Hw Hr Hd.
    unfold ChatUI.render_row, ChatUI.emphasizeLabel.
    rewrite (match_label_re x l w rest Hx Hxs Hl Hw Hr Hd).
    unfold ChatUI.group. now cbn [capture Nat.eqb].
  - intros closed cur raw w x sp text Ht Hsp Hx Htext.
    unfold ChatUI.section_step. rewrite Ht. cbn [nonempty negb].
    rewrite bullet_is_no_title by assumption.
    unfold test_start, strip_start.
    now rewrite match_bullet_re by assumption.
Qed.

Lemma title_lines_open_sections_witness :
  let raw := str "  - sunny all day " in
  ChatUI.render_row (str "Temperature: 28C")
  = ChatUI.Labeled (str "Temperature") (str "28C") /\
  ChatUI.render_row (str "Now:") = ChatUI.Labeled (str "Now") [] /\
  trim raw = ch "-" :: (ch " " :: []) ++ ch "s" :: str "unny all day" /\
  ChatUI.section_step ([], Some (ChatUI.mkSection (str "Mumbai") [str "Now:"])) raw
  = ([], Some (ChatUI.mkSection (str "Mumbai") [str "Now:"; str "sunny all day"])).
Proof.
  intro raw.
  destruct title_lines_open_sections as (_ & _ & Hrow & Hbullet).
  split; [|split; [|split; [reflexivity|]]].
  - apply (Hrow (ch "T") (str "emperature") (str " ") (str "28C")); reflexivity.
  - apply (Hrow (ch "N") (str "ow") [] []); reflexivity.
  - apply (Hbullet [] (ChatUI.mkSection (str "Mumbai") [str "Now:"]) raw
             (ch " ") (ch "s") [] (str "unny all day")); reflexivity.
Defined.

(* ================================================================== *)
(** * The Structured Renderer: growing messages *)
(* ================================================================== *)

(** ** Normalization *)

Lemma replace_cr_fuel (n : nat) :
  forall s, (length s < n)%nat -> replace_all_fuel n ChatUI.cr_re [] s = strip_cr s.
Proof.
  induction n as [|n IH]; intros s H; [lia|].
  destruct s as [|x s]; [reflexivity|].
  cbn [replace_all_fuel]. unfold match_here, ChatUI.cr_re. cbn [run]. unfold one.
  simpl in H. unfold strip_cr. cbn [filter].
  destruct (x =? CR); cbn [negb app]; [|f_equal]; apply IH; lia.
Qed.

Lemma replace_cr (s : jsstring) : replace_all ChatUI.cr_re [] s = strip_cr s.
Proof. apply replace_cr_fuel. lia. Qed.

Lemma strip_cr_app (s t : jsstring) : strip_cr (s ++ t) = strip_cr s ++ strip_cr t.
Proof. apply filter_app. Qed.

Lemma drop_while_length (p : code_unit -> bool) (s : jsstring) :
  (length (drop_while p s) <= length s)%nat.
Proof.
  induction s as [|x s IH]; simpl; [lia|]. destruct (p x); simpl; lia.
Qed.

(** The blank-run pattern matches three line feeds and all that follow. *)
Lemma match_blank_run (u : jsstring) :
  match_here ChatUI.blank_run_re u
  = match u with
    | a :: b :: c :: u3 =>
        if (a =? LF) && (b =? LF) && (c =? LF)
        then Some ([], drop_while (one LF) u3)
        else None
    | _ => None
    end.
Proof.
  unfold match_here, ChatUI.blank_run_re. cbn [Lit run]. unfold one at 1 2 3.
  destruct u as [|a [|b [|c u3]]]; try reflexivity.
  - now destruct (a =? LF).
  - destruct (a =? LF); [|reflexivity]. now destruct (b =? LF).
  - destruct (a =? LF); [|reflexivity]. destruct (b =? LF); [|reflexivity].
    destruct (c =? LF); [|reflexivity]. apply greedy_star_final.
Qed.

Section Passes.
(** A pass over the lines that treats a second empty line in a row
    like the first. *)
Context {S : Type} (f : S -> jsstring -> S).
Hypothesis blank_idempotent : forall st, f (f st []) [] = f st [].

Lemma fold_skip_blank (u : jsstring) :
  forall st, f st [] = st ->
    fold_left f (split_acc LF [] u) st
    = fold_left f (split_acc LF [] (drop_while (one LF) u)) st.
Proof.
  induction u as [|x u IH]; intros st Hst; [reflexivity|].
  cbn [drop_while]. unfold one at 1.
  destruct (x =? LF) eqn:E; [|reflexivity].
  cbn [split_acc]. rewrite E. cbn [fold_left]. rewrite Hst. now apply IH.
Qed.

Lemma fold_collapse_fuel (n : nat) :
  forall u acc st, (length u < n)%nat ->
    fold_left f (split_acc LF acc (replace_all_fuel n ChatUI.blank_run_re [LF; LF] u)) st
    = fold_left f (split_acc LF acc u) st.
Proof.
  induction n as [|n IH]; intros u acc st H; [lia|].
  destruct u as [|x u]; [reflexivity|].
  cbn [replace_all_fuel]. rewrite match_blank_run.
  assert (Hstep : fold_left f (split_acc LF acc
                                 (x :: replace_all_fuel n ChatUI.blank_run_re [LF; LF] u)) st
                  = fold_left f (split_acc LF acc (x :: u)) st).
  { cbn [split_acc]. simpl in H.
    destruct (x =? LF); cbn [fold_left]; apply IH; lia. }
  destruct u as [|b [|c u3]]; try exact Hstep.
  destruct ((x =? LF) && (b =? LF) && (c =? LF)) eqn:E; [|exact Hstep].
  apply andb_true_iff in E as [E Ec]. apply andb_true_iff in E as [Ex Eb].
  apply N.eqb_eq in Ex, Eb, Ec. subst x b c. clear Hstep.
  cbn [app split_acc]. rewrite !N.eqb_refl. cbn [fold_left].
  rewrite IH by (pose proof (drop_while_length (one LF) u3); simpl in H; lia).
  rewrite blank_idempotent.
  symmetry. apply fold_skip_blank. apply blank_idempotent.
Qed.

(** The pass does not see the collapsing of blank runs. *)
Lemma fold_normalize (s : jsstring) (st : S) :
  fold_left f (split LF (ChatUI.normalize s)) st = fold_left f (plain_lines s) st.
Proof.
  unfold ChatUI.normalize, plain_lines, split. rewrite replace_cr.
  unfold replace_all. apply fold_collapse_fuel. lia.
Qed.

(** The pass over a longer message goes on from where the pass over
    the lines before the last line of the shorter message stood. *)
Lemma fold_plain_lines_app (s t : jsstring) (st : S) :
  exists before last more,
    plain_lines s = before ++ [last] /\
    fold_left f (plain_lines (s ++ t)) st
    = fold_left f more (fold_left f before st).
Proof.
  unfold plain_lines. rewrite strip_cr_app. unfold split.
  rewrite split_acc_app.
  exists (removelast (split_acc LF [] (strip_cr s))),
    (last (split_acc LF [] (strip_cr s)) []),
    (split_acc LF (last (split_acc LF [] (strip_cr s)) []) (strip_cr t)).
  split.
  - apply app_removelast_last. apply split_acc_nonempty.
  - apply fold_left_app.
Qed.

End Passes.

(** ** Units only accumulate *)

Lemma but_last_prefix {A : Type} (a x more : list A) :
  (length x <= 2)%nat -> exists m, a ++ more = but_last 2 (a ++ x) ++ m.
Proof.
  intro H. unfold but_last. rewrite length_app.
  rewrite firstn_app.
  replace (length a + length x - 2 - length a)%nat with 0%nat by lia.
  rewrite firstn_O, app_nil_r.
  exists (skipn (length a + length x - 2) a ++ more).
  now rewrite app_assoc, firstn_skipn.
Qed.

Lemma but_last_map {A B : Type} (g : A -> B) (n : nat) (l : list A) :
  but_last n (map g l) = map g (but_last n l).
Proof. unfold but_last. now rewrite length_map, firstn_map. Qed.

Lemma section_step_blank (st : list ChatUI.Section * option ChatUI.Section) :
  ChatUI.section_step st [] = st.
Proof. now destruct st. Qed.

Lemma section_step_grows (st : list ChatUI.Section * option ChatUI.Section)
    (line : jsstring) :
  (exists more, fst (ChatUI.section_step st line) = fst st ++ more) /\
  exists x, ChatUI.close (ChatUI.section_step st line) = fst st ++ x /\
            (length x <= 2)%nat.
Proof.
  destruct st as [closed cur]. unfold ChatUI.section_step, ChatUI.close.
  destruct (negb (nonempty (trim line))).
  - cbn [fst snd]. split; [exists []; now rewrite app_nil_r|].
    destruct cur as [c|].
    + exists [c]. split; [reflexivity | simpl; lia].
    + exists []. split; [now rewrite app_nil_r | simpl; lia].
  - destruct (match_here ChatUI.titleRe (trim line)) as [[m rest]|].
    + destruct cur as [c|]; cbn [fst snd].
      * split; [now exists [c]|].
        eexists [c; _]. split; [now rewrite <- app_assoc | simpl; lia].
      * split; [exists []; now rewrite app_nil_r|].
        eexists [_]. split; [reflexivity | simpl; lia].
    + destruct cur as [c|]; cbn [fst snd].
      * split; [exists []; now rewrite app_nil_r|].
        eexists [_]. split; [reflexivity | simpl; lia].
      * split; [exists []; now rewrite app_nil_r|].
        exists []. split; [now rewrite app_nil_r | simpl; lia].
Qed.

Lemma fold_section_grows (lines : list jsstring) :
  forall st, exists more,
    fst (fold_left ChatUI.section_step lines st) = fst st ++ more.
Proof.
  induction lines as [|l lines IH]; intro st.
  - exists []. now rewrite app_nil_r.
  - cbn [fold_left]. destruct (IH (ChatUI.section_step st l)) as [m1 E1].
    destruct (section_step_grows st l) as [[m0 E0] _].
    exists (m0 ++ m1). now rewrite E1, E0, app_assoc.
Qed.

Lemma close_grows (st : list ChatUI.Section * option ChatUI.Section) :
  exists more, ChatUI.close st = fst st ++ more.
Proof.
  destruct st as [closed [c|]]; unfold ChatUI.close; cbn [fst snd].
  - now exists [c].
  - exists []. now rewrite app_nil_r.
Qed.

(** The sections of a longer message start with all but the last two
    sections of the shorter one. *)
Lemma sections_accumulate (s t : jsstring) :
  exists m,
    ChatUI.detect_sections (plain_lines (s ++ t))
    = but_last 2 (ChatUI.detect_sections (plain_lines s)) ++ m.
Proof.
  unfold ChatUI.detect_sections.
  destruct (fold_plain_lines_app ChatUI.section_step s t ([], None))
    as (before & l & more & Eb & Ef).
  rewrite Ef, Eb, fold_left_app. cbn [fold_left].
  set (st := fold_left ChatUI.section_step before ([], None)).
  destruct (section_step_grows st l) as (_ & x & Ex & Hx).
  destruct (fold_section_grows more st) as [m1 E1].
  destruct (close_grows (fold_left ChatUI.section_step more st)) as [m2 E2].
  rewrite Ex, E2, E1, <- app_assoc.
  now apply but_last_prefix.
Qed.

Lemma flushList_idempotent (st : list ChatUI.element * list (list ChatUI.span)) :
  ChatUI.flushList (ChatUI.flushList st) = ChatUI.flushList st.
Proof. destruct st as [els [|i lb]]; reflexivity. Qed.

Lemma fallback_step_blank (st : list ChatUI.element * list (list ChatUI.span)) :
  ChatUI.fallback_step st [] = ChatUI.flushList st.
Proof. reflexivity. Qed.

Lemma flushList_grows (st : list ChatUI.element * list (list ChatUI.span)) :
  exists x, fst (ChatUI.flushList st) = fst st ++ x /\ (length x <= 1)%nat /\
            snd (ChatUI.flushList st) = [].
Proof.
  destruct st as [els [|i lb]]; unfold ChatUI.flushList; cbn [fst snd].
  - exists []. rewrite app_nil_r. repeat split. simpl. lia.
  - eexists [_]. repeat split. simpl. lia.
Qed.

Lemma fallback_step_grows (st : list ChatUI.element * list (list ChatUI.span))
    (line : jsstring) :
  (exists more, fst (ChatUI.fallback_step st line) = fst st ++ more) /\
  exists x, fst (ChatUI.flushList (ChatUI.fallback_step st line)) = fst st ++ x /\
            (length x <= 2)%nat.
Proof.
  destruct (flushList_grows st) as (x & Ex & Hx & Es).
  unfold ChatUI.fallback_step.
  destruct (negb (nonempty (trim line))).
  - split; [now exists x|]. rewrite flushList_idempotent.
    exists x. split; [exact Ex | lia].
  - destruct (startsWith (str "**") (trim line) && endsWith (str "**") (trim line)).
    { destruct (ChatUI.flushList st) as [els lb]. cbn [fst snd] in *. subst els lb.
      split; [eexists; now rewrite <- app_assoc|].
      eexists (x ++ [_]). cbn [ChatUI.flushList fst snd].
      split; [now rewrite <- app_assoc | rewrite length_app; simpl; lia]. }
    destruct (test_start ChatUI.letter_re (trim line)).
    { destruct (ChatUI.flushList st) as [els lb]. cbn [fst snd] in *. subst els lb.
      split; [eexists; now rewrite <- app_assoc|].
      eexists (x ++ [_]). cbn [ChatUI.flushList fst snd].
      split; [now rewrite <- app_assoc | rewrite length_app; simpl; lia]. }
    destruct (startsWith (str "- ") (trim line)).
    { split; [exists []; cbn [fst]; now rewrite app_nil_r|].
      destruct (flushList_grows (fst st, snd st ++ [ChatUI.renderInlineBold
                                                      (slice_from 2 (trim line))]))
        as (y & Ey & Hy & _).
      exists y. split; [exact Ey | lia]. }
    destruct (ChatUI.flushList st) as [els lb]. cbn [fst snd] in *. subst els lb.
    split; [eexists; now rewrite <- app_assoc|].
    eexists (x ++ [_]). cbn [ChatUI.flushList fst snd].
    split; [now rewrite <- app_assoc | rewrite length_app; simpl; lia].
Qed.

Lemma fold_fallback_grows (lines : list jsstring) :
  forall st, exists more,
    fst (fold_left ChatUI.fallback_step lines st) = fst st ++ more.
Proof.
  induction lines as [|l lines IH]; intro st.
  - exists []. now rewrite app_nil_r.
  - cbn [fold_left]. destruct (IH (ChatUI.fallback_step st l)) as [m1 E1].
    destruct (fallback_step_grows st l) as [[m0 E0] _].
    exists (m0 ++ m1). now rewrite E1, E0, app_assoc.
Qed.

(** The flat elements of a longer message start with all but the last
    two elements of the shorter one. *)
Lemma elements_accumulate (s t : jsstring) :
  exists m,
    ChatUI.fallback (plain_lines (s ++ t))
    = but_last 2 (ChatUI.fallback (plain_lines s)) ++ m.
Proof.
  unfold ChatUI.fallback.
  destruct (fold_plain_lines_app ChatUI.fallback_step s t ([], []))
    as (before & l & more & Eb & Ef).
  rewrite Ef, Eb, fold_left_app. cbn [fold_left].
  set (st := fold_left ChatUI.fallback_step before ([], [])).
  destruct (fallback_step_grows st l) as (_ & x & Ex & Hx).
  destruct (fold_fallback_grows more st) as [m1 E1].
  destruct (flushList_grows (fold_left ChatUI.fallback_step more st)) as (m2 & E2 & _).
  rewrite Ex, E2, E1, <- app_assoc.
  now apply but_last_prefix.
Qed.

Lemma format_by_plain_lines (s : jsstring) :
  ChatUI.formatAgentMessage s
  = if (0 <? length (ChatUI.detect_sections (plain_lines s)))%nat
    then ChatUI.Cards (map ChatUI.render_section (ChatUI.detect_sections (plain_lines s)))
    else ChatUI.Flat (ChatUI.fallback (plain_lines s)).
Proof.
  unfold ChatUI.formatAgentMessage, ChatUI.detect_sections, ChatUI.fallback.
  cbv zeta.
  rewrite (fold_normalize ChatUI.section_step)
    by (intro st; now rewrite !section_step_blank).
  rewrite (fold_normalize ChatUI.fallback_step)
    by (intro st; rewrite !fallback_step_blank; apply flushList_idempotent).
  reflexivity.
Qed.

(** C7, as stated, fails.  A title line at the end of a message that was
    rendered as paragraphs switches the rendering to sections, and the
    paragraphs are gone, also the one that was not the last.  And within
    the flat form a list before the last paragraph is extended when that
    paragraph turns into a list item. *)
Lemma render_append_counterexample :
  let s := str "Hello" ++ [LF] ++ str "World" in
  let t := [LF] ++ str "City: sunny" in
  let s2 := str "- a" ++ [LF] ++ str "-" in
  let t2 := str " b" in
  ChatUI.formatAgentMessage s
  = ChatUI.Flat [ChatUI.Paragraph [ChatUI.Span (str "Hello")];
                 ChatUI.Paragraph [ChatUI.Span (str "World")]] /\
  ChatUI.formatAgentMessage (s ++ t)
  = ChatUI.Cards [ChatUI.mkCard (str "City") [ChatUI.Plain [ChatUI.Span (str "sunny")]]] /\
  ~ (exists more,
        ChatUI.units (ChatUI.formatAgentMessage (s ++ t))
        = removelast (ChatUI.units (ChatUI.formatAgentMessage s)) ++ more) /\
  ChatUI.formatAgentMessage s2
  = ChatUI.Flat [ChatUI.UL [[ChatUI.Span (str "a")]];
                 ChatUI.Paragraph [ChatUI.Span (str "-")]] /\
  ChatUI.formatAgentMessage (s2 ++ t2)
  = ChatUI.Flat [ChatUI.UL [[ChatUI.Span (str "a")]; [ChatUI.Span (str "b")]]] /\
  ~ (exists more,
        ChatUI.units (ChatUI.formatAgentMessage (s2 ++ t2))
        = removelast (ChatUI.units (ChatUI.formatAgentMessage s2)) ++ more).
Proof.
  intros s t s2 t2.
  assert (E1 : ChatUI.formatAgentMessage s
               = ChatUI.Flat [ChatUI.Paragraph [ChatUI.Span (str "Hello")];
                              ChatUI.Paragraph [ChatUI.Span (str "World")]])
    by (vm_compute; reflexivity).
  assert (E2 : ChatUI.formatAgentMessage (s ++ t)
               = ChatUI.Cards [ChatUI.mkCard (str "City")
                                 [ChatUI.Plain [ChatUI.Span (str "sunny")]]])
    by (vm_compute; reflexivity).
  assert (E3 : ChatUI.formatAgentMessage s2
               = ChatUI.Flat [ChatUI.UL [[ChatUI.Span (str "a")]];
                              ChatUI.Paragraph [ChatUI.Span (str "-")]])
    by (vm_compute; reflexivity).
  assert (E4 : ChatUI.formatAgentMessage (s2 ++ t2)
               = ChatUI.Flat [ChatUI.UL [[ChatUI.Span (str "a")]; [ChatUI.Span (str "b")]]])
    by (vm_compute; reflexivity).
  repeat split; try assumption.
  - rewrite E1, E2. intros [more H]. discriminate H.
  - rewrite E3, E4. intros [more H]. discriminate H.
Qed.

(** C7, amended.  When the renderings of a buffer [s] and of [s + t]
    have the same form, both sections or both flat, every unit of the
    rendering of [s] but its last two stands unchanged, in order, at the
    start of the rendering of [s + t]; and when the rendering of [s] has
    three or more sections, the rendering of [s + t] is in sections
    again. *)
Theorem render_keeps_earlier_units (s t : jsstring) :
  let d := ChatUI.formatAgentMessage s in
  let d' := ChatUI.formatAgentMessage (s ++ t) in
  (same_form d d' = true ->
   exists more, ChatUI.units d' = but_last 2 (ChatUI.units d) ++ more) /\
  (forall cards, d = ChatUI.Cards cards -> (3 <= length cards)%nat ->
                 exists cards', d' = ChatUI.Cards cards').
Proof.
  intros d d'. unfold d, d'. rewrite !format_by_plain_lines.
  destruct (sections_accumulate s t) as [ms Es].
  destruct (elements_accumulate s t) as [me Ee].
  set (secs := ChatUI.detect_sections (plain_lines s)) in *.
  set (secs' := ChatUI.detect_sections (plain_lines (s ++ t))) in *.
  split.
  - destruct (0 <? length secs)%nat, (0 <? length secs')%nat;
      cbn [same_form ChatUI.units]; try discriminate; intros _.
    + exists (map ChatUI.CardUnit (map ChatUI.render_section ms)).
      now rewrite Es, !map_app, !but_last_map.
    + exists (map ChatUI.FlatUnit me).
      now rewrite Ee, map_app, but_last_map.
  - intros cards Hc Hlen.
    destruct (0 <? length secs)%nat; [|discriminate].
    injection Hc as <-. rewrite length_map in Hlen.
    assert (Hn : (0 <? length secs')%nat = true).
    { apply Nat.ltb_lt. rewrite Es, length_app. unfold but_last.
      rewrite length_firstn. lia. }
    rewrite Hn. eauto.
Qed.

Lemma render_keeps_earlier_units_witness :
  let s := str "Pune: hot" ++ [LF] ++ str "Goa: wet" ++ [LF] ++ str "Agra: dry" ++ [LF]
           ++ str "no rain" in
  let t := str " today" ++ [LF] ++ str "Kochi: humid" in
  same_form (ChatUI.formatAgentMessage s) (ChatUI.formatAgentMessage (s ++ t)) = true /\
  ChatUI.formatAgentMessage s
  = ChatUI.Cards
      [ChatUI.mkCard (str "Pune") [ChatUI.Plain [ChatUI.Span (str "hot")]];
       ChatUI.mkCard (str "Goa") [ChatUI.Plain [ChatUI.Span (str "wet")]];
       ChatUI.mkCard (str "Agra") [ChatUI.Plain [ChatUI.Span (str "dry")];
                                   ChatUI.Plain [ChatUI.Span (str "no rain")]]] /\
  (exists more,
      ChatUI.units (ChatUI.formatAgentMessage (s ++ t))
      = but_last 2 (ChatUI.units (ChatUI.formatAgentMessage s)) ++ more) /\
  (exists cards', ChatUI.formatAgentMessage (s ++ t) = ChatUI.Cards cards').
Proof.
  intros s t.
  assert (F : same_form (ChatUI.formatAgentMessage s)
                (ChatUI.formatAgentMessage (s ++ t)) = true)
    by (vm_compute; reflexivity).
  assert (E : ChatUI.formatAgentMessage s
              = ChatUI.Cards
                  [ChatUI.mkCard (str "Pune") [ChatUI.Plain [ChatUI.Span (str "hot")]];
                   ChatUI.mkCard (str "Goa") [ChatUI.Plain [ChatUI.Span (str "wet")]];
                   ChatUI.mkCard (str "Agra") [ChatUI.Plain [ChatUI.Span (str "dry")];
                                               ChatUI.Plain [ChatUI.Span (str "no rain")]]])
    by (vm_compute; reflexivity).
  destruct (render_keeps_earlier_units s t) as [H1 H2].
  split; [exact F|]. split; [exact E|]. split.
  - apply H1. exact F.
  - apply (H2 _ E). simpl. lia.
Defined.

(* ================================================================== *)
(** * Further properties: the extractor *)
(* ================================================================== *)

Lemma trimStart_spaces (ws s : jsstring) :
  forallb is_white_space ws = true -> trimStart (ws ++ s) = trimStart s.
Proof.
  induction ws as [|w ws IH]; simpl; intro H; [reflexivity|].
  apply andb_true_iff in H as [Hw Hws]. rewrite Hw. now apply IH.
Qed.

Lemma trimStart_keeps_from (l m : jsstring) (y : code_unit) :
  is_white_space y = false -> exists u, trimStart (l ++ y :: m) = u ++ y :: m.
Proof.
  intro Hy. induction l as [|x l IH]; simpl.
  - rewrite Hy. now exists [].
  - destruct (is_white_space x); [exact IH|]. now exists (x :: l).
Qed.

(** Trimming the end leaves everything up to a unit that is no white
    space. *)
Lemma trimEnd_keeps_upto (a t : jsstring) (y : code_unit) :
  is_white_space y = false -> exists u, trimEnd (a ++ y :: t) = a ++ y :: u.
Proof.
  intro Hy. unfold trimEnd. rewrite rev_app_distr. simpl. rewrite <- app_assoc. simpl.
  destruct (trimStart_keeps_from (rev t) (rev a) y Hy) as [u Hu].
  rewrite Hu, rev_app_distr. simpl. rewrite rev_involutive, <- app_assoc. simpl.
  now exists (rev u).
Qed.

Lemma control_not_space (x : code_unit) : Api.faed x = true -> is_white_space x = false.
Proof.
  unfold Api.faed. intro H.
  repeat (apply orb_true_iff in H as [H | H]);
    apply N.eqb_eq in H; subst x; reflexivity.
Qed.

(** X1.  A control frame, one of the letters f, a, e, d in either case
    followed by a colon, yields the empty string, whatever white space
    stands before it and whatever follows the colon. *)
Theorem extract_control_frame (ws rest : jsstring) (x : code_unit) :
  forallb is_white_space ws = true -> Api.faed x = true ->
  Api.extractTextFromTokenStream (ws ++ x :: COLON :: rest) = [].
Proof.
  intros Hws Hx. unfold Api.extractTextFromTokenStream.
  assert (E : exists u, trim (ws ++ x :: COLON :: rest) = x :: COLON :: u).
  { unfold trim. rewrite trimStart_spaces by exact Hws.
    simpl trimStart. rewrite (control_not_space x Hx).
    apply (trimEnd_keeps_upto [x] rest COLON). reflexivity. }
  destruct E as [u ->].
  unfold test_start, match_here, Api.control_re. cbn [run]. rewrite Hx.
  unfold one. fold COLON. now rewrite N.eqb_refl.
Qed.

Lemma extract_control_frame_witness :
  forallb is_white_space (str "  ") = true /\ Api.faed (ch "E") = true /\
  Api.extractTextFromTokenStream
    (str "  " ++ ch "E" :: COLON :: str "{} 0:" ++ [QUOTE] ++ str "text" ++ [QUOTE])
  = [].
Proof.
  split; [reflexivity|]. split; [reflexivity|].
  apply extract_control_frame; reflexivity.
Defined.

Lemma indexOf_first (c : code_unit) (a b : jsstring) :
  exists i, indexOf c (a ++ c :: b) = Some i /\ (i <= length a)%nat.
Proof.
  induction a as [|x a (i & Hi & Hl)]; simpl.
  - rewrite N.eqb_refl. exists 0%nat. split; [reflexivity | lia].
  - destruct (x =? c).
    + exists 0%nat. split; [reflexivity | lia].
    + rewrite Hi. exists (S i). split; [reflexivity | lia].
Qed.

Lemma lastIndexOf_absent (c : code_unit) (t : jsstring) :
  ~ In c t -> lastIndexOf c t = None.
Proof.
  induction t as [|x t IH]; simpl; intro H; [reflexivity|].
  rewrite IH by tauto. destruct (x =? c) eqn:E; [|reflexivity].
  apply N.eqb_eq in E. exfalso. apply H. now left.
Qed.

Lemma lastIndexOf_last (c : code_unit) (a t : jsstring) :
  ~ In c t -> lastIndexOf c (a ++ c :: t) = Some (length a).
Proof.
  intro H. induction a as [|x a IH]; simpl.
  - now rewrite lastIndexOf_absent, N.eqb_refl.
  - now rewrite IH.
Qed.

(** X2.  An indexed record, digits and a colon before text that holds a
    pair of braces, yields what follows the last closing brace, trimmed;
    the record itself is dropped. *)
Theorem extract_indexed_record (raw d a b c : jsstring) :
  trimStart raw = d ++ COLON :: a ++ ch "{" :: b ++ ch "}" :: c ->
  Digits d -> ~ occurs_token raw -> ~ In (ch "}") c ->
  Api.extractTextFromTokenStream raw = trim c.
Proof.
  intros Ht Hd Ho Hc.
  unfold Api.extractTextFromTokenStream. fold (control_frame raw).
  assert (Hcf : control_frame raw = false).
  { destruct Hd as [Hne Hall]. destruct d as [|x d']; [contradiction|].
    simpl in Hall. apply andb_true_iff in Hall as [Hx _].
    apply (control_frame_head raw x _ Ht). now apply digit_not_control. }
  rewrite Hcf, exec_token_none by exact Ho.
  cbn [length]. change (0 <? 0)%nat with false. cbv iota.
  unfold test_start, strip_start. rewrite Ht, match_index_re by exact Hd.
  destruct (indexOf_first (ch "{") a (b ++ ch "}" :: c)) as (i & Hi & Hl).
  rewrite Hi.
  replace (a ++ ch "{" :: b ++ ch "}" :: c) with ((a ++ ch "{" :: b) ++ ch "}" :: c)
    by (rewrite <- app_assoc; reflexivity).
  rewrite lastIndexOf_last by exact Hc.
  assert (Hlt : (i <? length (a ++ ch "{" :: b))%nat = true).
  { apply Nat.ltb_lt. rewrite length_app. simpl. lia. }
  rewrite Hlt. unfold slice_from. f_equal.
  rewrite skipn_app, skipn_all2 by lia.
  replace (length (a ++ ch "{" :: b) + 1 - length (a ++ ch "{" :: b))%nat with 1%nat by lia.
  reflexivity.
Qed.

Lemma extract_indexed_record_witness :
  let raw := str " 9:{" ++ [QUOTE] ++ str "tool" ++ [QUOTE] ++ str ":{}} sunny " in
  trimStart raw
  = str "9" ++ COLON :: [] ++ ch "{" :: ([QUOTE] ++ str "tool" ++ [QUOTE] ++ str ":{}")
    ++ ch "}" :: str " sunny " /\
  Api.extractTextFromTokenStream raw = str "sunny".
Proof.
  intro raw. split; [reflexivity|].
  change (str "sunny") with (trim (str " sunny ")).
  apply (extract_indexed_record raw (str "9") []
           ([QUOTE] ++ str "tool" ++ [QUOTE] ++ str ":{}") (str " sunny ")).
  - reflexivity.
  - split; [discriminate | reflexivity].
  - intros (p & x & q & r & Hx & E).
    assert (H : exists p q, raw = p ++ x :: COLON :: QUOTE :: q)
      by (exists p, (q ++ QUOTE :: r); exact E).
    clear E. destruct H as (p' & q' & E). revert E. unfold raw. clear raw.
    simpl. intro E.
    repeat (destruct p' as [|? p']; [simpl in E; injection E; intros; subst;
                                    discriminate|]; simpl in E;
            injection E as _ E; try discriminate E).
    destruct p'; discriminate.
  - simpl. intuition discriminate.
Defined.

Lemma Matches_star_run (p : code_unit -> bool) (s s' : jsstring) :
  Matches (Star p) s s' -> exists d, forallb p d = true /\ s = d ++ s'.
Proof.
  intro H. remember (Star p) as r eqn:Er.
  induction H as [| | | | |q s|q x s s' Hq _ IH| | | |]; try discriminate.
  - now exists [].
  - injection Er as ->. destruct (IH eq_refl) as (d & Hd & ->).
    exists (x :: d). simpl. now rewrite Hq, Hd.
Qed.

Lemma match_index_re_elim (s : jsstring) (res : captures * jsstring) :
  match_here Api.index_re s = Some res -> index_prefixed s.
Proof.
  intro H. apply match_here_sound in H. unfold Api.index_re, Plus in H.
  apply Matches_cat_inv in H as (s1 & H1 & H2).
  apply Matches_cat_inv in H1 as (s0 & Hx & Hs).
  apply Matches_cls_inv in Hx as (x & -> & Hx).
  apply Matches_star_run in Hs as (d & Hd & ->).
  apply Matches_cls_inv in H2 as (y & -> & Hy).
  unfold one in Hy. apply N.eqb_eq in Hy. subst y.
  exists (x :: d), (snd res). split.
  - split; [discriminate|]. simpl. now rewrite Hx, Hd.
  - reflexivity.
Qed.

(** X3.  An input of none of the recognized shapes, no control frame,
    no numbered quoted token, no digits and colon at its start, no
    metadata object, is returned as it is, white space included. *)
Theorem extract_passes_through (raw : jsstring) :
  control_frame raw = false -> ~ occurs_token raw ->
  ~ index_prefixed (trimStart raw) -> ~ metadata_object raw ->
  Api.extractTextFromTokenStream raw = raw.
Proof.
  intros Hc Ho Hi Hm.
  unfold Api.extractTextFromTokenStream. fold (control_frame raw).
  rewrite Hc, exec_token_none by exact Ho.
  cbn [length]. change (0 <? 0)%nat with false. cbv iota.
  unfold test_start at 1.
  destruct (match_here Api.index_re (trimStart raw)) as [res|] eqn:E.
  - exfalso. apply Hi. eapply match_index_re_elim; eauto.
  - destruct (startsWith (str "{") (trimStart raw)) eqn:Es; [|reflexivity].
    destruct (endsWith (str "}") (trimStart raw)) eqn:Ee; [|reflexivity].
    cbn [andb].
    destruct (Json.parse (trimStart raw)) as [obj|] eqn:Ep; [|reflexivity].
    destruct (Api.metadata obj) eqn:Em; [|reflexivity].
    exfalso. apply Hm. now exists obj.
Qed.

Lemma extract_passes_through_witness :
  let raw := str " It is 28C, sunny {dry} " in
  control_frame raw = false /\ Api.extractTextFromTokenStream raw = raw.
Proof.
  intro raw. split; [reflexivity|].
  apply extract_passes_through.
  - reflexivity.
  - intros (a & d & b & c & _ & E).
    assert (H : In QUOTE raw) by (rewrite E; apply in_or_app; right; simpl; auto).
    simpl in H. intuition discriminate.
  - intros (d & rest & _ & E).
    assert (H : In COLON (trimStart raw)) by (rewrite E; apply in_or_app; right; simpl; auto).
    simpl in H. intuition discriminate.
  - intros (obj & Hs & _). discriminate Hs.
Defined.

Lemma Tokens_quote_free (s : jsstring) (cs : list jsstring) :
  Tokens s cs -> Forall (fun c => ~ In QUOTE c) cs.
Proof. induction 1; constructor; assumption. Qed.

(** X4.  What the extractor takes from numbered quoted tokens never
    holds a quote: a quote inside a token's text ends the token. *)
Theorem extract_tokens_quote_free (raw : jsstring) :
  occurs_token raw -> control_frame raw = false ->
  ~ In QUOTE (Api.extractTextFromTokenStream raw).
Proof.
  intros Ho Hc. unfold Api.extractTextFromTokenStream. fold (control_frame raw).
  rewrite Hc. pose proof (occurs_token_exec raw Ho) as Hne.
  pose proof (Tokens_quote_free _ _ (Tokens_exec_all raw)) as Hq.
  destruct (exec_all Api.token_re raw) as [|c cs]; [contradiction|].
  cbn [length]. change (0 <? S (length cs))%nat with true. cbv iota.
  intro Hin. apply in_concat in Hin as (t & Ht & Hin).
  rewrite Forall_forall in Hq. now apply (Hq t Ht).
Qed.

Lemma extract_tokens_quote_free_witness :
  let raw := str "0:" ++ [QUOTE] ++ str "say " ++ [BACKSLASH; QUOTE] ++ str "hi"
             ++ [BACKSLASH; QUOTE; QUOTE] in
  occurs_token raw /\ control_frame raw = false /\
  ~ In QUOTE (Api.extractTextFromTokenStream raw).
Proof.
  intro raw.
  assert (Ho : occurs_token raw).
  { exists [], (ch "0"), (str "say " ++ [BACKSLASH]),
      (str "hi" ++ [BACKSLASH; QUOTE; QUOTE]). split; reflexivity. }
  split; [exact Ho|]. split; [reflexivity|].
  apply extract_tokens_quote_free; [exact Ho | reflexivity].
Defined.

(* ================================================================== *)
(** * Further properties: the Transport Reader *)
(* ================================================================== *)

Lemma catch_single (e : Api.thrown) : exists m, Api.catch e = [Api.OnError m].
Proof.
  destruct e as [name message|]; simpl; [destruct (str_eqb _ _)|]; eauto.
Qed.

(** Any run is a quiet part and then one terminal callback. *)
Lemma send_shape (net : Api.fetch_result) :
  exists evs final,
    Api.sendMessageToWeatherAgent net = evs ++ [final] /\ terminal final = true /\
    Api.errors evs = [] /\ Api.completions evs = 0%nat.
Proof.
  unfold Api.sendMessageToWeatherAgent.
  assert (Hc : forall e, exists evs final,
               Api.catch e = evs ++ [final] /\ terminal final = true /\
               Api.errors evs = [] /\ Api.completions evs = 0%nat).
  { intro e. destruct (catch_single e) as [m ->]. now exists [], (Api.OnError m). }
  destruct net as [e | r]; [apply Hc|].
  destruct (negb (Api.ok r)); [apply Hc|].
  destruct (Api.body r) as [b|]; [|apply Hc].
  pose proof (read_loop_shape (Api.chunks b) (Api.ending b) TextDecoder.initial []) as H.
  destruct (Api.read_loop _ _ _ _) as [evs ex]. destruct H as [He Hx].
  destruct ex as [| |e].
  - destruct Hx as [_ Hx]. now exists evs, Api.OnComplete.
  - destruct Hx as (e' & -> & Hx). exists e', Api.OnComplete.
    rewrite errors_app in He. apply app_eq_nil in He as [He _]. now repeat split.
  - destruct Hx as [_ Hx]. destruct (catch_single e) as [m ->].
    now exists evs, (Api.OnError m).
Qed.

Lemma quiet_no_terminal (evs : list Api.event) :
  Api.errors evs = [] -> Api.completions evs = 0%nat ->
  forallb (fun e => negb (terminal e)) evs = true.
Proof.
  induction evs as [|e evs IH]; intros He Hc; [reflexivity|].
  destruct e; try discriminate; simpl; now apply IH.
Qed.

(** X5.  Whatever the network does, [sendMessageToWeatherAgent] reports
    the end exactly once: one call of [onComplete] or else of [onError],
    as the last thing it does, and none before. *)
Theorem terminal_callback_once (net : Api.fetch_result) :
  let run := Api.sendMessageToWeatherAgent net in
  (Api.completions run + length (Api.errors run) = 1)%nat /\
  exists evs final,
    run = evs ++ [final] /\ terminal final = true /\
    forallb (fun e => negb (terminal e)) evs = true.
Proof.
  intro run. destruct (send_shape net) as (evs & final & E & Ht & He & Hc).
  fold run in E. split.
  - rewrite E, completions_app, errors_app, He, Hc.
    destruct final; try discriminate; reflexivity.
  - exists evs, final. repeat split; try assumption. now apply quiet_no_terminal.
Qed.

Lemma process_lines_has_done (lines : list jsstring) :
  In DONE_LINE lines -> snd (Api.process_lines lines) = true.
Proof.
  intro H. apply in_split in H as (before & after & ->).
  now rewrite process_lines_done.
Qed.

Lemma at_end_fragments (fin : Api.stream_end) : Api.fragments (at_end fin) = [].
Proof. destruct fin; [reflexivity | apply catch_fragments]. Qed.

Lemma stream_fragments (t : jsstring) (fin : Api.stream_end) :
  Api.fragments (stream_events t fin)
  = Api.fragments (fst (Api.process_lines (complete_lines t))).
Proof.
  unfold stream_events.
  destruct (Api.process_lines (complete_lines t)) as [evs [|]]; [reflexivity|].
  cbn [fst]. now rewrite fragments_app, at_end_fragments, app_nil_r.
Qed.

(** X6.  A read that fails loses nothing that came before: the fragments
    are those of the same chunks ending normally.  The failure is hidden
    when a sentinel line came first, and otherwise reported by the catch
    clause as the last event, after which nothing follows. *)
Theorem read_failure_keeps_fragments (cs : list TextDecoder.bytes) (e : Api.thrown) :
  let failed := Api.sendMessageToWeatherAgent (Api.streaming cs (Api.ReadRejects e)) in
  let ended := Api.sendMessageToWeatherAgent (Api.streaming cs Api.EndOfStream) in
  Api.fragments failed = Api.fragments ended /\
  (In DONE_LINE (complete_lines (decoded cs)) -> Api.errors failed = []) /\
  (~ In DONE_LINE (complete_lines (decoded cs)) ->
   exists evs, failed = evs ++ Api.catch e /\
               Api.errors evs = [] /\ Api.completions evs = 0%nat).
Proof.
  intros failed ended. split; [|split].
  - rewrite <- (fragments_visible failed), <- (fragments_visible ended).
    unfold failed, ended. now rewrite !reader_by_text, !stream_fragments.
  - intro Hd. unfold failed, Api.sendMessageToWeatherAgent, Api.streaming.
    cbn [Api.ok negb Api.body Api.chunks Api.ending].
    pose proof (read_loop_shape cs (Api.ReadRejects e) TextDecoder.initial []) as Hs.
    destruct (read_loop_by_text cs (Api.ReadRejects e) TextDecoder.initial [])
      as [_ Hx]; [easy|].
    cbv zeta in Hx.
    change (removelast (split_acc LF []
              (snd (TextDecoder.decode TextDecoder.initial (concat cs)))))
      with (complete_lines (decoded cs)) in Hx.
    rewrite (process_lines_has_done _ Hd) in Hx.
    destruct (Api.read_loop TextDecoder.initial [] cs (Api.ReadRejects e)) as [evs ex].
    cbn [snd] in Hx. subst ex. now destruct Hs as [He _].
  - intro Hd. unfold failed, Api.sendMessageToWeatherAgent, Api.streaming.
    cbn [Api.ok negb Api.body Api.chunks Api.ending].
    pose proof (read_loop_shape cs (Api.ReadRejects e) TextDecoder.initial []) as Hs.
    destruct (read_loop_by_text cs (Api.ReadRejects e) TextDecoder.initial [])
      as [_ Hx]; [easy|].
    cbv zeta in Hx.
    change (removelast (split_acc LF []
              (snd (TextDecoder.decode TextDecoder.initial (concat cs)))))
      with (complete_lines (decoded cs)) in Hx.
    rewrite (process_lines_no_done _ Hd) in Hx.
    destruct (Api.read_loop TextDecoder.initial [] cs (Api.ReadRejects e)) as [evs ex].
    cbn [snd] in Hx. subst ex. cbn [exit_of] in *.
    destruct Hs as [He [_ Hc]]. now exists evs.
Qed.

Lemma read_failure_keeps_fragments_witness :
  let cs := [bytes_of "data: 0:" ++ [Byte.x22] ++ bytes_of "Hi" ++ [Byte.x22; Byte.x0a];
             bytes_of "data: 0:" ++ [Byte.x22] ++ bytes_of " there" ++ [Byte.x22]] in
  let e := Api.ErrorObject (str "TypeError") (str "network error") in
  ~ In DONE_LINE (complete_lines (decoded cs)) /\
  Api.callbacks (Api.sendMessageToWeatherAgent (Api.streaming cs (Api.ReadRejects e)))
  = [Api.OnChunk (str "Hi"); Api.OnError (str "network error")] /\
  (exists evs,
      Api.sendMessageToWeatherAgent (Api.streaming cs (Api.ReadRejects e))
      = evs ++ Api.catch e /\ Api.errors evs = [] /\ Api.completions evs = 0%nat).
Proof.
  intros cs e.
  assert (Hd : ~ In DONE_LINE (complete_lines (decoded cs))).
  { vm_compute. intros [H | []]. discriminate H. }
  split; [exact Hd|]. split; [vm_compute; reflexivity|].
  destruct (read_failure_keeps_fragments cs e) as (_ & _ & H). now apply H.
Defined.

(** ** Lifting a property of fragments from one line to a run *)

Section Fragments.
Variable P : jsstring -> Prop.
Hypothesis emit_ok : forall arg, Forall P (Api.fragments (Api.emit arg)).

Lemma process_line_forall (line : jsstring) :
  Forall P (Api.fragments (result_events (Api.process_line line))).
Proof.
  unfold Api.process_line.
  destruct (negb (nonempty (trim line))); [constructor|].
  destruct (startsWith (str "data: ") line).
  - destruct (str_eqb _ _); [constructor | apply emit_ok].
  - apply emit_ok.
Qed.

Lemma process_lines_forall (lines : list jsstring) :
  Forall P (Api.fragments (fst (Api.process_lines lines))).
Proof.
  induction lines as [|l lines IH]; [constructor|].
  cbn [Api.process_lines]. pose proof (process_line_forall l) as Hl.
  destruct (Api.process_line l) as [evs | evs]; cbn [result_events] in Hl.
  - destruct (Api.process_lines lines) as [e r]. cbn [fst] in *.
    rewrite fragments_app. now apply Forall_app.
  - exact Hl.
Qed.

Lemma read_loop_forall (pending : list TextDecoder.bytes) (fin : Api.stream_end) :
  forall st buffer,
    Forall P (Api.fragments (fst (Api.read_loop st buffer pending fin))).
Proof.
  induction pending as [|value more IH]; intros st buffer.
  - simpl. destruct fin; constructor.
  - cbn [Api.read_loop]. cbv zeta.
    destruct (TextDecoder.decode st value) as [st1 text].
    set (lines := split LF (buffer ++ text)).
    pose proof (process_lines_forall (removelast lines)) as Hs.
    destruct (Api.process_lines (removelast lines)) as [evs [|]]; cbn [fst] in *.
    + exact Hs.
    + specialize (IH st1 (last lines [])).
      destruct (Api.read_loop st1 (last lines []) more fin) as [evs' ex].
      cbn [fst] in *.
      change (Api.fragments (Api.Read :: evs ++ evs')) with (Api.fragments (evs ++ evs')).
      rewrite fragments_app. now apply Forall_app.
Qed.

Lemma send_forall (net : Api.fetch_result) :
  Forall P (Api.fragments (Api.sendMessageToWeatherAgent net)).
Proof.
  destruct net as [e | r]; unfold Api.sendMessageToWeatherAgent.
  - rewrite catch_fragments. constructor.
  - destruct (negb (Api.ok r)); [rewrite catch_fragments; constructor|].
    destruct (Api.body r) as [b|]; [|rewrite catch_fragments; constructor].
    pose proof (read_loop_forall (Api.chunks b) (Api.ending b) TextDecoder.initial []) as H.
    destruct (Api.read_loop _ _ _ _) as [evs ex]. cbn [fst] in H.
    destruct ex as [| |e]; try exact H.
    + rewrite fragments_app. apply Forall_app. split; [exact H | constructor].
    + rewrite fragments_app, catch_fragments. apply Forall_app. split; [exact H | constructor].
Qed.

End Fragments.

Lemma match_escaped_newline (x : code_unit) (s : jsstring) :
  match_here Api.escaped_newline_re (x :: s)
  = if x =? BACKSLASH
    then match s with
         | y :: r => if y =? ch "n" then Some ([], r) else None
         | [] => None
         end
    else None.
Proof.
  unfold match_here, Api.escaped_newline_re. cbn [Lit run]. unfold one.
  destruct (x =? BACKSLASH); [|reflexivity]. now destruct s.
Qed.

Lemma replace_all_nil (r : regex) (by_ : jsstring) : replace_all r by_ [] = [].
Proof. reflexivity. Qed.

(** After the replacement no escaped newline is left, and the result
    starts with the letter n only when the input does. *)
Lemma unescape_clean (n : nat) :
  forall s, (length s < n)%nat ->
    escaped_newline_in (replace_all Api.escaped_newline_re [LF] s) = false /\
    forall t, replace_all Api.escaped_newline_re [LF] s = ch "n" :: t ->
              exists t', s = ch "n" :: t'.
Proof.
  induction n as [|n IH]; intros s Hn; [lia|].
  destruct s as [|x s]; [split; [reflexivity | discriminate]|].
  rewrite replace_all_step by reflexivity. rewrite match_escaped_newline.
  cbn [length] in Hn.
  assert (Hcopy : escaped_newline_in (x :: replace_all Api.escaped_newline_re [LF] s)
                  = (match s with
                     | y :: _ => (x =? BACKSLASH) && (y =? ch "n")
                     | [] => false
                     end) /\
                  forall t, x :: replace_all Api.escaped_newline_re [LF] s = ch "n" :: t ->
                            exists t', x :: s = ch "n" :: t').
  { destruct (IH s ltac:(lia)) as [Hc Hh]. split.
    - cbn [escaped_newline_in]. rewrite Hc, orb_false_r.
      destruct (replace_all Api.escaped_newline_re [LF] s) as [|b t] eqn:Er.
      + destruct s as [|y s']; [reflexivity|].
        rewrite replace_all_step in Er by reflexivity.
        rewrite match_escaped_newline in Er.
        destruct (y =? BACKSLASH); [destruct s' as [|z r]; [|destruct (z =? ch "n")]|];
          discriminate.
      + destruct (x =? BACKSLASH); [|now destruct s]. cbn [andb].
        destruct (b =? ch "n") eqn:Eb.
        * apply N.eqb_eq in Eb. subst b. destruct (Hh t eq_refl) as [t' ->].
          reflexivity.
        * destruct s as [|y s']; [reflexivity|].
          destruct (y =? ch "n") eqn:Ey; [|reflexivity].
          apply N.eqb_eq in Ey. subst y.
          rewrite replace_all_step in Er by reflexivity.
          rewrite match_escaped_newline in Er. cbn in Er.
          injection Er as <- _. discriminate Eb.
    - intros t E. injection E as -> _. now exists s. }
  destruct (x =? BACKSLASH) eqn:Ex.
  - destruct s as [|y r].
    + destruct Hcopy as [Hc Hh]. split; [exact Hc | exact Hh].
    + destruct (y =? ch "n") eqn:Ey.
      * cbn [app]. destruct (IH r ltac:(simpl in Hn; lia)) as [Hc _]. split.
        -- cbn [escaped_newline_in]. rewrite Hc.
           now destruct (replace_all Api.escaped_newline_re [LF] r).
        -- intros t E. discriminate E.
      * destruct Hcopy as [Hc Hh]. split; [exact Hc | exact Hh].
  - destruct Hcopy as [Hc Hh]. split; [|exact Hh].
    rewrite Hc. now destruct s.
Qed.

Lemma emit_unescaped (arg : jsstring) :
  Forall (fun f => escaped_newline_in f = false) (Api.fragments (Api.emit arg)).
Proof.
  unfold Api.emit.
  destruct (nonempty _); simpl; constructor; [|constructor].
  apply (unescape_clean (S (length (Api.extractTextFromTokenStream arg)))). lia.
Qed.

(** X7.  No fragment delivered to [onChunk] holds an escaped newline, a
    backslash directly before the letter n: each has been turned into a
    line feed. *)
Theorem fragments_have_no_escaped_newline (net : Api.fetch_result) :
  Forall (fun f => escaped_newline_in f = false)
         (Api.fragments (Api.sendMessageToWeatherAgent net)).
Proof. apply send_forall. exact emit_unescaped. Qed.

Lemma line_fragment_short (line : jsstring) : (length (line_fragment line) <= 1)%nat.
Proof.
  unfold line_fragment, Api.process_line.
  assert (He : forall arg, (length (Api.fragments (Api.emit arg)) <= 1)%nat).
  { intro arg. unfold Api.emit. destruct (nonempty _); simpl; lia. }
  destruct (negb (nonempty (trim line))); [simpl; lia|].
  destruct (startsWith (str "data: ") line); [|apply He].
  destruct (str_eqb _ _); [simpl; lia | apply He].
Qed.

Lemma process_lines_fragments_map (lines : list jsstring) :
  ~ In DONE_LINE lines ->
  Api.fragments (fst (Api.process_lines lines)) = flat_map line_fragment lines.
Proof.
  induction lines as [|l lines IH]; intro H; [reflexivity|].
  cbn [Api.process_lines flat_map]. unfold line_fragment at 1.
  destruct (Api.process_line l) as [evs | evs] eqn:El.
  - destruct (Api.process_lines lines) as [e r]. cbn [fst result_events] in *.
    rewrite fragments_app, IH; [reflexivity|]. intro Hin. apply H. now right.
  - apply process_line_return in El. exfalso. apply H. now left.
Qed.

Lemma flat_map_short {A B : Type} (f : A -> list B) (l : list A) :
  (forall x, (length (f x) <= 1)%nat) -> (length (flat_map f l) <= length l)%nat.
Proof.
  intro H. induction l as [|x l IH]; simpl; [lia|].
  rewrite length_app. specialize (H x). lia.
Qed.

(** X8.  The fragments come line by line: each complete line before the
    first sentinel line gives at most one fragment, a blank line none,
    and the fragments are delivered in the order of the lines; lines
    after the sentinel give nothing. *)
Theorem fragments_follow_lines
    (cs : list TextDecoder.bytes) (fin : Api.stream_end) (before after : list jsstring) :
  complete_lines (decoded cs) = before ++ after ->
  ~ In DONE_LINE before ->
  after = [] \/ (exists rest, after = DONE_LINE :: rest) ->
  let run := Api.sendMessageToWeatherAgent (Api.streaming cs fin) in
  Api.fragments run = flat_map line_fragment before /\
  (length (Api.fragments run) <= length before)%nat.
Proof.
  intros El Hb Ha run.
  assert (E : Api.fragments run = flat_map line_fragment before).
  { rewrite <- (fragments_visible run). unfold run.
    rewrite reader_by_text, stream_fragments, El.
    pose proof (process_lines_fragments_map before Hb) as Hm.
    destruct Ha as [-> | [rest ->]].
    - now rewrite app_nil_r.
    - rewrite process_lines_done.
      pose proof (process_lines_no_done before Hb) as Hn.
      destruct (Api.process_lines before) as [evs r]. cbn [fst snd] in *. subst r.
      now rewrite fragments_app, app_nil_r. }
  split; [exact E|]. rewrite E. apply flat_map_short. apply line_fragment_short.
Qed.

Lemma fragments_follow_lines_witness :
  let cs := [bytes_of "data: 0:" ++ [Byte.x22] ++ bytes_of "Hi" ++ [Byte.x22; Byte.x0a]
             ++ [Byte.x0a] ++ bytes_of "0:" ++ [Byte.x22] ++ bytes_of " there"
             ++ [Byte.x22; Byte.x0a] ++ bytes_of "data: [DONE]" ++ [Byte.x0a]
             ++ bytes_of "late" ++ [Byte.x0a]] in
  let before := [str "data: 0:" ++ [QUOTE] ++ str "Hi" ++ [QUOTE]; [];
                 str "0:" ++ [QUOTE] ++ str " there" ++ [QUOTE]] in
  complete_lines (decoded cs) = before ++ [DONE_LINE; str "late"] /\
  Api.fragments (Api.sendMessageToWeatherAgent (Api.streaming cs Api.EndOfStream))
  = [str "Hi"; str " there"].
Proof.
  intros cs before.
  assert (E : complete_lines (decoded cs) = before ++ [DONE_LINE; str "late"])
    by (vm_compute; reflexivity).
  split; [exact E|].
  destruct (fragments_follow_lines cs Api.EndOfStream before [DONE_LINE; str "late"] E)
    as [H _].
  - simpl. intuition discriminate.
  - right. now exists [str "late"].
  - rewrite H. vm_compute. reflexivity.
Defined.

(* ================================================================== *)
(** * Further properties: the Stream Session Controller *)
(* ================================================================== *)

(** The hook after any callbacks: loading stops with the first
    terminal callback, and the error is the mapped message of the last
    error. *)
Lemma deliver_all_state (offline : bool) (evs : list Api.event) :
  forall h,
    Hook.deliver_all offline h evs
    = Hook.mkHook (if existsb terminal evs then false else Hook.isLoading h)
        (match rev (Api.errors evs) with
         | [] => Hook.error h
         | m :: _ => Some (Hook.friendly offline m)
         end)
        (Hook.abortRef h) (Hook.aborted h).
Proof.
  induction evs as [|e evs IH]; intro h; [now destruct h|].
  change (Hook.deliver_all offline h (e :: evs))
    with (Hook.deliver_all offline (Hook.deliver offline h e) evs).
  rewrite IH. destruct e as [|arg|text|message|];
    cbn [Hook.deliver existsb terminal orb]; try reflexivity.
  - change (Api.errors (Api.OnError message :: evs)) with (message :: Api.errors evs).
    cbn [rev]. destruct (rev (Api.errors evs)); cbn [app];
      now destruct (existsb terminal evs).
  - change (Api.errors (Api.OnComplete :: evs)) with (Api.errors evs).
    now destruct (existsb terminal evs).
Qed.

Lemma Interleaved_nil_l {A : Type} (r : list A) : Interleaved [] r r.
Proof. induction r; constructor; assumption. Qed.

Lemma Interleaved_existsb {A : Type} (f : A -> bool) (l r m : list A) :
  Interleaved l r m -> existsb f r = true -> existsb f m = true.
Proof.
  induction 1 as [|x l r m _ IH|x l r m _ IH]; cbn [existsb]; intro H;
    [exact H| |].
  - rewrite (IH H). apply orb_true_r.
  - apply orb_true_iff in H as [H|H]; [now rewrite H|].
    rewrite (IH H). apply orb_true_r.
Qed.

Lemma Interleaved_errors (l r m : list Api.event) :
  Interleaved l r m -> Api.errors l = [] -> Api.errors m = Api.errors r.
Proof.
  induction 1 as [|x l r m _ IH|x l r m _ IH]; intro H; [reflexivity| |].
  - change (x :: l) with ([x] ++ l) in H. rewrite errors_app in H.
    apply app_eq_nil in H as [Hx Hl].
    change (x :: m) with ([x] ++ m). rewrite errors_app, Hx. now apply IH.
  - change (x :: m) with ([x] ++ m). change (x :: r) with ([x] ++ r).
    rewrite !errors_app. now rewrite IH.
Qed.

(** X9.  When an operation started by [send] has settled, whatever the
    network did and whatever callbacks of earlier operations, such as
    the one this [send] aborted, came in between, the hook is not
    loading any more; its error is the mapped message of the last error
    reported since the [send] began, by this operation or by an earlier
    one, and empty when none was reported; when the earlier operations
    reported no error in between, it is the mapped message of the error
    this operation reported, and empty when it completed; the controller
    of this [send] is the current one, and the one before it has been
    aborted. *)
Theorem hook_after_send
    (offline : bool) (c : nat) (h : Hook.state) (net : Api.fetch_result)
    (late merged : list Api.event) :
  let run := Api.sendMessageToWeatherAgent net in
  Interleaved late run merged ->
  let h' := Hook.deliver_all offline (Hook.send_begin c h) merged in
  Hook.isLoading h' = false /\
  Hook.error h'
  = match rev (Api.errors merged) with
    | [] => None
    | m :: _ => Some (Hook.friendly offline m)
    end /\
  (Api.errors late = [] ->
   Hook.error h'
   = match Api.errors run with
     | [] => None
     | m :: _ => Some (Hook.friendly offline m)
     end) /\
  Hook.abortRef h' = Some c /\
  Hook.aborted h' = Hook.abort_current h.
Proof.
  intros run HI h'. unfold h'. rewrite deliver_all_state.
  cbn [Hook.isLoading Hook.error Hook.abortRef Hook.aborted Hook.send_begin].
  destruct (send_shape net) as (evs & final & E & Ht & He & Hc). fold run in E.
  assert (T : existsb terminal merged = true).
  { apply (Interleaved_existsb terminal late run merged HI).
    rewrite E, existsb_app. cbn [existsb]. rewrite Ht. now rewrite orb_true_r. }
  rewrite T. repeat split.
  intro Hl. rewrite (Interleaved_errors late run merged HI Hl).
  rewrite E, errors_app, He. cbn [app]. now destruct final.
Qed.

Lemma hook_after_send_witness :
  let cancelled := Api.OnError (str "Request cancelled") in
  let run := Api.sendMessageToWeatherAgent
               (Api.streaming [bytes_of "data: 0:" ++ [Byte.x22] ++ bytes_of "Hi"
                                 ++ [Byte.x22; Byte.x0a]] Api.EndOfStream) in
  let h' := Hook.deliver_all false (Hook.send_begin 2 (Hook.send_begin 1 Hook.initial))
              (cancelled :: run) in
  Interleaved [cancelled] run (cancelled :: run) /\
  Api.errors run = [] /\ Api.completions run = 1%nat /\
  Hook.isLoading h' = false /\ Hook.error h' = Some (str "Request cancelled") /\
  Hook.abortRef h' = Some 2%nat /\ Hook.aborted h' = [1%nat].
Proof.
  intros cancelled run h'.
  assert (HI : Interleaved [cancelled] run (cancelled :: run))
    by (apply I_left, Interleaved_nil_l).
  destruct (hook_after_send false 2 (Hook.send_begin 1 Hook.initial)
              (Api.streaming [bytes_of "data: 0:" ++ [Byte.x22] ++ bytes_of "Hi"
                                ++ [Byte.x22; Byte.x0a]] Api.EndOfStream)
              [cancelled] (cancelled :: run) HI) as (Hl & He & _ & Hr & Ha).
  split; [exact HI|]. split; [vm_compute; reflexivity|].
  split; [vm_compute; reflexivity|]. split; [exact Hl|].
  split; [unfold h'; rewrite He; vm_compute; reflexivity|].
  split; [exact Hr | exact Ha].
Defined.

Lemma act_settled (offline : bool) (h : Hook.state) (a : action) (c : nat) :
  settled h c -> settled (act offline h a) c.
Proof.
  unfold settled. intros [H | H]; destruct a as [c' | | ev]; simpl.
  - right. unfold Hook.abort_current. rewrite H. now left.
  - right. unfold Hook.abort_current. rewrite H. now left.
  - left. now destruct ev.
  - right. unfold Hook.abort_current. destruct (Hook.abortRef h); [now right | exact H].
  - right. unfold Hook.abort_current. destruct (Hook.abortRef h); [now right | exact H].
  - right. now destruct ev.
Qed.

Lemma acts_settled (offline : bool) (l : list action) :
  forall h c, settled h c \/ In (Send c) l -> settled (acts offline h l) c.
Proof.
  induction l as [|a l IH]; intros h c H.
  - destruct H as [H | []]. exact H.
  - cbn [acts fold_left]. apply IH.
    destruct H as [H | [-> | H]].
    + left. now apply act_settled.
    + left. now left.
    + now right.
Qed.

(** X10.  At most one operation is live: after any sequence of [send]s,
    [cancel]s and callbacks, every controller a [send] has created is
    aborted, except the one of the latest [send]. *)
Theorem one_live_controller (offline : bool) (l : list action) (c : nat) :
  In (Send c) l ->
  let h := acts offline Hook.initial l in
  ~ In c (Hook.aborted h) -> Hook.abortRef h = Some c.
Proof.
  intros Hin h Hn.
  destruct (acts_settled offline l Hook.initial c (or_intror Hin)) as [H | H].
  - exact H.
  - contradiction.
Qed.

Lemma one_live_controller_witness :
  let l := [Send 1; Callback (Api.OnChunk (str "Hi")); Send 2;
            Callback (Api.OnError (str "Request cancelled"))] in
  In (Send 1) l /\ In (Send 2) l /\
  Hook.aborted (acts false Hook.initial l) = [1%nat] /\
  Hook.abortRef (acts false Hook.initial l) = Some 2%nat.
Proof.
  intro l. split; [simpl; tauto|]. split; [simpl; tauto|]. split; [reflexivity|].
  apply (one_live_controller false l 2).
  - simpl. tauto.
  - simpl. intuition discriminate.
Defined.

(* ================================================================== *)
(** * Further properties: the Structured Renderer *)
(* ================================================================== *)

Lemma split_at_sep (sep : code_unit) (a b : jsstring) :
  split sep (a ++ sep :: b) = split sep a ++ split sep b.
Proof.
  unfold split. rewrite split_acc_app. cbn [split_acc]. rewrite N.eqb_refl.
  rewrite (app_removelast_last [] (split_acc_nonempty sep [] a)) at 3.
  now rewrite <- app_assoc.
Qed.

Lemma plain_lines_at_lf (a b : jsstring) :
  plain_lines (a ++ LF :: b) = plain_lines a ++ plain_lines b.
Proof.
  unfold plain_lines. rewrite strip_cr_app.
  change (strip_cr (LF :: b)) with (LF :: strip_cr b). apply split_at_sep.
Qed.

Lemma close_nil (st : list ChatUI.Section * option ChatUI.Section) :
  ChatUI.close st = [] -> st = ([], None).
Proof.
  destruct st as [closed [c|]]; unfold ChatUI.close; cbn [fst snd]; intro H.
  - now destruct closed.
  - now subst.
Qed.

(** X11.  Text before the first title line is not shown once a title
    line has come: a message that renders flat, followed on a new line
    by a message that renders in sections, renders as the second one
    alone. *)
Theorem preamble_is_dropped (pre rest : jsstring)
    (es : list ChatUI.element) (cards : list ChatUI.card) :
  ChatUI.formatAgentMessage pre = ChatUI.Flat es ->
  ChatUI.formatAgentMessage rest = ChatUI.Cards cards ->
  ChatUI.formatAgentMessage (pre ++ LF :: rest) = ChatUI.Cards cards.
Proof.
  rewrite !format_by_plain_lines. intros Hp Hr.
  assert (E : ChatUI.detect_sections (plain_lines pre) = []).
  { destruct (ChatUI.detect_sections (plain_lines pre)); [reflexivity|discriminate]. }
  assert (E' : ChatUI.detect_sections (plain_lines (pre ++ LF :: rest))
               = ChatUI.detect_sections (plain_lines rest)).
  { rewrite plain_lines_at_lf. unfold ChatUI.detect_sections in *.
    rewrite fold_left_app. now rewrite (close_nil _ E). }
  rewrite E'.
  destruct (0 <? length (ChatUI.detect_sections (plain_lines rest)))%nat;
    [exact Hr | discriminate].
Qed.

Lemma preamble_is_dropped_witness :
  let pre := str "Here is the forecast you asked for." in
  let rest := str "Pune: hot" in
  ChatUI.formatAgentMessage pre
  = ChatUI.Flat [ChatUI.Paragraph [ChatUI.Span pre]] /\
  ChatUI.formatAgentMessage (pre ++ LF :: rest)
  = ChatUI.Cards [ChatUI.mkCard (str "Pune") [ChatUI.Plain [ChatUI.Span (str "hot")]]].
Proof.
  intros pre rest.
  assert (E : ChatUI.formatAgentMessage pre = ChatUI.Flat [ChatUI.Paragraph [ChatUI.Span pre]])
    by (vm_compute; reflexivity).
  split; [exact E|].
  apply (preamble_is_dropped pre rest _ _ E). vm_compute. reflexivity.
Defined.

Lemma strip_cr_repeat_lf (n : nat) : strip_cr (repeat LF n) = repeat LF n.
Proof. induction n as [|n IH]; [reflexivity|]. simpl. now f_equal. Qed.

Lemma drop_repeat_lf (n : nat) (b : jsstring) :
  drop_while (one LF) (repeat LF n ++ b) = drop_while (one LF) b.
Proof. induction n as [|n IH]; [reflexivity | exact IH]. Qed.

Section BlankRuns.
Context {S : Type} (f : S -> jsstring -> S).
Hypothesis blank_idempotent : forall st, f (f st []) [] = f st [].

(** After two line feeds, further line feeds change nothing. *)
Lemma fold_blank_run (a b : jsstring) (j : nat) (st : S) :
  fold_left f (plain_lines (a ++ repeat LF (2 + j) ++ b)) st
  = fold_left f (split_acc LF [] (drop_while (one LF) (strip_cr b)))
      (f (fold_left f (plain_lines a) st) []).
Proof.
  unfold plain_lines. rewrite !strip_cr_app, strip_cr_repeat_lf.
  cbn [repeat Nat.add app]. change (LF :: LF :: repeat LF j ++ strip_cr b)
    with ([LF] ++ LF :: repeat LF j ++ strip_cr b).
  rewrite app_assoc. change (strip_cr a ++ [LF]) with (strip_cr a ++ [LF]).
  rewrite split_at_sep.
  replace (strip_cr a ++ [LF]) with (strip_cr a ++ LF :: []) by reflexivity.
  rewrite split_at_sep. rewrite !fold_left_app.
  change (split LF []) with [@nil code_unit]. cbn [fold_left].
  unfold split.
  rewrite (fold_skip_blank f) by apply blank_idempotent.
  now rewrite drop_repeat_lf.
Qed.

End BlankRuns.

(** X12.  Carriage returns and the length of a run of two or more line
    feeds do not show: a message renders the same without a carriage
    return, and the same for any two runs of at least two line feeds in
    the same place. *)
Theorem rendering_ignores_cr_and_blank_runs (a b : jsstring) :
  ChatUI.formatAgentMessage (a ++ CR :: b) = ChatUI.formatAgentMessage (a ++ b) /\
  forall j k : nat,
    ChatUI.formatAgentMessage (a ++ repeat LF (2 + j) ++ b)
    = ChatUI.formatAgentMessage (a ++ repeat LF (2 + k) ++ b).
Proof.
  split.
  - rewrite !format_by_plain_lines. unfold plain_lines.
    now rewrite !strip_cr_app.
  - intros j k. rewrite !format_by_plain_lines.
    unfold ChatUI.detect_sections, ChatUI.fallback.
    rewrite !(fold_blank_run ChatUI.section_step)
      by (intro st; now rewrite !section_step_blank).
    rewrite !(fold_blank_run ChatUI.fallback_step)
      by (intro st; rewrite !fallback_step_blank; apply flushList_idempotent).
    reflexivity.
Qed.

(** ** Captures *)

Lemma greedy_star_keeps (p : code_unit -> bool) (k : cont) :
  forall s c res, greedy_star p k s c = Some res ->
    exists s', Matches (Star p) s s' /\ k s' c = Some res.
Proof.
  induction s as [|x s IH]; intros c res H; simpl in H.
  - exists []. split; [constructor | exact H].
  - destruct (p x) eqn:E.
    + destruct (greedy_star p k s c) as [r|] eqn:G.
      * injection H as <-. destruct (IH c r G) as (s' & Hm & Hk).
        exists s'. split; [now constructor | exact Hk].
      * exists (x :: s). split; [constructor | exact H].
    + exists (x :: s). split; [constructor | exact H].
Qed.

Lemma lazy_star_keeps (p : code_unit -> bool) (k : cont) :
  forall s c res, lazy_star p k s c = Some res ->
    exists s', Matches (LazyStar p) s s' /\ k s' c = Some res.
Proof.
  induction s as [|x s IH]; intros c res H; simpl in H.
  - destruct (k [] c) as [r|] eqn:K; [|discriminate].
    exists []. split; [constructor | congruence].
  - destruct (k (x :: s) c) as [r|] eqn:K.
    + exists (x :: s). split; [constructor | congruence].
    + destruct (p x) eqn:E; [|discriminate].
      destruct (IH c res H) as (s' & Hm & Hk).
      exists s'. split; [now constructor | exact Hk].
Qed.

(** Whatever the matcher finds is a match with these captures. *)
Lemma run_binds (r : regex) :
  forall (k : cont) s c res, run r k s c = Some res ->
    exists s' c', Binds r s c s' c' /\ k s' c' = Some res.
Proof.
  induction r as [|p|a IHa b IHb|a IHa b IHb|p|p|i r IH|]; intros k s c res H;
    cbn [run] in H.
  - exists s, c. split; [constructor | exact H].
  - destruct s as [|x s]; [discriminate|]. destruct (p x) eqn:E; [|discriminate].
    exists s, c. split; [now constructor | exact H].
  - destruct (IHa _ _ _ _ H) as (s1 & c1 & Ha & H1).
    destruct (IHb _ _ _ _ H1) as (s2 & c2 & Hb & H2).
    exists s2, c2. split; [econstructor; eauto | exact H2].
  - destruct (run a k s c) as [r|] eqn:E.
    + injection H as <-. destruct (IHa _ _ _ _ E) as (s' & c' & Hm & Hk).
      exists s', c'. split; [now apply B_alt_left | exact Hk].
    + destruct (IHb _ _ _ _ H) as (s' & c' & Hm & Hk).
      exists s', c'. split; [now apply B_alt_right | exact Hk].
  - destruct (greedy_star_keeps p k s c res H) as (s' & Hm & Hk).
    exists s', c. split; [now constructor | exact Hk].
  - destruct (lazy_star_keeps p k s c res H) as (s' & Hm & Hk).
    exists s', c. split; [now constructor | exact Hk].
  - destruct (IH _ _ _ _ H) as (s' & c' & Hm & Hk).
    exists s', ((i, firstn (length s - length s') s) :: c').
    split; [now constructor | exact Hk].
  - destruct s; [|discriminate]. exists [], c. split; [constructor | exact H].
Qed.

Lemma match_here_binds (r : regex) (s rest : jsstring) (m : captures) :
  match_here r s = Some (m, rest) -> Binds r s [] rest m.
Proof.
  intro H. unfold match_here in H.
  destruct (run_binds r _ _ _ _ H) as (s' & c' & Hb & Hk).
  injection Hk as <- <-. exact Hb.
Qed.

Lemma Binds_Matches (r : regex) (s s' : jsstring) (c c' : captures) :
  Binds r s c s' c' -> Matches r s s'.
Proof. induction 1; try (econstructor; eauto; fail); assumption. Qed.

Lemma Binds_groupless (r : regex) (s s' : jsstring) (c c' : captures) :
  Binds r s c s' c' -> groupless r = true -> c' = c.
Proof.
  induction 1 as [| |a b s s1 s2 c c1 c2 _ IHa _ IHb|a b s s' c c' _ IH
                 |a b s s' c c' _ IH| | |i r s s' c c' _ _|];
    cbn [groupless]; intro G; try reflexivity; try discriminate.
  - apply andb_true_iff in G as [Ga Gb]. rewrite (IHb Gb). now apply IHa.
  - apply andb_true_iff in G as [Ga Gb]. now apply IH.
  - apply andb_true_iff in G as [Ga Gb]. now apply IH.
Qed.

Lemma Binds_cat_inv (a b : regex) (s s2 : jsstring) (c c2 : captures) :
  Binds (Cat a b) s c s2 c2 ->
  exists s1 c1, Binds a s c s1 c1 /\ Binds b s1 c1 s2 c2.
Proof. intro H. inversion H; subst. eauto. Qed.

Lemma Binds_group_inv (i : nat) (r : regex) (s s' : jsstring) (c c2 : captures) :
  Binds (Group i r) s c s' c2 ->
  exists c', Binds r s c s' c' /\ c2 = (i, firstn (length s - length s') s) :: c'.
Proof. intro H. inversion H; subst. eauto. Qed.

Lemma Binds_end_inv (s s' : jsstring) (c c' : captures) :
  Binds EndOfInput s c s' c' -> s = [] /\ s' = [] /\ c' = c.
Proof. intro H. now inversion H; subst. Qed.

(** A pattern without groups leaves the captures as they are. *)
Lemma Binds_flat (r : regex) (s s' : jsstring) (c c' : captures) :
  groupless r = true -> Binds r s c s' c' -> Matches r s s' /\ c' = c.
Proof.
  intros G H. split; [now apply Binds_Matches in H | now apply (Binds_groupless _ _ _ _ _ H)].
Qed.

Lemma Matches_lazy_run (p : code_unit -> bool) (s s' : jsstring) :
  Matches (LazyStar p) s s' -> exists d, forallb p d = true /\ s = d ++ s'.
Proof.
  intro H. remember (LazyStar p) as r eqn:Er.
  induction H as [| | | | | | |q s|q x s s' Hq _ IH| |]; try discriminate.
  - now exists [].
  - injection Er as ->. destruct (IH eq_refl) as (d & Hd & ->).
    exists (x :: d). simpl. now rewrite Hq, Hd.
Qed.

(** The text of a group over a pattern without groups: what the body
    consumed. *)
Lemma Binds_group_flat (i : nat) (r : regex) (s s' : jsstring) (c c2 : captures) :
  groupless r = true -> Binds (Group i r) s c s' c2 ->
  exists g, s = g ++ s' /\ Matches r s s' /\ c2 = (i, g) :: c.
Proof.
  intros G H. apply Binds_group_inv in H as (c' & Hb & ->).
  apply (Binds_flat _ _ _ _ _ G) in Hb as [Hm ->].
  destruct (Matches_suffix _ _ _ Hm) as [g Eg]. exists g.
  split; [exact Eg|]. split; [exact Hm|]. subst s. now rewrite firstn_consumed.
Qed.

(** ** Labels *)

(** X18.  A row shown with a bold label is cut at its first colon: the
    row is white space, the label, a colon, white space and the rest;
    the label is a non-empty run of letters, spaces and parentheses, and
    the rest holds no line terminator. *)
Theorem label_is_cut_at_first_colon (r label rest : jsstring) :
  ChatUI.emphasizeLabel r = Some (label, rest) ->
  exists w1 w2,
    r = w1 ++ label ++ COLON :: w2 ++ rest /\
    forallb is_white_space w1 = true /\ forallb is_white_space w2 = true /\
    label <> [] /\ forallb ChatUI.label_char label = true /\
    ~ In COLON (w1 ++ label) /\ forallb dot rest = true.
Proof.
  unfold ChatUI.emphasizeLabel.
  destruct (match_here ChatUI.labelRe r) as [[m left]|] eqn:E; [|discriminate].
  intro H. injection H as <- <-.
  apply match_here_binds in E. unfold ChatUI.labelRe in E.
  apply Binds_cat_inv in E as (s1 & c1 & H1 & E).
  apply Binds_flat in H1; [|reflexivity]. destruct H1 as [H1 ->].
  apply Matches_star_run in H1 as (w1 & Hw1 & ->).
  apply Binds_cat_inv in E as (s2 & c2 & H2 & E).
  apply Binds_group_flat in H2; [|reflexivity]. destruct H2 as (g1 & -> & H2 & ->).
  unfold LazyPlus in H2. apply Matches_cat_inv in H2 as (t & Hx & Hl).
  apply Matches_cls_inv in Hx as (x & Ex & Hx).
  apply Matches_lazy_run in Hl as (d & Hd & ->).
  change (x :: d ++ s2) with ((x :: d) ++ s2) in Ex.
  apply app_inv_tail in Ex. subst g1.
  apply Binds_cat_inv in E as (s3 & c3 & H3 & E).
  apply Binds_flat in H3; [|reflexivity]. destruct H3 as [H3 ->].
  apply Matches_cls_inv in H3 as (y & -> & Hy). apply N.eqb_eq in Hy. subst y.
  apply Binds_cat_inv in E as (s4 & c4 & H4 & E).
  apply Binds_flat in H4; [|reflexivity]. destruct H4 as [H4 ->].
  apply Matches_star_run in H4 as (w2 & Hw2 & ->).
  apply Binds_cat_inv in E as (s5 & c5 & H5 & E).
  apply Binds_group_flat in H5; [|reflexivity]. destruct H5 as (g2 & -> & H5 & ->).
  apply Binds_end_inv in E as (-> & -> & ->).
  apply Matches_star_run in H5 as (d2 & Hd2 & Ed2).
  rewrite !app_nil_r in *. subst d2.
  unfold ChatUI.group. cbn [capture Nat.eqb].
  exists w1, w2. split; [reflexivity|]. split; [exact Hw1|]. split; [exact Hw2|].
  split; [discriminate|].
  split; [cbn [forallb]; now rewrite Hx, Hd|].
  split; [|exact Hd2].
  intro Hin. apply in_app_or in Hin as [Hin|Hin].
  - rewrite forallb_forall in Hw1. now specialize (Hw1 _ Hin).
  - assert (Hl : forallb ChatUI.label_char (x :: d) = true)
      by (cbn [forallb]; now rewrite Hx, Hd).
    rewrite forallb_forall in Hl. now specialize (Hl _ Hin).
Qed.

Lemma label_is_cut_at_first_colon_witness :
  ChatUI.emphasizeLabel (str " Wind (max): 12 km/h: gusts")
  = Some (str "Wind (max)", str "12 km/h: gusts") /\
  exists w1 w2,
    str " Wind (max): 12 km/h: gusts"
    = w1 ++ str "Wind (max)" ++ COLON :: w2 ++ str "12 km/h: gusts" /\
    forallb is_white_space w1 = true /\ forallb is_white_space w2 = true /\
    str "Wind (max)" <> [] /\ forallb ChatUI.label_char (str "Wind (max)") = true /\
    ~ In COLON (w1 ++ str "Wind (max)") /\ forallb dot (str "12 km/h: gusts") = true.
Proof.
  assert (E : ChatUI.emphasizeLabel (str " Wind (max): 12 km/h: gusts")
              = Some (str "Wind (max)", str "12 km/h: gusts"))
    by (vm_compute; reflexivity).
  split; [exact E|].
  exact (label_is_cut_at_first_colon _ _ _ E).
Defined.

(** ** Inline emphasis *)

Lemma match_bold_none (x : code_unit) (s : jsstring) :
  ChatUI.not_star x = true -> match_here ChatUI.bold_re (x :: s) = None.
Proof.
  intro H. unfold match_here, ChatUI.bold_re.
  change (Lit (str "**"))
    with (Cat (Cls (one (ch "*"))) (Cat (Cls (one (ch "*"))) Eps)).
  cbn [run]. unfold ChatUI.not_star in H. apply negb_true_iff in H.
  unfold one at 1. now rewrite H.
Qed.

Lemma split_re_skip (a : jsstring) :
  forall n piece s, forallb ChatUI.not_star a = true -> (length (a ++ s) < n)%nat ->
    ChatUI.split_re_fuel n ChatUI.bold_re piece (a ++ s)
    = ChatUI.split_re_fuel (S (length s)) ChatUI.bold_re (piece ++ a) s.
Proof.
  induction a as [|x a IH]; intros n piece s Ha Hn.
  - rewrite app_nil_r. cbn [app] in *.
    apply split_re_fuel_enough; [reflexivity | exact Hn | lia].
  - cbn [forallb] in Ha. apply andb_true_iff in Ha as [Hx Ha].
    destruct n as [|n]; [lia|]. cbn [app length] in *.
    cbn [ChatUI.split_re_fuel]. rewrite (match_bold_none x _ Hx).
    rewrite IH by (assumption || lia). now rewrite <- app_assoc.
Qed.

Lemma drop_not_star (b c : jsstring) :
  forallb ChatUI.not_star b = true ->
  drop_while ChatUI.not_star (b ++ STARS ++ c) = STARS ++ c.
Proof.
  induction b as [|y b IH]; intro H; [reflexivity|].
  cbn [forallb] in H. apply andb_true_iff in H as [Hy Hb].
  cbn [app drop_while]. rewrite Hy. now apply IH.
Qed.

Lemma match_bold (b c : jsstring) :
  b <> [] -> forallb ChatUI.not_star b = true ->
  match_here ChatUI.bold_re (STARS ++ b ++ STARS ++ c)
  = Some ([(1%nat, STARS ++ b ++ STARS)], c).
Proof.
  intros Hb Hs. destruct b as [|y b]; [congruence|].
  cbn [forallb] in Hs. apply andb_true_iff in Hs as [Hy Hs].
  unfold match_here, ChatUI.bold_re, Plus.
  change (STARS ++ (y :: b) ++ STARS ++ c)
    with (ch "*" :: ch "*" :: y :: b ++ STARS ++ c).
  remember (ch "*" :: ch "*" :: y :: b ++ STARS ++ c) as s eqn:Es.
  change (Lit (str "**"))
    with (Cat (Cls (one (ch "*"))) (Cat (Cls (one (ch "*"))) Eps)).
  cbn [run]. rewrite Es at 1. unfold one at 1 2.
  rewrite !N.eqb_refl, Hy.
  rewrite greedy_star_skip.
  - rewrite (drop_not_star b c Hs).
    change (STARS ++ c) with (ch "*" :: ch "*" :: c). unfold one.
    rewrite !N.eqb_refl. do 3 f_equal.
    subst s. f_equal.
    replace (ch "*" :: ch "*" :: y :: b ++ STARS ++ c)
      with ((STARS ++ (y :: b) ++ STARS) ++ c)
      by (rewrite <- !app_assoc; reflexivity).
    apply firstn_consumed.
  - intros x s' c' Hx. unfold ChatUI.not_star in Hx. apply negb_true_iff in Hx.
    unfold one. now rewrite Hx.
Qed.

Lemma startsWith_app (p t : jsstring) : startsWith p (p ++ t) = true.
Proof. induction p as [|x p IH]; [reflexivity|]. simpl. now rewrite N.eqb_refl. Qed.

Lemma plain_piece (a : jsstring) :
  forallb ChatUI.not_star a = true ->
  startsWith STARS a && endsWith STARS a = false.
Proof.
  destruct a as [|x a]; [reflexivity|]. cbn [forallb]. intro H.
  apply andb_true_iff in H as [Hx _]. unfold ChatUI.not_star in Hx.
  apply negb_true_iff in Hx. cbn [STARS str startsWith].
  rewrite N.eqb_sym in Hx. unfold ch in *. cbn in *. now rewrite Hx.
Qed.

Lemma bold_piece (b : jsstring) :
  startsWith STARS (STARS ++ b ++ STARS) && endsWith STARS (STARS ++ b ++ STARS) = true /\
  slice_between 2 2 (STARS ++ b ++ STARS) = b.
Proof.
  split.
  - rewrite startsWith_app. unfold endsWith. rewrite !rev_app_distr.
    rewrite <- app_assoc. now rewrite startsWith_app.
  - unfold slice_between.
    change (STARS ++ b ++ STARS) with (ch "*" :: ch "*" :: b ++ STARS).
    cbn [skipn length]. rewrite length_app.
    change (length STARS) with 2%nat.
    replace (S (S (length b + 2)) - 2 - 2)%nat with (length b) by lia.
    rewrite firstn_app, Nat.sub_diag, firstn_all. cbn [firstn]. apply app_nil_r.
Qed.

Lemma match_bold_group (s rest : jsstring) (m : captures) :
  match_here ChatUI.bold_re s = Some (m, rest) -> s = ChatUI.group 1 m ++ rest.
Proof.
  intro H. apply match_here_binds in H. unfold ChatUI.bold_re in H.
  apply Binds_group_flat in H; [|reflexivity].
  destruct H as (g & -> & _ & ->). unfold ChatUI.group. now cbn [capture Nat.eqb].
Qed.

Lemma split_re_concat (n : nat) :
  forall piece s, concat (ChatUI.split_re_fuel n ChatUI.bold_re piece s) = piece ++ s.
Proof.
  induction n as [|n IH]; intros piece s; cbn [ChatUI.split_re_fuel concat].
  - apply app_nil_r.
  - destruct s as [|x s]; [reflexivity|].
    destruct (match_here ChatUI.bold_re (x :: s)) as [[m rest]|] eqn:E.
    + cbn [concat]. rewrite IH. cbn [app].
      f_equal. symmetry. exact (match_bold_group _ _ _ E).
    + rewrite IH. now rewrite <- app_assoc.
Qed.

Lemma split_re_bold (piece b c : jsstring) :
  b <> [] -> forallb ChatUI.not_star b = true ->
  ChatUI.split_re_fuel (S (length (STARS ++ b ++ STARS ++ c))) ChatUI.bold_re piece
    (STARS ++ b ++ STARS ++ c)
  = piece :: (STARS ++ b ++ STARS) :: ChatUI.split_re ChatUI.bold_re c.
Proof.
  intros Hb Hs. pose proof (match_bold b c Hb Hs) as M.
  assert (L : (length c < length (STARS ++ b ++ STARS ++ c))%nat)
    by (rewrite !length_app; change (length STARS) with 2%nat; lia).
  remember (STARS ++ b ++ STARS ++ c) as s eqn:Es.
  destruct s as [|x s]; [discriminate|].
  remember (length (x :: s)) as n eqn:En.
  cbn [ChatUI.split_re_fuel]. rewrite M.
  unfold ChatUI.group. cbn [capture Nat.eqb]. do 2 f_equal.
  unfold ChatUI.split_re. apply split_re_fuel_enough; [reflexivity | lia | lia].
Qed.

(** X13.  Splitting a text at its bold runs loses nothing: the pieces,
    joined in order, are the text. *)
Theorem bold_split_round_trip (text : jsstring) :
  concat (ChatUI.split_re ChatUI.bold_re text) = text.
Proof. unfold ChatUI.split_re. now rewrite split_re_concat. Qed.

(** X14.  A text without asterisk is shown as one plain span; and plain
    text without asterisk, then a non-empty text without asterisk
    between two pairs of asterisks, is shown as the plain text, the
    inner text in bold, and the rendering of what follows. *)
Theorem bold_runs_are_recognised (a b c : jsstring) :
  forallb ChatUI.not_star a = true ->
  ChatUI.renderInlineBold a = [ChatUI.Span a] /\
  (b <> [] -> forallb ChatUI.not_star b = true ->
   ChatUI.renderInlineBold (a ++ STARS ++ b ++ STARS ++ c)
   = ChatUI.Span a :: ChatUI.Strong b :: ChatUI.renderInlineBold c).
Proof.
  intro Ha. split.
  - unfold ChatUI.renderInlineBold, ChatUI.split_re.
    rewrite <- (app_nil_r a) at 1 2.
    rewrite split_re_skip by (rewrite ?app_nil_r; (assumption || lia)).
    cbn [length ChatUI.split_re_fuel app map].
    change (str "**") with STARS. now rewrite (plain_piece a Ha).
  - intros Hb Hs. unfold ChatUI.renderInlineBold at 1. unfold ChatUI.split_re.
    rewrite split_re_skip by (assumption || lia).
    rewrite (split_re_bold _ b c Hb Hs). cbn [app map].
    change (str "**") with STARS. rewrite (plain_piece a Ha).
    destruct (bold_piece b) as [-> ->]. reflexivity.
Qed.

Lemma bold_runs_are_recognised_witness :
  ChatUI.renderInlineBold (str "Rain ") = [ChatUI.Span (str "Rain ")] /\
  ChatUI.renderInlineBold (str "Rain " ++ STARS ++ str "likely" ++ STARS ++ str " at 5")
  = [ChatUI.Span (str "Rain "); ChatUI.Strong (str "likely"); ChatUI.Span (str " at 5")].
Proof.
  destruct (bold_runs_are_recognised (str "Rain ") (str "likely") (str " at 5") eq_refl)
    as [H1 H2].
  split; [exact H1|].
  rewrite (H2 ltac:(discriminate) eq_refl). reflexivity.
Defined.

(** ** The flat rendering *)

Lemma flat_size_app (a b : list ChatUI.element) :
  flat_size (a ++ b) = (flat_size a + flat_size b)%nat.
Proof.
  induction a as [|e a IH]; [reflexivity|].
  cbn [app flat_size fold_right]. fold (flat_size (a ++ b)). fold (flat_size a).
  rewrite IH. destruct e; lia.
Qed.

Lemma flushList_size (st : list ChatUI.element * list (list ChatUI.span)) :
  (flat_size (fst (ChatUI.flushList st)) + length (snd (ChatUI.flushList st))
   = flat_size (fst st) + length (snd st))%nat.
Proof.
  destruct st as [els [|i lb]]; unfold ChatUI.flushList; cbn [fst snd]; [reflexivity|].
  rewrite flat_size_app. cbn [flat_size fold_right length]. lia.
Qed.

Lemma fallback_step_size (st : list ChatUI.element * list (list ChatUI.span))
    (line : jsstring) :
  (flat_size (fst (ChatUI.fallback_step st line))
   + length (snd (ChatUI.fallback_step st line))
   = flat_size (fst st) + length (snd st)
     + (if nonempty (trim line) then 1 else 0))%nat.
Proof.
  pose proof (flushList_size st) as F.
  unfold ChatUI.fallback_step. cbv zeta.
  destruct (nonempty (trim line)); cbn [negb].
  - destruct (startsWith (str "**") (trim line) && endsWith (str "**") (trim line)).
    { destruct (ChatUI.flushList st) as [els lb]. cbn [fst snd] in *.
      rewrite flat_size_app. cbn [flat_size fold_right]. lia. }
    destruct (test_start ChatUI.letter_re (trim line)).
    { destruct (ChatUI.flushList st) as [els lb]. cbn [fst snd] in *.
      rewrite flat_size_app. cbn [flat_size fold_right]. lia. }
    destruct (startsWith (str "- ") (trim line)).
    { cbn [fst snd]. rewrite length_app. cbn [length]. lia. }
    destruct (ChatUI.flushList st) as [els lb]. cbn [fst snd] in *.
    rewrite flat_size_app. cbn [flat_size fold_right]. lia.
  - lia.
Qed.

Lemma fallback_fold_size (lines : list jsstring) :
  forall st,
    (flat_size (fst (fold_left ChatUI.fallback_step lines st))
     + length (snd (fold_left ChatUI.fallback_step lines st))
     = flat_size (fst st) + length (snd st)
       + length (filter (fun l => nonempty (trim l)) lines))%nat.
Proof.
  induction lines as [|l lines IH]; intro st; cbn [fold_left filter length]; [lia|].
  rewrite IH, fallback_step_size. destruct (nonempty (trim l)); cbn [length]; lia.
Qed.

(** X17.  A message shown flat shows every line that is not blank as
    exactly one item, a heading, a lettered item, an entry of a bullet
    list or a paragraph: nothing is dropped and nothing is merged. *)
Theorem flat_shows_every_line (s : jsstring) (es : list ChatUI.element) :
  ChatUI.formatAgentMessage s = ChatUI.Flat es ->
  flat_size es = length (filter (fun l => negb (is_blank l)) (plain_lines s)).
Proof.
  rewrite format_by_plain_lines.
  destruct (0 <? length (ChatUI.detect_sections (plain_lines s)))%nat; [discriminate|].
  intro H. injection H as <-. unfold ChatUI.fallback.
  pose proof (flushList_size (fold_left ChatUI.fallback_step (plain_lines s) ([], []))) as F.
  pose proof (fallback_fold_size (plain_lines s) ([], [])) as G.
  destruct (flushList_grows (fold_left ChatUI.fallback_step (plain_lines s) ([], [])))
    as (x & _ & _ & E).
  rewrite E in F. cbn [fst snd flat_size fold_right length] in *.
  rewrite (filter_ext (fun l => negb (is_blank l)) (fun l => nonempty (trim l)))
    by (intro l; unfold is_blank; apply negb_involutive).
  lia.
Qed.

Lemma flat_shows_every_line_witness :
  let s := str "**Today**" ++ LF :: str "- warm" ++ LF :: str "- dry" ++ LF :: LF
           :: str "a. bring water" ++ LF :: str "Enjoy" in
  exists es, ChatUI.formatAgentMessage s = ChatUI.Flat es /\ length es = 4%nat /\
             flat_size es = 5%nat /\
             length (filter (fun l => negb (is_blank l)) (plain_lines s)) = 5%nat.
Proof.
  intro s.
  destruct (ChatUI.formatAgentMessage s) as [cs|es] eqn:E; [vm_compute in E; discriminate|].
  exists es. split; [reflexivity|].
  pose proof (flat_shows_every_line s es E) as H.
  assert (L : length es = 4%nat) by (vm_compute in E; injection E as <-; reflexivity).
  assert (N : length (filter (fun l => negb (is_blank l)) (plain_lines s)) = 5%nat)
    by (vm_compute; reflexivity).
  split; [exact L|]. split; [now rewrite H | exact N].
Defined.

Lemma bullet_step (st : list ChatUI.element * list (list ChatUI.span)) (line : jsstring) :
  startsWith (str "- ") (trim line) = true ->
  ChatUI.fallback_step st line
  = (fst st, snd st ++ [ChatUI.renderInlineBold (slice_from 2 (trim line))]).
Proof.
  intro H. unfold ChatUI.fallback_step. cbv zeta.
  destruct (trim line) as [|x t] eqn:E; [discriminate|]. cbn [nonempty negb].
  change (str "- ") with [ch "-"; ch " "] in *. cbn [startsWith] in H.
  apply andb_true_iff in H as [Hx H]. apply N.eqb_eq in Hx. subst x.
  destruct t as [|y t]; [discriminate|].
  apply andb_true_iff in H as [Hy _]. apply N.eqb_eq in Hy. subst y.
  reflexivity.
Qed.

Lemma bullet_fold (lines : list jsstring) :
  Forall (fun l => startsWith (str "- ") (trim l) = true) lines ->
  forall st,
    fold_left ChatUI.fallback_step lines st
    = (fst st,
       snd st ++ map (fun l => ChatUI.renderInlineBold (slice_from 2 (trim l))) lines).
Proof.
  induction 1 as [|l lines Hl _ IH]; intro st; cbn [fold_left map].
  - rewrite app_nil_r. now destruct st.
  - rewrite IH, (bullet_step st l Hl). cbn [fst snd]. now rewrite <- app_assoc.
Qed.

(** The elements already pushed take no part in a step. *)
Lemma fallback_step_prefix (pre : list ChatUI.element) (buf : list (list ChatUI.span))
    (l : jsstring) :
  ChatUI.fallback_step (pre, buf) l
  = (pre ++ fst (ChatUI.fallback_step ([], buf) l),
     snd (ChatUI.fallback_step ([], buf) l)).
Proof.
  unfold ChatUI.fallback_step, ChatUI.flushList. cbv zeta. cbn [fst snd].
  destruct (negb (nonempty (trim l)));
    [destruct buf; cbn [fst snd app]; now rewrite ?app_nil_r|].
  destruct (startsWith (str "**") (trim l) && endsWith (str "**") (trim l));
    [destruct buf; cbn [fst snd app]; now rewrite <- ?app_assoc|].
  destruct (test_start ChatUI.letter_re (trim l));
    [destruct buf; cbn [fst snd app]; now rewrite <- ?app_assoc|].
  destruct (startsWith (str "- ") (trim l));
    [cbn [fst snd app]; now rewrite ?app_nil_r|].
  destruct buf; cbn [fst snd app]; now rewrite <- ?app_assoc.
Qed.

Lemma fallback_fold_prefix (ls : list jsstring) :
  forall (pre : list ChatUI.element) (buf : list (list ChatUI.span)),
    fold_left ChatUI.fallback_step ls (pre, buf)
    = (pre ++ fst (fold_left ChatUI.fallback_step ls ([], buf)),
       snd (fold_left ChatUI.fallback_step ls ([], buf))).
Proof.
  induction ls as [|l ls IH]; intros pre buf; cbn [fold_left].
  - cbn [fst snd]. now rewrite app_nil_r.
  - rewrite (fallback_step_prefix pre).
    destruct (ChatUI.fallback_step ([], buf) l) as [e1 b1] eqn:E1. cbn [fst snd].
    rewrite (IH (pre ++ e1) b1), (IH e1 b1). cbn [fst snd].
    now rewrite app_assoc.
Qed.

(** A blank line cuts the flat rendering in two. *)
Lemma fallback_blank_split (a b : list jsstring) :
  ChatUI.fallback (a ++ [] :: b) = ChatUI.fallback a ++ ChatUI.fallback b.
Proof.
  unfold ChatUI.fallback. rewrite fold_left_app. cbn [fold_left].
  rewrite fallback_step_blank.
  destruct (flushList_grows (fold_left ChatUI.fallback_step a ([], []))) as (x & _ & _ & E).
  destruct (ChatUI.flushList (fold_left ChatUI.fallback_step a ([], []))) as [ea ba].
  cbn [fst snd] in *. subst ba. rewrite fallback_fold_prefix.
  destruct (fold_left ChatUI.fallback_step b ([], [])) as [eb bb].
  unfold ChatUI.flushList. cbn [fst snd].
  destruct bb; cbn [fst snd]; [reflexivity | now rewrite app_assoc].
Qed.

(** X15.  In the flat rendering, a run of lines that each start, after
    trimming, with a dash and a space is shown as one bullet list with
    one entry per line, the entry being the trimmed line without its
    first two units. *)
Theorem bullets_make_one_list (lines : list jsstring) :
  lines <> [] ->
  Forall (fun l => startsWith (str "- ") (trim l) = true) lines ->
  ChatUI.fallback lines
  = [ChatUI.UL (map (fun l => ChatUI.renderInlineBold (slice_from 2 (trim l))) lines)].
Proof.
  intros Hne Hl. unfold ChatUI.fallback. rewrite (bullet_fold lines Hl).
  cbn [fst snd app]. unfold ChatUI.flushList. cbn [fst snd].
  destruct lines; [congruence | reflexivity].
Qed.

Lemma bullets_make_one_list_witness :
  ChatUI.fallback [str "- hat"; str "  - sun **cream**"]
  = [ChatUI.UL [[ChatUI.Span (str "hat")];
                [ChatUI.Span (str "sun "); ChatUI.Strong (str "cream"); ChatUI.Span []]]].
Proof.
  rewrite (bullets_make_one_list [str "- hat"; str "  - sun **cream**"]).
  - vm_compute. reflexivity.
  - discriminate.
  - repeat constructor.
Defined.

Lemma detect_sections_app_nil (a b : list jsstring) :
  ChatUI.detect_sections a = [] ->
  ChatUI.detect_sections (a ++ b) = ChatUI.detect_sections b.
Proof.
  unfold ChatUI.detect_sections. intro E. rewrite fold_left_app.
  now rewrite (close_nil _ E).
Qed.

Lemma format_flat_inv (s : jsstring) (es : list ChatUI.element) :
  ChatUI.formatAgentMessage s = ChatUI.Flat es ->
  ChatUI.detect_sections (plain_lines s) = [] /\ es = ChatUI.fallback (plain_lines s).
Proof.
  rewrite format_by_plain_lines.
  destruct (ChatUI.detect_sections (plain_lines s)); cbn [length Nat.ltb Nat.leb].
  - intro H. injection H as <-. now split.
  - discriminate.
Qed.

(** X20.  Flat renderings compose across a blank line: when two
    messages are each shown flat, the first, an empty line and the
    second are shown flat as the elements of the first followed by
    those of the second. *)
Theorem flat_blocks_compose (a b : jsstring) (ea eb : list ChatUI.element) :
  ChatUI.formatAgentMessage a = ChatUI.Flat ea ->
  ChatUI.formatAgentMessage b = ChatUI.Flat eb ->
  ChatUI.formatAgentMessage (a ++ LF :: LF :: b) = ChatUI.Flat (ea ++ eb).
Proof.
  intros Ha Hb. apply format_flat_inv in Ha as [Sa ->].
  apply format_flat_inv in Hb as [Sb ->].
  rewrite format_by_plain_lines.
  assert (E : plain_lines (a ++ LF :: LF :: b) = plain_lines a ++ [] :: plain_lines b).
  { rewrite plain_lines_at_lf. reflexivity. }
  assert (D : ChatUI.detect_sections (plain_lines a ++ [] :: plain_lines b) = []).
  { rewrite (detect_sections_app_nil _ _ Sa).
    exact (eq_trans (detect_sections_app_nil [[]] (plain_lines b) eq_refl) Sb). }
  rewrite E, D. cbn [length Nat.ltb Nat.leb]. now rewrite fallback_blank_split.
Qed.

Lemma flat_blocks_compose_witness :
  ChatUI.formatAgentMessage (str "**Today**" ++ LF :: LF :: str "- warm")
  = ChatUI.Flat ([ChatUI.H2 (str "Today")] ++ [ChatUI.UL [[ChatUI.Span (str "warm")]]]).
Proof.
  apply (flat_blocks_compose (str "**Today**") (str "- warm")); vm_compute; reflexivity.
Defined.

(** ** Sections and titles *)

Lemma section_step_count (st : list ChatUI.Section * option ChatUI.Section)
    (l : jsstring) :
  length (ChatUI.close (ChatUI.section_step st l))
  = (length (ChatUI.close st) + if is_title_line l then 1 else 0)%nat.
Proof.
  destruct st as [closed cur]. unfold ChatUI.section_step, is_title_line.
  destruct (nonempty (trim l)); cbn [negb andb]; [|lia].
  destruct (match_here ChatUI.titleRe (trim l)) as [[m rest]|];
    destruct cur as [c|]; unfold ChatUI.close; cbn [fst snd];
    rewrite ?length_app; cbn [length]; lia.
Qed.

Lemma section_fold_count (lines : list jsstring) :
  forall st,
    length (ChatUI.close (fold_left ChatUI.section_step lines st))
    = (length (ChatUI.close st) + length (filter is_title_line lines))%nat.
Proof.
  induction lines as [|l lines IH]; intro st; cbn [fold_left filter]; [cbn; lia|].
  rewrite IH, section_step_count. destruct (is_title_line l); cbn [length]; lia.
Qed.

(** X16.  A message is shown in sections exactly when one of its lines
    is a title line, and then with one section per title line; without
    a title line it is shown flat. *)
Theorem one_section_per_title_line (s : jsstring) :
  let n := length (filter is_title_line (plain_lines s)) in
  match ChatUI.formatAgentMessage s with
  | ChatUI.Cards cards => length cards = n /\ (0 < n)%nat
  | ChatUI.Flat _ => n = 0%nat
  end.
Proof.
  intro n. rewrite format_by_plain_lines.
  assert (E : length (ChatUI.detect_sections (plain_lines s)) = n).
  { unfold ChatUI.detect_sections. now rewrite section_fold_count. }
  destruct (0 <? length (ChatUI.detect_sections (plain_lines s)))%nat eqn:L.
  - apply Nat.ltb_lt in L. rewrite length_map. lia.
  - apply Nat.ltb_ge in L. lia.
Qed.

Lemma Matches_lazy_plus_run (p : code_unit -> bool) (s s' : jsstring) :
  Matches (LazyPlus p) s s' ->
  exists d, d <> [] /\ forallb p d = true /\ s = d ++ s'.
Proof.
  unfold LazyPlus. intro H. apply Matches_cat_inv in H as (t & Hx & Hl).
  apply Matches_cls_inv in Hx as (x & -> & Hx).
  apply Matches_lazy_run in Hl as (d & Hd & ->).
  exists (x :: d). split; [discriminate|]. split; [|reflexivity].
  cbn [forallb]. now rewrite Hx, Hd.
Qed.

(** The two groups of a title line. *)
Lemma title_groups (line rest : jsstring) (m : captures) :
  match_here ChatUI.titleRe line = Some (m, rest) ->
  exists g1 g2, m = [(2%nat, g2); (1%nat, g1)] /\ g1 <> [] /\
                forallb ChatUI.title_char g1 = true /\ forallb dot g2 = true.
Proof.
  intro E. apply match_here_binds in E. unfold ChatUI.titleRe in E.
  apply Binds_cat_inv in E as (s1 & c1 & H1 & E).
  apply Binds_flat in H1; [|reflexivity]. destruct H1 as [_ ->].
  apply Binds_cat_inv in E as (s2 & c2 & H2 & E).
  apply Binds_flat in H2; [|reflexivity]. destruct H2 as [_ ->].
  apply Binds_cat_inv in E as (s3 & c3 & H3 & E).
  apply Binds_group_flat in H3; [|reflexivity]. destruct H3 as (g1 & -> & H3 & ->).
  apply Matches_lazy_plus_run in H3 as (d & Hne & Hd & Ed).
  apply app_inv_tail in Ed. subst d.
  apply Binds_cat_inv in E as (s4 & c4 & H4 & E).
  apply Binds_flat in H4; [|reflexivity]. destruct H4 as [_ ->].
  apply Binds_cat_inv in E as (s5 & c5 & H5 & E).
  apply Binds_group_flat in H5; [|reflexivity]. destruct H5 as (g2 & -> & H5 & ->).
  apply Binds_end_inv in E as (-> & -> & ->).
  apply Matches_star_run in H5 as (d2 & Hd2 & Ed2).
  rewrite !app_nil_r in Ed2. subst d2.
  exists g1, g2. now repeat split.
Qed.

Lemma forallb_trimStart (P : code_unit -> bool) (s : jsstring) :
  forallb P s = true -> forallb P (trimStart s) = true.
Proof.
  induction s as [|x s IH]; [reflexivity|]. intro H. cbn [trimStart].
  destruct (is_white_space x); [|exact H].
  cbn [forallb] in H. apply andb_true_iff in H as [_ H]. now apply IH.
Qed.

Lemma forallb_rev (P : code_unit -> bool) (s : jsstring) :
  forallb P s = true -> forallb P (rev s) = true.
Proof.
  rewrite !forallb_forall. intros H x Hx. apply H. now apply in_rev.
Qed.

Lemma forallb_trim (P : code_unit -> bool) (s : jsstring) :
  forallb P s = true -> forallb P (trim s) = true.
Proof.
  intro H. unfold trim, trimEnd.
  now apply forallb_rev, forallb_trimStart, forallb_rev, forallb_trimStart.
Qed.

Lemma Matches_forallb (P : code_unit -> bool) (r : regex) (s s' : jsstring) :
  Matches r s s' -> forallb P s = true -> forallb P s' = true.
Proof.
  intros H Hs. destruct (Matches_suffix _ _ _ H) as [pre ->].
  rewrite forallb_app in Hs. now apply andb_true_iff in Hs as [_ Hs].
Qed.

Section Replace.
Variable r : regex.
Hypothesis r_consumes : consumes r = true.
Variable P : code_unit -> bool.
Variable by_ : jsstring.
Hypothesis by_ok : forallb P by_ = true.

(** Replacing keeps a property of the units that the replacement has. *)
Lemma replace_all_forallb (n : nat) :
  forall s, (length s <= n)%nat -> forallb P s = true ->
            forallb P (replace_all r by_ s) = true.
Proof.
  induction n as [|n IH]; intros s Hn Hs.
  - destruct s; [reflexivity | cbn in Hn; lia].
  - destruct s as [|x s]; [reflexivity|].
    rewrite (replace_all_step r r_consumes).
    destruct (match_here r (x :: s)) as [[m rest]|] eqn:E.
    + rewrite forallb_app, by_ok. cbn [andb].
      pose proof (match_here_consumes _ _ _ r_consumes E) as L. cbn [snd length] in L.
      apply IH; [cbn [length] in Hn; lia|].
      apply match_here_sound in E. cbn [snd] in E.
      exact (Matches_forallb P _ _ _ E Hs).
    + cbn [forallb] in *. apply andb_true_iff in Hs as [Hx Hs]. rewrite Hx.
      cbn [andb]. apply IH; [cbn [length] in Hn; lia | exact Hs].
Qed.

End Replace.

Lemma section_step_titles (st : list ChatUI.Section * option ChatUI.Section)
    (l : jsstring) :
  Forall (fun sec => forallb ChatUI.title_char (ChatUI.title sec) = true)
    (ChatUI.close st) ->
  Forall (fun sec => forallb ChatUI.title_char (ChatUI.title sec) = true)
    (ChatUI.close (ChatUI.section_step st l)).
Proof.
  destruct st as [closed cur]. unfold ChatUI.section_step.
  destruct (negb (nonempty (trim l))); [trivial|].
  destruct (match_here ChatUI.titleRe (trim l)) as [[m rest]|] eqn:E.
  - destruct (title_groups _ _ _ E) as (g1 & g2 & -> & _ & Hg1 & _).
    intro H.
    assert (Hc : Forall (fun sec => forallb ChatUI.title_char (ChatUI.title sec) = true)
                   (match cur with Some c => closed ++ [c] | None => closed end))
      by (destruct cur; exact H).
    unfold ChatUI.close. cbn [fst snd]. apply Forall_app. split; [exact Hc|].
    constructor; [|constructor]. cbn [ChatUI.title].
    apply forallb_trim. unfold ChatUI.group. cbn [capture Nat.eqb].
    apply (replace_all_forallb ChatUI.spaces_re eq_refl ChatUI.title_char
             (str " ") eq_refl (length g1)); [lia | exact Hg1].
  - destruct cur as [c|]; [|trivial]. unfold ChatUI.close. cbn [fst snd].
    intro H. apply Forall_app in H as [Hc Hl]. apply Forall_app. split; [exact Hc|].
    constructor; [|constructor]. cbn [ChatUI.title]. now inversion Hl.
Qed.

(** X19.  The heading of a section holds only letters, spaces, dots and
    parentheses: digits, colons, dashes and asterisks never reach it. *)
Theorem headings_are_plain (s : jsstring) (cards : list ChatUI.card) :
  ChatUI.formatAgentMessage s = ChatUI.Cards cards ->
  Forall (fun c => forallb ChatUI.title_char (ChatUI.heading c) = true) cards.
Proof.
  rewrite format_by_plain_lines.
  destruct (0 <? length (ChatUI.detect_sections (plain_lines s)))%nat; [|discriminate].
  intro H. injection H as <-. apply Forall_map. cbn [ChatUI.render_section ChatUI.heading].
  unfold ChatUI.detect_sections.
  assert (G : forall lines st,
             Forall (fun sec => forallb ChatUI.title_char (ChatUI.title sec) = true)
               (ChatUI.close st) ->
             Forall (fun sec => forallb ChatUI.title_char (ChatUI.title sec) = true)
               (ChatUI.close (fold_left ChatUI.section_step lines st))).
  { induction lines as [|l lines IH]; intros st Hst; [exact Hst|].
    cbn [fold_left]. now apply IH, section_step_titles. }
  apply G. constructor.
Qed.

Lemma headings_are_plain_witness :
  ChatUI.formatAgentMessage (str "- New   York (NY) - 2 pm: 21C")
  = ChatUI.Cards [ChatUI.mkCard (str "New York (NY)")
                    [ChatUI.Plain [ChatUI.Span (str "2 pm: 21C")]]] /\
  Forall (fun c => forallb ChatUI.title_char (ChatUI.heading c) = true)
    [ChatUI.mkCard (str "New York (NY)") [ChatUI.Plain [ChatUI.Span (str "2 pm: 21C")]]].
Proof.
  assert (E : ChatUI.formatAgentMessage (str "- New   York (NY) - 2 pm: 21C")
              = ChatUI.Cards [ChatUI.mkCard (str "New York (NY)")
                                [ChatUI.Plain [ChatUI.Span (str "2 pm: 21C")]]])
    by (vm_compute; reflexivity).
  split; [exact E|]. exact (headings_are_plain _ _ E).
Defined.

(* ================================================================== *)
(** * Further properties: the conversation *)
(* ================================================================== *)

Lemma uint_units_digits (d : Decimal.uint) : forallb digit (Api.uint_units d) = true.
Proof. induction d; cbn [Api.uint_units forallb]; try reflexivity; exact IHd. Qed.

(** A user id is never an assistant id. *)
Lemma decimal_is_no_assistant_id (n m : N) : Api.decimal n <> Api.decimal m ++ str "-a".
Proof.
  intro E. pose proof (uint_units_digits (N.to_uint n)) as D.
  fold (Api.decimal n) in D. rewrite E, forallb_app in D.
  apply andb_true_iff in D as [_ D]. discriminate D.
Qed.

Lemma onChunk_keeps_others (aid buffer : jsstring) (pre : list Conversation.Message) :
  (forall m, In m pre -> Conversation.id m <> aid) ->
  map (fun m => if str_eqb (Conversation.id m) aid
                then Conversation.mkMessage (Conversation.id m) (Conversation.type m) buffer
                else m) pre
  = pre.
Proof.
  induction pre as [|m pre IH]; intro H; [reflexivity|]. cbn [map].
  rewrite IH by (intros m' Hm'; apply H; now right).
  destruct (str_eqb (Conversation.id m) aid) eqn:E; [|reflexivity].
  apply str_eqb_eq in E. exfalso. apply (H m); [now left | exact E].
Qed.

Lemma onChunk_fold (aid : jsstring) (pre : list Conversation.Message)
    (fs : list jsstring) :
  (forall m, In m pre -> Conversation.id m <> aid) ->
  forall buffer,
    fold_left (Conversation.onChunk aid) fs
      (buffer, pre ++ [Conversation.mkMessage aid Conversation.agent buffer])
    = (buffer ++ concat fs,
       pre ++ [Conversation.mkMessage aid Conversation.agent (buffer ++ concat fs)]).
Proof.
  intro H. induction fs as [|f fs IH]; intro buffer; cbn [fold_left concat].
  - now rewrite app_nil_r.
  - unfold Conversation.onChunk at 2. cbn [fst snd].
    rewrite map_app, (onChunk_keeps_others aid _ pre H). cbn [map Conversation.id].
    rewrite str_eqb_refl. cbn [Conversation.type].
    rewrite IH. now rewrite <- app_assoc.
Qed.

(** X21.  An accepted question adds two messages after those already
    shown, which stay as they are: the question, trimmed, and the reply,
    whose content is the fragments of the run joined in order; the
    input field is emptied.  The earlier messages must not carry the id
    of the new reply. *)
Theorem reply_is_the_fragments_joined (offline : bool) (now now' : N) (controller : nat)
    (net : Api.fetch_result) (st : Conversation.state) :
  let text := trim (Conversation.inputValue st) in
  let assistantId := Api.decimal now' ++ str "-a" in
  let st' := Conversation.handleSendMessage offline now now' controller net st in
  nonempty text = true ->
  Hook.isLoading (Conversation.stream st) = false ->
  accepted text = true ->
  (forall m, In m (Conversation.messages st) -> Conversation.id m <> assistantId) ->
  Conversation.messages st'
  = Conversation.messages st
    ++ [Conversation.mkMessage (Api.decimal now) Conversation.user text;
        Conversation.mkMessage assistantId Conversation.agent
          (concat (Api.fragments (Api.sendMessageToWeatherAgent net)))] /\
  Conversation.inputValue st' = [].
Proof.
  intros text assistantId st' Hne Hl Ha Hfresh.
  unfold st', Conversation.handleSendMessage. cbv zeta. fold text.
  rewrite Hne, Hl. cbn [negb orb]. unfold accepted in Ha. rewrite Ha. cbn [negb].
  cbn [Conversation.messages Conversation.inputValue]. split; [|reflexivity].
  fold assistantId.
  rewrite (onChunk_fold assistantId
             (Conversation.messages st
              ++ [Conversation.mkMessage (Api.decimal now) Conversation.user text])).
  - cbn [snd app]. now rewrite <- app_assoc.
  - intros m Hm. apply in_app_or in Hm as [Hm|[<-|[]]]; [now apply Hfresh|].
    cbn [Conversation.id]. apply decimal_is_no_assistant_id.
Qed.

Lemma reply_is_the_fragments_joined_witness :
  let cs := [bytes_of "data: 0:" ++ [Byte.x22] ++ bytes_of "Sunny, " ++ [Byte.x22; Byte.x0a];
             bytes_of "data: 0:" ++ [Byte.x22] ++ bytes_of "31C" ++ [Byte.x22; Byte.x0a]] in
  let st := Conversation.mkChat [] (str " Weather in Pune ") Hook.initial in
  Conversation.messages
    (Conversation.handleSendMessage false 1700000000000 1700000000001 1
       (Api.streaming cs Api.EndOfStream) st)
  = [Conversation.mkMessage (str "1700000000000") Conversation.user (str "Weather in Pune");
     Conversation.mkMessage (str "1700000000001-a") Conversation.agent (str "Sunny, 31C")].
Proof.
  intros cs st.
  pose proof (reply_is_the_fragments_joined false 1700000000000 1700000000001 1
                (Api.streaming cs Api.EndOfStream) st) as H.
  cbv zeta in H. destruct H as [H _].
  - vm_compute. reflexivity.
  - reflexivity.
  - vm_compute. reflexivity.
  - intros m [].
  - rewrite H. vm_compute. reflexivity.
Defined.

(** ** The location check *)

Lemma pair_inside (a s b : jsstring) :
  has_location_pair s -> has_location_pair (a ++ s ++ b).
Proof.
  intros (p & x & y & q & -> & Hx & Hy). exists (a ++ p), x, y, (q ++ b).
  split; [|now split]. rewrite <- !app_assoc. reflexivity.
Qed.

Lemma location_word_pair (s s' : jsstring) :
  Matches Conversation.location_word s s' ->
  exists x y t, s = x :: y :: t /\ Conversation.location_char x = true
                /\ Conversation.location_char y = true.
Proof.
  unfold Conversation.location_word, Plus. intro H.
  apply Matches_cat_inv in H as (s1 & H1 & H).
  apply Matches_cls_inv in H1 as (x & -> & Hx).
  apply Matches_cat_inv in H as (s2 & H2 & _).
  apply Matches_cls_inv in H2 as (y & -> & Hy).
  now exists x, y, s2.
Qed.

Lemma hint_pair (s : jsstring) :
  test_start Conversation.hint_re s = true -> has_location_pair s.
Proof.
  unfold test_start. destruct (match_here Conversation.hint_re s) as [res|] eqn:E;
    [intros _ | discriminate].
  apply match_here_sound in E. unfold Conversation.hint_re in E.
  apply Matches_group_inv in E. apply Matches_cat_inv in E as (s1 & H1 & E).
  apply Matches_cat_inv in E as (s2 & H2 & E).
  destruct (Matches_suffix _ _ _ H1) as [p1 ->].
  destruct (Matches_suffix _ _ _ H2) as [p2 ->].
  apply location_word_pair in E as (x & y & t & -> & Hx & Hy).
  exists (p1 ++ p2), x, y, t. split; [|now split]. now rewrite <- app_assoc.
Qed.

Lemma test_at_boundary_pair (r : regex) :
  (forall s, test_start r s = true -> has_location_pair s) ->
  forall s prev, Conversation.test_at_boundary r prev s = true -> has_location_pair s.
Proof.
  intros Hr. induction s as [|x s IH]; intros prev H; cbn [Conversation.test_at_boundary] in H;
    apply orb_true_iff in H as [H|H]; try discriminate.
  - apply andb_true_iff in H as [_ H]. now apply Hr.
  - apply andb_true_iff in H as [_ H]. now apply Hr.
  - apply IH in H. apply (pair_inside [x] s []) in H.
    now rewrite app_nil_r in H.
Qed.

Lemma single_pair (s : jsstring) :
  Conversation.looksLikeSingleLocation s = true -> has_location_pair s.
Proof.
  unfold Conversation.looksLikeSingleLocation, test_start.
  destruct (match_here Conversation.single_re s) as [res|] eqn:E; [intros _ | discriminate].
  apply match_here_sound in E. unfold Conversation.single_re in E.
  apply Matches_cat_inv in E as (s1 & H1 & _).
  apply location_word_pair in H1 as (x & y & t & -> & Hx & Hy).
  now exists [], x, y, t.
Qed.

Lemma split_acc_inside (sep : code_unit) (s : jsstring) :
  forall acc p, In p (split_acc sep acc s) -> exists a b, acc ++ s = a ++ p ++ b.
Proof.
  induction s as [|x s IH]; intros acc p H; cbn [split_acc] in H.
  - destruct H as [<-|[]]. exists [], []. now rewrite !app_nil_r.
  - destruct (x =? sep).
    + destruct H as [<-|H].
      * exists [], (x :: s). reflexivity.
      * apply IH in H as (a & b & E). cbn [app] in E.
        exists (acc ++ x :: a), b. rewrite E. now rewrite <- app_assoc.
    + apply IH in H as (a & b & E). exists a, b. rewrite <- E.
      now rewrite <- app_assoc.
Qed.

Lemma trimStart_inside (s : jsstring) : exists w, s = w ++ trimStart s.
Proof.
  induction s as [|x s [w IH]]; [now exists []|]. cbn [trimStart].
  destruct (is_white_space x); [|now exists []].
  exists (x :: w). cbn [app]. now f_equal.
Qed.

Lemma trim_inside (s : jsstring) : exists a b, s = a ++ trim s ++ b.
Proof.
  unfold trim, trimEnd. destruct (trimStart_inside s) as [a Ea].
  destruct (trimStart_inside (rev (trimStart s))) as [w Ew].
  exists a, (rev w). rewrite <- rev_app_distr, <- Ew, rev_involutive. exact Ea.
Qed.

(** X22.  An input the location check lets through holds two units of
    the location class side by side, the class being the letters, the
    units from U+00C0 to U+00FF, U+0178, the apostrophe, the
    parentheses, the dot and the hyphen.  A text of digits, or with
    letters one at a time, is refused. *)
Theorem accepted_text_holds_a_word (text : jsstring) :
  accepted text = true -> has_location_pair text.
Proof.
  unfold accepted. intro H. apply orb_true_iff in H as [H|H];
    [apply orb_true_iff in H as [H|H]|].
  - exact (test_at_boundary_pair _ hint_pair _ _ H).
  - now apply single_pair.
  - unfold Conversation.segmentHasLocation in H. cbv zeta in H.
    apply existsb_exists in H as (seg & Hin & H).
    apply in_map_iff in Hin as (piece & <- & Hin).
    apply split_acc_inside in Hin as (a & b & E). cbn [app] in E. rewrite E.
    apply pair_inside. destruct (trim_inside piece) as (a' & b' & E').
    rewrite E'. apply pair_inside.
    apply orb_true_iff in H as [H|H].
    + exact (test_at_boundary_pair _ hint_pair _ _ H).
    + now apply single_pair.
Qed.

Lemma accepted_text_holds_a_word_witness :
  accepted (str "What about tomorrow, at Goa?") = true /\
  has_location_pair (str "What about tomorrow, at Goa?") /\
  accepted (str "Is it 5 C or 9 C?") = false.
Proof.
  assert (E : accepted (str "What about tomorrow, at Goa?") = true) by (vm_compute; reflexivity).
  split; [exact E|]. split; [exact (accepted_text_holds_a_word _ E)|].
  vm_compute. reflexivity.
Defined.

Lemma location_char_no_space (x : code_unit) :
  Conversation.location_char x = true -> is_white_space x = false.
Proof.
  intro H. destruct (is_white_space x) eqn:W; [exfalso | reflexivity].
  unfold Conversation.location_char, is_white_space, letter, upper, lower in *.
  change (ch "'") with 39 in H. change (ch "(") with 40 in H.
  change (ch ")") with 41 in H. change (ch ".") with 46 in H.
  change (ch "-") with 45 in H.
  repeat match goal with
         | H : _ || _ = true |- _ => apply orb_true_iff in H; destruct H
         | H : _ && _ = true |- _ => apply andb_true_iff in H; destruct H
         | H : (_ <=? _) = true |- _ => apply N.leb_le in H
         | H : (_ =? _) = true |- _ => apply N.eqb_eq in H
         end; lia.
Qed.

(** X23.  The location check lets any run of two or more units of the
    location class through, whether or not it names a place. *)
Theorem any_word_is_accepted (w : jsstring) :
  (2 <= length w)%nat -> forallb Conversation.location_char w = true ->
  accepted w = true.
Proof.
  intros L H. unfold accepted.
  assert (S1 : Conversation.looksLikeSingleLocation w = true).
  { destruct w as [|x [|y w]]; cbn [length] in L; try lia.
    cbn [forallb] in H. apply andb_true_iff in H as [Hx H].
    apply andb_true_iff in H as [Hy H].
    unfold Conversation.looksLikeSingleLocation, test_start, match_here,
      Conversation.single_re, Conversation.location_word, Plus.
    cbn [run]. rewrite Hx, Hy. rewrite greedy_star_skip.
    - rewrite <- (app_nil_r w), (drop_while_app_all _ w [] H). unfold Conversation.next_word, Plus.
      cbn [run]. reflexivity.
    - intros x' s c Hx'. unfold Conversation.next_word, Plus. cbn [run].
      now rewrite (location_char_no_space x' Hx'). }
  rewrite S1. now rewrite orb_true_r.
Qed.

Lemma any_word_is_accepted_witness :
  accepted (str "Pune") = true /\ accepted (str "xx") = true /\ accepted (str "..") = true.
Proof.
  split; [|split]; apply any_word_is_accepted; try (cbn; lia); reflexivity.
Defined.
